(** * wt-js-libs: on-chain entities, off-chain data client and index provider

    A shallow embedding of the JavaScript sources

      - [src/off-chain-data-client.js]           (module [OffChainDataClient])
      - [src/data-model/web3-uri/wt-index.js]    (module [WTIndex])
      - the contract [Parent] kept with it       (module [Parent])
      - the JSON backed index provider           (module [JsonWTIndex])
      - [libs/BookingData.js], history queries   (module [BookingData])
      - the [OnChainHotel] wrapper               (module [OnChainHotel])
      - [src/data-model/on-chain-airline.js]     (module [OnChainAirline])

    together with the two collaborators the wrappers are written against,
    [RemotelyBackedDataset] and [StoragePointer], whose sources are not part
    of the tree and which are therefore modelled from the specification.

    Asynchronous functions are sequentialised at their [await] points:
    an [async] function becomes a computation in a state-and-error monad,
    a rejected promise and a thrown exception are both the error result. *)

From Stdlib Require Import String Ascii List ZArith Bool Lia.
From Stdlib Require DecimalString DecimalNat.
From stdpp Require Import base strings list gmap.
Import ListNotations.

Open Scope string_scope.
Open Scope list_scope.

Set Warnings "-register-all".

(** ** JavaScript values, errors and results *)

(** The values the wrappers handle are typed [Promise<?string> | ?string]
    or [Object] in the sources: [undefined], [null], a string, a number (a
    nonce, a gas estimate), a promise (known by its identity) or an object
    handle (a contract instance). *)
Inductive Val : Type :=
| VUndefined
| VNull
| VStr (s : string)
| VNum (z : Z)
| VPromise (p : nat)
| VObject (h : nat).

#[global] Instance Val_eq_dec : EqDecision Val.
Proof. solve_decision. Defined.

(** [!!v] of JavaScript. *)
Definition truthy (v : Val) : bool :=
  match v with
  | VUndefined | VNull => false
  | VStr s => negb (String.eqb s "")
  | VNum z => negb (z =? 0)%Z
  | VPromise _ | VObject _ => true
  end.

(** [typeof v === 'string'] *)
Definition typeof_string (v : Val) : bool :=
  match v with VStr _ => true | _ => false end.

(** [a === b]: strings by content, promises and objects by identity. *)
Definition strict_eq (a b : Val) : bool := bool_decide (a = b).

Inductive ErrorKind : Type :=
| PlainError
| TypeError
| InputDataError
| SmartContractInstantiationError
| NotDeployedError
| ObsoleteRecordError
| RemoteDataReadError
| RemoteWriteError
| SchemaResolutionError.

Record Error : Type := mkError { kind : ErrorKind; message : string }.

(** The [name] of an error: [Error] and [TypeError] are the language's;
    the other classes are the library's and carry the name of their class. *)
Definition error_name (k : ErrorKind) : string :=
  match k with
  | PlainError => "Error"
  | TypeError => "TypeError"
  | InputDataError => "InputDataError"
  | SmartContractInstantiationError => "SmartContractInstantiationError"
  | NotDeployedError => "NotDeployedError"
  | ObsoleteRecordError => "ObsoleteRecordError"
  | RemoteDataReadError => "RemoteDataReadError"
  | RemoteWriteError => "RemoteWriteError"
  | SchemaResolutionError => "SchemaResolutionError"
  end.

(** ['' + err], that is [Error.prototype.toString]: the name, then the
    message after a colon unless it is empty. *)
Definition error_string (e : Error) : string :=
  if String.eqb (message e) "" then error_name (kind e)
  else error_name (kind e) ++ ": " ++ message e.

Inductive result (A : Type) : Type :=
| Ok (a : A)
| Throw (e : Error).
Arguments Ok {A} a.
Arguments Throw {A} e.

Definition is_ok {A} (r : result A) : bool :=
  match r with Ok _ => true | Throw _ => false end.

(** ** Strings *)

(** A JavaScript string is held as the bytes of its UTF-8 form, which is
    what a string literal of this file denotes. *)

(** Lower-casing of the letters [A-Z].  On a string of ASCII characters
    this is [String.prototype.toLowerCase]; it is the instance the examples
    run with.  The client below is written against the operation itself. *)
Definition lower_ascii (c : ascii) : ascii :=
  let n := nat_of_ascii c in
  if (65 <=? n)%nat && (n <=? 90)%nat then ascii_of_nat (n + 32) else c.

Fixpoint ascii_toLowerCase (s : string) : string :=
  match s with
  | EmptyString => EmptyString
  | String c rest => String (lower_ascii c) (ascii_toLowerCase rest)
  end.

Lemma ascii_toLowerCase_empty s : ascii_toLowerCase s = "" ↔ s = "".
Proof. destruct s; simpl; split; congruence. Defined.

(** [s.match (/([a-z-]+):\/\//)] as a test: somewhere in [s] a character
    of [[a-z-]] stands right before [://]. *)
Definition is_scheme_char (c : ascii) : bool :=
  let n := nat_of_ascii c in
  ((97 <=? n)%nat && (n <=? 122)%nat) || (n =? 45)%nat.

(** [s.startsWith (p)] *)
Fixpoint starts_with (p s : string) : bool :=
  match p, s with
  | EmptyString, _ => true
  | String a p', String b s' => Ascii.eqb a b && starts_with p' s'
  | String _ _, EmptyString => false
  end.

Fixpoint matches_scheme (s : string) : bool :=
  match s with
  | EmptyString => false
  | String c rest =>
      (is_scheme_char c && starts_with "://" rest) || matches_scheme rest
  end.

Lemma starts_with_spec p : ∀ s,
  starts_with p s = true ↔ ∃ post, s = (p ++ post)%string.
Proof.
  induction p as [|a p IH]; intros s; simpl.
  - split; [intros _; now exists s | reflexivity].
  - destruct s as [|b s].
    + split; [discriminate | intros [post H]; discriminate].
    + rewrite andb_true_iff, Ascii.eqb_eq, IH. split.
      * intros [-> [post ->]]. now exists post.
      * intros [post H]. inversion H. split; [reflexivity | now exists post].
Qed.

(** The test agrees with the regular expression: [[a-z-]+] followed by
    [://] occurs in [s] exactly when one character of the class stands
    right before an occurrence of [://]. *)
Lemma matches_scheme_spec s :
  matches_scheme s = true ↔
  ∃ pre c post, s = (pre ++ String c ("://" ++ post))%string
                ∧ is_scheme_char c = true.
Proof.
  induction s as [|c rest IH]; cbn [matches_scheme].
  - split; [discriminate|]. intros (pre & c & post & H & _).
    destruct pre; discriminate.
  - rewrite orb_true_iff, andb_true_iff, IH, starts_with_spec. split.
    + intros [[Hc [post ->]]|(pre & c' & post & -> & Hc)].
      * exists "", c, post. auto.
      * exists (String c pre), c', post. auto.
    + intros (pre & c' & post & H & Hc). destruct pre as [|p pre]; simpl in H.
      * inversion H; subst. left. eauto.
      * inversion H; subst. right. eauto.
Qed.

Example matches_scheme_json : matches_scheme "json://urlone" = true.
Proof. reflexivity. Qed.

Example matches_scheme_upper : matches_scheme "JSON://urlone" = false.
Proof. reflexivity. Qed.

Example matches_scheme_bare : matches_scheme "urlone" = false.
Proof. reflexivity. Qed.

(** ** [OffChainDataClient] (src/off-chain-data-client.js) *)

Module OffChainDataClient.

Section Client.

(** The adapter options and the adapter instances are opaque to the client. *)
Variables (Options Adapter : Type).

(** [String.prototype.toLowerCase].  The case tables of the language are
    no part of the sources, so the operation is a parameter of the client;
    what is used of it is that the empty string, and no other, has the empty
    string as its lowercase form. *)
Variable toLowerCase : string → string.
Hypothesis toLowerCase_empty : ∀ s, toLowerCase s = "" ↔ s = "".

(** One entry of [OffChainDataClientOptionsType.adapters]. *)
Record AdapterConfig : Type :=
  { options : Options; create : Options → Adapter }.

(** The names every object literal [{}] inherits from [Object.prototype];
    the [in] operator and a property read both see them. *)
Definition prototype_keys : list string :=
  [ "constructor"; "__defineGetter__"; "__defineSetter__"; "hasOwnProperty";
    "__lookupGetter__"; "__lookupSetter__"; "isPrototypeOf";
    "propertyIsEnumerable"; "toString"; "valueOf"; "__proto__";
    "toLocaleString" ].

Definition inherited (k : string) : bool := bool_decide (k ∈ prototype_keys).

(** [key in adapters] for the object that starts as [{}]. *)
Definition js_in (k : string) (adapters : gmap string AdapterConfig) : bool :=
  bool_decide (is_Some (adapters !! k)) || inherited k.

(** The body of the [for (let key of Object.keys(...))] loop of [setup],
    over the entries of [options.adapters] in key order. *)
Fixpoint setup_loop (entries : list (string * AdapterConfig))
    (adapters : gmap string AdapterConfig) : result (gmap string AdapterConfig) :=
  match entries with
  | [] => Ok adapters
  | (key, cfg) :: rest =>
      let normalizedKey := toLowerCase key in
      if js_in normalizedKey adapters
      then Throw (mkError PlainError ("Adapter declared twice: " ++ normalizedKey))
      else setup_loop rest (<[normalizedKey := cfg]> adapters)
  end.

(** The module-level variable [offChainDataOptions]: [None] before the first
    [setup], afterwards the [adapters] table it holds. *)
Definition Global : Type := option (gmap string AdapterConfig).

(** [setup (options)]: [options] is [None] for a missing argument or a
    missing [adapters] member ([options || {}], [adapters || {}]).  When the
    loop throws, the variable already holds the caller's object with its
    table as given. *)
Definition setup (opts : option (list (string * AdapterConfig)))
    : result unit * Global :=
  let entries := default [] opts in
  match setup_loop entries ∅ with
  | Ok adapters => (Ok tt, Some adapters)
  | Throw e => (Throw e, Some (list_to_map entries))
  end.

(** [_reset ()] *)
Definition _reset (g : Global) : result unit * Global :=
  match g with
  | Some _ => (Ok tt, Some ∅)
  | None => (Throw (mkError TypeError "Cannot set property 'adapters' of undefined"), None)
  end.

(** What [adapter.create (adapter.options)] does when [adapter] is the value
    of an inherited name and not a declared configuration.  The value of
    [constructor] is [Object], whose [create] is [Object.create], called
    here with [Object.options], that is [undefined]; the values of the other
    names have no [create]. *)
Definition not_an_adapter (schema : string) : Error :=
  mkError TypeError
    (if String.eqb schema "constructor"
     then "Object prototype may only be an Object or null: undefined"
     else "adapter.create is not a function").

(** [getAdapter (schema)], [schema : ?string]. *)
Definition getAdapter (g : Global) (schema : option string) : result Adapter :=
  let schema := match schema with
                | Some s => if String.eqb s "" then "" else toLowerCase s
                | None => ""
                end in
  match g with
  | None => if String.eqb schema ""
            then Throw (mkError PlainError "Unsupported data storage type: null")
            else Throw (mkError TypeError "Cannot read property 'adapters' of undefined")
  | Some adapters =>
      if String.eqb schema "" then
        Throw (mkError PlainError "Unsupported data storage type: null")
      else
        match adapters !! schema with
        | Some adapter => Ok (create adapter (options adapter))
        | None =>
            if inherited schema
            then Throw (not_an_adapter schema)
            else Throw (mkError PlainError ("Unsupported data storage type: " ++ schema))
        end
  end.

(** *** The table built by [setup] *)

Lemma setup_loop_old entries : ∀ adapters adapters' k cfg,
  setup_loop entries adapters = Ok adapters' →
  adapters !! k = Some cfg → adapters' !! k = Some cfg.
Proof.
  induction entries as [|[key c] rest IH]; simpl; intros adapters adapters' k cfg H Hk.
  - congruence.
  - destruct (js_in (toLowerCase key) adapters) eqn:Hin; [discriminate|].
    apply (IH _ _ _ _ H).
    rewrite lookup_insert_ne; [exact Hk|].
    intros E. rewrite <- E in Hk. unfold js_in in Hin.
    rewrite bool_decide_true in Hin by eauto. discriminate.
Qed.

Lemma setup_loop_registers entries : ∀ adapters adapters' key cfg,
  setup_loop entries adapters = Ok adapters' →
  In (key, cfg) entries → adapters' !! toLowerCase key = Some cfg.
Proof.
  induction entries as [|[key0 c0] rest IH]; simpl; intros adapters adapters' key cfg H Hin.
  - contradiction.
  - destruct (js_in (toLowerCase key0) adapters) eqn:Hjs; [discriminate|].
    destruct Hin as [Heq | Hin].
    + inversion Heq; subst.
      apply (setup_loop_old _ _ _ _ _ H). apply lookup_insert_eq.
    + eapply IH; eauto.
Qed.

Lemma setup_loop_origin entries : ∀ adapters adapters' k cfg,
  setup_loop entries adapters = Ok adapters' →
  adapters' !! k = Some cfg →
  adapters !! k = Some cfg ∨
  ∃ key, In (key, cfg) entries ∧ toLowerCase key = k.
Proof.
  induction entries as [|[key0 c0] rest IH]; simpl; intros adapters adapters' k cfg H Hk.
  - left. congruence.
  - destruct (js_in (toLowerCase key0) adapters) eqn:Hjs; [discriminate|].
    destruct (IH _ _ _ _ H Hk) as [Hold | (key & Hin & Hlow)].
    + destruct (decide (toLowerCase key0 = k)) as [<-|Hne].
      * rewrite lookup_insert_eq in Hold. inversion Hold; subst. right. eauto.
      * rewrite lookup_insert_ne in Hold by exact Hne. now left.
    + right. eauto.
Qed.

(** The scheme [getAdapter] looks up is the lowercase form of its argument. *)
Lemma normalized s : (if String.eqb s "" then "" else toLowerCase s) = toLowerCase s.
Proof.
  destruct (String.eqb_spec s "") as [->|_]; [|reflexivity].
  symmetry. now apply toLowerCase_empty.
Qed.

(** C6. After a successful [setup], adapter lookup is case-insensitive,
    for every string and whatever the lowercase form of a string is:
    [getAdapter s] gives the same outcome for any two strings with the same
    lowercase form, so for a string and its lowercase form wherever
    lower-casing that form again changes nothing; an adapter declared under
    any casing [key] is the one every non-empty [s] with the same lowercase
    form resolves to; and whenever [getAdapter s] resolves, it resolves to
    the configuration that was declared under a key whose lowercase form is
    that of [s]. *)
Theorem getAdapter_case_insensitive
    (opts : option (list (string * AdapterConfig))) (g : Global) :
  setup opts = (Ok tt, g) →
  (∀ s1 s2, toLowerCase s1 = toLowerCase s2 →
     getAdapter g (Some s1) = getAdapter g (Some s2)) ∧
  (∀ s, toLowerCase (toLowerCase s) = toLowerCase s →
     getAdapter g (Some s) = getAdapter g (Some (toLowerCase s))) ∧
  (∀ key cfg s, In (key, cfg) (default [] opts) →
     toLowerCase s = toLowerCase key → s ≠ "" →
     getAdapter g (Some s) = Ok (create cfg (options cfg))) ∧
  (∀ s a, getAdapter g (Some s) = Ok a →
     ∃ key cfg, In (key, cfg) (default [] opts) ∧
       toLowerCase key = toLowerCase s ∧ a = create cfg (options cfg)).
Proof.
  intros Hsetup.
  assert (Hdep : ∀ s1 s2, toLowerCase s1 = toLowerCase s2 →
            getAdapter g (Some s1) = getAdapter g (Some s2)).
  { intros s1 s2 H. unfold getAdapter. now rewrite !normalized, H. }
  unfold setup in Hsetup.
  destruct (setup_loop (default [] opts) ∅) as [adapters|e] eqn:Hloop; [|discriminate].
  inversion Hsetup; subst g; clear Hsetup.
  repeat split.
  - exact Hdep.
  - intros s Hidem. apply Hdep. now rewrite Hidem.
  - intros key cfg s Hin Hlow Hne.
    unfold getAdapter. rewrite normalized.
    destruct (String.eqb_spec (toLowerCase s) "") as [E|_].
    { apply (proj1 (toLowerCase_empty s)) in E. contradiction. }
    rewrite Hlow, (setup_loop_registers _ _ _ _ _ Hloop Hin). reflexivity.
  - intros s a Hget. unfold getAdapter in Hget. rewrite normalized in Hget.
    destruct (String.eqb (toLowerCase s) ""); [discriminate|].
    destruct (adapters !! toLowerCase s) as [cfg|] eqn:Hk.
    + inversion Hget; subst.
      destruct (setup_loop_origin _ _ _ _ _ Hloop Hk) as [Hempty | (key & Hin & Hlow)].
      * rewrite lookup_empty in Hempty. discriminate.
      * exists key, cfg. auto.
    + destruct (inherited (toLowerCase s)); discriminate.
Qed.

(** *** When [setup] accepts a table, and what a lookup of an undeclared
        scheme gives *)

(** The keys of a table as [setup] registers them. *)
Definition normalized_keys (entries : list (string * AdapterConfig)) : list string :=
  map (fun e => toLowerCase (fst e)) entries.

Definition declared_twice (normalizedKey : string) : Error :=
  mkError PlainError ("Adapter declared twice: " ++ normalizedKey).

Definition unsupported (schema : string) : Error :=
  mkError PlainError ("Unsupported data storage type: " ++ schema).

Lemma js_in_empty k : js_in k ∅ = inherited k.
Proof. unfold js_in. rewrite lookup_empty. now rewrite bool_decide_false by (intros [x Hx]; discriminate). Qed.

Lemma js_in_insert k k' cfg adapters :
  js_in k (<[k' := cfg]> adapters) = false ↔ k ≠ k' ∧ js_in k adapters = false.
Proof.
  unfold js_in. rewrite !orb_false_iff, !bool_decide_eq_false.
  destruct (decide (k = k')) as [->|Hne].
  - rewrite lookup_insert_eq. split; [intros [H _]; exfalso; apply H; eauto | intros [H _]; congruence].
  - rewrite lookup_insert_ne by congruence. tauto.
Qed.

Lemma setup_loop_accepts entries : ∀ adapters,
  is_ok (setup_loop entries adapters) = true ↔
  NoDup (normalized_keys entries)
  ∧ ∀ k, In k (normalized_keys entries) → js_in k adapters = false.
Proof.
  induction entries as [|[key cfg] rest IH]; intros adapters; simpl.
  - split; [intros _; split; [constructor | intros k []] | reflexivity].
  - destruct (js_in (toLowerCase key) adapters) eqn:Hjs; simpl.
    + split; [discriminate|]. intros [_ H].
      rewrite (H (toLowerCase key)) in Hjs by now left. discriminate.
    + rewrite IH. split.
      * intros [Hnd Hall]. split.
        -- constructor; [|exact Hnd]. intros Hin. apply list_elem_of_In in Hin.
           apply Hall, js_in_insert in Hin. now destruct Hin.
        -- intros k [<-|Hin]; [exact Hjs|]. now apply Hall, js_in_insert in Hin.
      * intros [Hnd Hall]. apply NoDup_cons in Hnd as [Hnotin Hnd].
        split; [exact Hnd|]. intros k Hin. apply js_in_insert. split.
        -- intros ->. apply Hnotin. now apply list_elem_of_In.
        -- apply Hall. now right.
Qed.

Lemma setup_loop_error entries : ∀ adapters e,
  setup_loop entries adapters = Throw e →
  ∃ key, In key (map fst entries) ∧ e = declared_twice (toLowerCase key).
Proof.
  induction entries as [|[key cfg] rest IH]; intros adapters e; simpl; [discriminate|].
  destruct (js_in (toLowerCase key) adapters).
  - intros H. inversion H. exists key. split; [now left | reflexivity].
  - intros H. destruct (IH _ _ H) as (k & Hin & He). exists k. split; [now right | exact He].
Qed.

(** [setup] accepts a table exactly when no two of its keys have the same
    lowercase form and none of them, lowercased, is a name every object
    inherits; when it throws, the error names the lowercase form of a
    declared key.  This holds whatever the lowercase form of a string is. *)
Theorem setup_accepts_iff (opts : option (list (string * AdapterConfig))) :
  (is_ok (fst (setup opts)) = true ↔
     NoDup (normalized_keys (default [] opts))
     ∧ ∀ k, In k (normalized_keys (default [] opts)) → inherited k = false)
  ∧ (∀ e, fst (setup opts) = Throw e →
       ∃ key, In key (map fst (default [] opts))
              ∧ e = declared_twice (toLowerCase key)).
Proof.
  unfold setup. split.
  - pose proof (setup_loop_accepts (default [] opts) ∅) as H.
    setoid_rewrite js_in_empty in H.
    destruct (setup_loop (default [] opts) ∅); simpl in *; exact H.
  - intros e. destruct (setup_loop (default [] opts) ∅) as [a|e0] eqn:E; simpl; [discriminate|].
    intros H. inversion H; subst. eapply setup_loop_error; eauto.
Qed.

(** A scheme that was not declared does not resolve.  After a successful
    [setup], a missing or empty scheme is reported as unsupported under the
    name [null]; a scheme whose lowercase form is no declared key is
    reported as unsupported under that lowercase form, unless that form is
    a name every object inherits, for which the lookup finds the inherited
    value and the call of its [create] is a [TypeError]; no inherited name
    is a declared key; and after [_reset] no scheme resolves at all. *)
Theorem getAdapter_undeclared
    (opts : option (list (string * AdapterConfig))) (g : Global) :
  setup opts = (Ok tt, g) →
  getAdapter g None = Throw (unsupported "null")
  ∧ getAdapter g (Some "") = Throw (unsupported "null")
  ∧ (∀ s, s ≠ "" →
       ¬ In (toLowerCase s) (normalized_keys (default [] opts)) →
       getAdapter g (Some s)
       = Throw (if inherited (toLowerCase s)
                then not_an_adapter (toLowerCase s)
                else unsupported (toLowerCase s)))
  ∧ (∀ k, In k (normalized_keys (default [] opts)) → inherited k = false)
  ∧ (∀ schema, is_ok (getAdapter (snd (_reset g)) schema) = false).
Proof.
  intros Hsetup.
  assert (Hok : is_ok (fst (setup opts)) = true) by now rewrite Hsetup.
  unfold setup in Hsetup, Hok.
  destruct (setup_loop (default [] opts) ∅) as [adapters|e] eqn:Hloop; [|discriminate].
  inversion Hsetup; subst g; clear Hsetup.
  split; [reflexivity|]. split; [reflexivity|]. split; [|split].
  - intros s Hne Hnot. unfold getAdapter.
    destruct (String.eqb_spec s "") as [->|_]; [contradiction|].
    destruct (String.eqb_spec (toLowerCase s) "") as [E|_].
    { apply (proj1 (toLowerCase_empty s)) in E. contradiction. }
    destruct (adapters !! toLowerCase s) as [cfg|] eqn:Hk.
    + destruct (setup_loop_origin _ _ _ _ _ Hloop Hk) as [Hempty | (key & Hin & Hlow)].
      * rewrite lookup_empty in Hempty. discriminate.
      * exfalso. apply Hnot. unfold normalized_keys. rewrite <- Hlow.
        apply (in_map (fun e => toLowerCase (fst e)) _ _ Hin).
    + now destruct (inherited (toLowerCase s)).
  - pose proof (setup_loop_accepts (default [] opts) ∅) as H.
    rewrite Hloop in H. setoid_rewrite js_in_empty in H.
    now apply H.
  - intros schema. simpl. unfold getAdapter.
    destruct (String.eqb _ ""); [reflexivity|].
    rewrite lookup_empty. now destruct (inherited _).
Qed.

End Client.

Arguments options {Options Adapter} _.
Arguments create {Options Adapter} _ _.
Arguments setup {Options Adapter} toLowerCase opts.
Arguments getAdapter {Options Adapter} toLowerCase g schema.

(** A configuration in the style of the test data model: two adapters,
    declared with mixed casing. *)
Definition sample_adapters : list (string * AdapterConfig nat string) :=
  [ ("JSON", {| options := 1; create := fun _ => "json-adapter" |});
    ("ipfs", {| options := 2; create := fun _ => "ipfs-adapter" |}) ].

Definition sample_global : Global nat string :=
  snd (setup ascii_toLowerCase (Some sample_adapters)).

Example setup_declared_twice :
  fst (setup ascii_toLowerCase
         (Some [ ("json", {| options := 1; create := fun _ : nat => "a" |});
                 ("JSON", {| options := 2; create := fun _ : nat => "b" |}) ]))
  = Throw (mkError PlainError "Adapter declared twice: json").
Proof. reflexivity. Qed.

Example getAdapter_unsupported :
  getAdapter ascii_toLowerCase sample_global (Some "bzz")
  = Throw (mkError PlainError "Unsupported data storage type: bzz")
  ∧ getAdapter ascii_toLowerCase sample_global None
    = Throw (mkError PlainError "Unsupported data storage type: null").
Proof. split; reflexivity. Qed.

Example getAdapter_inherited :
  getAdapter ascii_toLowerCase sample_global (Some "Constructor")
  = Throw (mkError TypeError "Object prototype may only be an Object or null: undefined")
  ∧ getAdapter ascii_toLowerCase sample_global (Some "__PROTO__")
    = Throw (mkError TypeError "adapter.create is not a function").
Proof. split; reflexivity. Qed.

Lemma getAdapter_case_insensitive_witness :
  getAdapter ascii_toLowerCase sample_global (Some "Json")
  = getAdapter ascii_toLowerCase sample_global (Some "jSON")
  ∧ getAdapter ascii_toLowerCase sample_global (Some "json") = Ok "json-adapter".
Proof.
  assert (Hs : setup ascii_toLowerCase (Some sample_adapters) = (Ok tt, sample_global))
    by reflexivity.
  destruct (getAdapter_case_insensitive nat string ascii_toLowerCase
              ascii_toLowerCase_empty _ _ Hs) as (H1 & _ & H3 & _).
  split.
  - apply H1. reflexivity.
  - apply (H3 "JSON" {| options := 1; create := fun _ => "json-adapter" |} "json").
    + simpl. left. reflexivity.
    + reflexivity.
    + discriminate.
Defined.

Lemma getAdapter_undeclared_witness :
  getAdapter ascii_toLowerCase sample_global (Some "BZZ") = Throw (unsupported "bzz")
  ∧ getAdapter ascii_toLowerCase sample_global (Some "Constructor")
    = Throw (not_an_adapter "constructor").
Proof.
  assert (Hs : setup ascii_toLowerCase (Some sample_adapters) = (Ok tt, sample_global))
    by reflexivity.
  destruct (getAdapter_undeclared nat string ascii_toLowerCase
              ascii_toLowerCase_empty _ _ Hs) as (_ & _ & H & _).
  split.
  - apply (H "BZZ").
    + discriminate.
    + simpl. intros [E|[E|[]]]; discriminate.
  - apply (H "Constructor").
    + discriminate.
    + simpl. intros [E|[E|[]]]; discriminate.
Defined.

End OffChainDataClient.

(** ** Computations

    An [async] function (or a synchronous method that may throw) over the
    state [S] of the object it belongs to.  State changes made before an
    exception is thrown persist, as in JavaScript. *)

Definition M (S A : Type) : Type := S → result A * S.

Definition ret {S A} (a : A) : M S A := fun s => (Ok a, s).

Definition throw {S A} (e : Error) : M S A := fun s => (Throw e, s).

Definition bind {S A B} (c : M S A) (k : A → M S B) : M S B :=
  fun s => match c s with
           | (Ok a, s') => k a s'
           | (Throw e, s') => (Throw e, s')
           end.

Definition gets {S A} (f : S → A) : M S A := fun s => (Ok (f s), s).

Definition modify {S} (f : S → S) : M S unit := fun s => (Ok tt, f s).

(** [c.catch (handler)] / [try { c } catch (err) { handler }] *)
Definition catch {S A} (c : M S A) (handler : Error → M S A) : M S A :=
  fun s => match c s with
           | (Ok a, s') => (Ok a, s')
           | (Throw e, s') => handler e s'
           end.

(** The value of a collaborator's call taken into the computation. *)
Definition lift {S A} (r : result A) : M S A := fun s => (r, s).

Notation "x <~ c1 ;; c2" := (bind c1 (fun x => c2))
  (at level 100, c1 at next level, right associativity).
Notation "c1 ;;; c2" := (bind c1 (fun _ => c2))
  (at level 100, right associativity).

(** [Promise.all (list.map (f))], the calls taken in list order. *)
Fixpoint mapM {S A B} (f : A → M S B) (l : list A) : M S (list B) :=
  match l with
  | [] => ret []
  | a :: rest => b <~ f a ;; bs <~ mapM f rest ;; ret (b :: bs)
  end.

(** *** Computations that keep a relation between the states

    [R] relates the state a computation starts in to a state it may leave. *)

Section Preservation.

Variable S : Type.
Variable R : S → S → Prop.
Hypothesis R_refl : ∀ s, R s s.
Hypothesis R_trans : ∀ s1 s2 s3, R s1 s2 → R s2 s3 → R s1 s3.

Definition preserves {A} (c : M S A) : Prop :=
  ∀ s r s', c s = (r, s') → R s s'.

Lemma preserves_ret {A} (a : A) : preserves (ret a).
Proof. intros s r s' H. inversion H. apply R_refl. Qed.

Lemma preserves_throw {A} (e : Error) : preserves (@throw S A e).
Proof. intros s r s' H. inversion H. apply R_refl. Qed.

Lemma preserves_lift {A} (x : result A) : preserves (@lift S A x).
Proof. intros s r s' H. inversion H. apply R_refl. Qed.

Lemma preserves_gets {A} (f : S → A) : preserves (gets f).
Proof. intros s r s' H. inversion H. apply R_refl. Qed.

Lemma preserves_modify (f : S → S) : (∀ s, R s (f s)) → preserves (modify f).
Proof. intros Hf s r s' H. inversion H. apply Hf. Qed.

Lemma preserves_bind {A B} (c : M S A) (k : A → M S B) :
  preserves c → (∀ a, preserves (k a)) → preserves (bind c k).
Proof.
  intros Hc Hk s r s' H. unfold bind in H.
  destruct (c s) as [[a|e] s1] eqn:E.
  - eapply R_trans; [eapply Hc; eauto | eapply Hk; eauto].
  - inversion H; subst. eapply Hc; eauto.
Qed.

Lemma preserves_catch {A} (c : M S A) (h : Error → M S A) :
  preserves c → (∀ e, preserves (h e)) → preserves (catch c h).
Proof.
  intros Hc Hh s r s' H. unfold catch in H.
  destruct (c s) as [[a|e] s1] eqn:E.
  - inversion H; subst. eapply Hc; eauto.
  - eapply R_trans; [eapply Hc; eauto | eapply Hh; eauto].
Qed.

Lemma preserves_mapM {A B} (f : A → M S B) (l : list A) :
  (∀ a, preserves (f a)) → preserves (mapM f l).
Proof.
  intros Hf. induction l as [|a l IH]; simpl.
  - apply preserves_ret.
  - apply preserves_bind; [apply Hf|]. intros b.
    apply preserves_bind; [exact IH|]. intros bs. apply preserves_ret.
Qed.

End Preservation.

(** [n] calls of [c] one after the other, whatever each of them returns. *)
Fixpoint repeatedly {S A} (n : nat) (c : M S A) (s : S) : S :=
  match n with
  | 0 => s
  | Datatypes.S n' => repeatedly n' c (snd (c s))
  end.

Lemma repeatedly_fixed {S A} (c : M S A) (s : S) n :
  snd (c s) = s → repeatedly n c s = s.
Proof. intros H. induction n as [|n IH]; simpl; [reflexivity|]. now rewrite H. Qed.

(** [list.filter (a => a != null)] *)
Fixpoint non_null {A} (l : list (option A)) : list A :=
  match l with
  | [] => []
  | Some a :: rest => a :: non_null rest
  | None :: rest => non_null rest
  end.

Lemma non_null_app {A} (l1 l2 : list (option A)) :
  non_null (l1 ++ l2) = non_null l1 ++ non_null l2.
Proof.
  induction l1 as [|[a|] l1 IH]; simpl; [reflexivity| |exact IH].
  now rewrite IH.
Qed.

(** ** [parseInt (s, 10)] *)

Definition is_digit (c : ascii) : bool :=
  let n := nat_of_ascii c in (48 <=? n)%nat && (n <=? 57)%nat.

(** The white space and the line terminators [parseInt] skips
    ([StrWhiteSpaceChar]), by the bytes of their UTF-8 form.  One byte: TAB,
    LF, VT, FF, CR and the space. *)
Definition is_space (c : ascii) : bool :=
  let n := nat_of_ascii c in
  (n =? 32)%nat || ((9 <=? n)%nat && (n <=? 13)%nat).

(** Two bytes: the no-break space U+00A0. *)
Definition is_space2 (c1 c2 : ascii) : bool :=
  (nat_of_ascii c1 =? 194)%nat && (nat_of_ascii c2 =? 160)%nat.

(** Three bytes: U+1680, U+2000 to U+200A, the line and paragraph
    separators U+2028 and U+2029, U+202F, U+205F, U+3000 and the byte order
    mark U+FEFF. *)
Definition is_space3 (c1 c2 c3 : ascii) : bool :=
  let n1 := nat_of_ascii c1 in
  let n2 := nat_of_ascii c2 in
  let n3 := nat_of_ascii c3 in
  ((n1 =? 225) && (n2 =? 154) && (n3 =? 128))%nat
  || ((n1 =? 226) && (n2 =? 128)
      && (((128 <=? n3) && (n3 <=? 138)) || (n3 =? 168) || (n3 =? 169) || (n3 =? 175)))%nat
  || ((n1 =? 226) && (n2 =? 129) && (n3 =? 159))%nat
  || ((n1 =? 227) && (n2 =? 128) && (n3 =? 128))%nat
  || ((n1 =? 239) && (n2 =? 187) && (n3 =? 191))%nat.

Fixpoint skip_spaces (s : string) : string :=
  match s with
  | String c1 rest1 =>
      if is_space c1 then skip_spaces rest1
      else
        match rest1 with
        | String c2 rest2 =>
            if is_space2 c1 c2 then skip_spaces rest2
            else
              match rest2 with
              | String c3 rest3 =>
                  if is_space3 c1 c2 c3 then skip_spaces rest3 else s
              | EmptyString => s
              end
        | EmptyString => s
        end
  | EmptyString => EmptyString
  end.

(** The value of the longest prefix of decimal digits, given the value [acc]
    of the digits read so far. *)
Fixpoint leading_digits (s : string) (acc : Z) : Z :=
  match s with
  | String c rest =>
      if is_digit c
      then leading_digits rest (10 * acc + Z.of_nat (nat_of_ascii c - 48))
      else acc
  | EmptyString => acc
  end.

Definition starts_with_digit (s : string) : bool :=
  match s with String c _ => is_digit c | EmptyString => false end.

(** [parseInt (s, 10)]: leading white space is skipped, a sign is read, and
    the digits up to the first character that is none are the number;
    [None] is [NaN].  The result is the integer the digits denote; the
    number [parseInt] returns is the double nearest to it, which is zero
    exactly when the integer is, and the callers test it for being falsy
    only. *)
Definition parseInt10 (s : string) : option Z :=
  let s := skip_spaces s in
  let '(negative, s) :=
    match s with
    | String "-" rest => (true, rest)
    | String "+" rest => (false, rest)
    | _ => (false, s)
    end in
  if starts_with_digit s
  then Some (if negative then (- leading_digits s 0)%Z else leading_digits s 0)
  else None.

(** [!n] for a number: [NaN] and zero are falsy. *)
Definition number_falsy (n : option Z) : bool :=
  match n with None => true | Some z => (z =? 0)%Z end.

Example parseInt10_hotel_slot : parseInt10 "2" = Some 2%Z.
Proof. reflexivity. Qed.

Example parseInt10_not_a_number : parseInt10 "0x" = Some 0%Z ∧ parseInt10 "" = None.
Proof. split; reflexivity. Qed.

(** A no-break space, a byte order mark and a line feed before the digits. *)
Example parseInt10_white_space :
  parseInt10 (String (ascii_of_nat 194) (String (ascii_of_nat 160) "5")) = Some 5%Z
  ∧ parseInt10 (String (ascii_of_nat 239) (String (ascii_of_nat 187)
                  (String (ascii_of_nat 191) (String (ascii_of_nat 10) "-12abc"))))
    = Some (-12)%Z
  ∧ parseInt10 (String (ascii_of_nat 194) "5") = None.
Proof. repeat split. Qed.

(** ** [Web3UriWTIndexDataProvider] (src/data-model/web3-uri/wt-index.js) *)

Module WTIndex.

(** What the provider asks of the network, in the order it asks. *)
Inductive Event : Type :=
| GetIndexInstance (indexAddress : string)
| CallGetHotels
| CallHotelsIndex (hotel : string)
| GetHotelInstance (hotel : string).

Record Provider : Type :=
  { address : string;
    (* [deployedIndex]: a handle of the index contract, once instantiated *)
    deployedIndex : option nat }.

Record State : Type := { provider : Provider; trace : list Event }.

Definition emit (e : Event) : M State unit :=
  modify (fun s => {| provider := provider s; trace := trace s ++ [e] |}).

Definition set_deployedIndex (i : nat) : M State unit :=
  modify (fun s => {| provider := {| address := address (provider s);
                                     deployedIndex := Some i |};
                      trace := trace s |}).

(** The hotel addresses [getHotel] was attempted on: it asks the index
    contract for the slot of the hotel first. *)
Definition attempted (tr : list Event) : list string :=
  non_null (map (fun e => match e with CallHotelsIndex a => Some a | _ => None end) tr).

Section Provider.

(** The hotel wrappers the factory hands out. *)
Variable HotelT : Type.

(** The collaborators: [web3Utils.isZeroAddress],
    [web3Contracts.getIndexInstance], the two calls of the index contract
    ([hotelsIndex] returns strings) and [hotelProviderFactory.getHotelInstance]
    ([None] for a [null] result).  Each answers by its arguments. *)
Variable isZeroAddress : string → bool.
Variable getIndexInstance : string → result nat.
Variable call_getHotels : nat → result (list string).
Variable call_hotelsIndex : nat → string → result string.
Variable getHotelInstance : nat → string → result (option HotelT).

Definition __getDeployedIndex : M State nat :=
  cached <~ gets (fun s => deployedIndex (provider s)) ;;
  match cached with
  | Some index => ret index
  | None =>
      a <~ gets (fun s => address (provider s)) ;;
      emit (GetIndexInstance a) ;;;
      index <~ lift (getIndexInstance a) ;;
      set_deployedIndex index ;;;
      ret index
  end.

Definition __createHotelInstance (addr : string) : M State (option HotelT) :=
  index <~ __getDeployedIndex ;;
  emit (GetHotelInstance addr) ;;;
  lift (getHotelInstance index addr).

Definition cannot_find (addr : string) (cause : string) : Error :=
  mkError PlainError ("Cannot find hotel at " ++ addr ++ ": " ++ cause).

(** [getHotel (address)].  The promise of [__createHotelInstance] is returned
    from inside the [try] without being awaited there, so its rejection is
    the rejection of [getHotel] as it is. *)
Definition getHotel (addr : string) : M State (option HotelT) :=
  index <~ __getDeployedIndex ;;
  proceed <~ catch
    (emit (CallHotelsIndex addr) ;;;
     slot <~ lift (call_hotelsIndex index addr) ;;
     let hotelIndex := parseInt10 slot in
     if number_falsy hotelIndex
     then throw (mkError PlainError "Not found in hotel list")
     else ret tt)
    (fun err => throw (cannot_find addr (message err))) ;;
  __createHotelInstance addr.

(** [getHotel (addr).catch (() => null)] *)
Definition getHotel_or_null (addr : string) : M State (option HotelT) :=
  catch (getHotel addr) (fun _ => ret None).

(** [getAllHotels ()].  The promises of [getHotel] are made one after the
    other and awaited together, so in a run every [hotelsIndex] call is
    made before the first answer is in, and the factory is asked after
    that.  Here the requests of one hotel are recorded together, hotel by
    hotel.  The collaborators answer by their arguments, so the list that
    is returned, the addresses asked for and their order are those of the
    run; the order between the requests of different hotels is not. *)
Definition getAllHotels : M State (list HotelT) :=
  index <~ __getDeployedIndex ;;
  hotelsAddressList <~ lift (call_getHotels index) ;;
  let getHotelDetails :=
    mapM getHotel_or_null
         (List.filter (fun addr => negb (isZeroAddress addr)) hotelsAddressList) in
  hotelDetails <~ getHotelDetails ;;
  let hotelList := non_null hotelDetails in
  ret hotelList.

(** The hotel at [addr], when [getHotel] can produce one on the index
    contract [index]. *)
Definition accessible (index : nat) (addr : string) : option HotelT :=
  match call_hotelsIndex index addr with
  | Ok slot =>
      if number_falsy (parseInt10 slot) then None
      else match getHotelInstance index addr with
           | Ok h => h
           | Throw _ => None
           end
  | Throw _ => None
  end.

Definition with_index (s : State) (index : nat) : Prop :=
  deployedIndex (provider s) = Some index.

Lemma getDeployedIndex_cached s index :
  with_index s index → __getDeployedIndex s = (Ok index, s).
Proof.
  unfold with_index, __getDeployedIndex, bind, gets. intros ->. reflexivity.
Qed.

(** One guarded [getHotel]: it never rejects, yields the accessible hotel or
    [null], records one attempt, and keeps the index. *)
Lemma getHotel_or_null_spec s index addr :
  with_index s index →
  ∃ s', getHotel_or_null addr s = (Ok (accessible index addr), s')
        ∧ with_index s' index
        ∧ attempted (trace s') = attempted (trace s) ++ [addr].
Proof.
  intros Hidx. destruct s as [[a d] tr]. unfold with_index in Hidx. simpl in Hidx. subst d.
  unfold getHotel_or_null, getHotel, __createHotelInstance, __getDeployedIndex,
    accessible, catch, bind, gets, emit, modify, lift, throw, ret, with_index, attempted.
  simpl.
  destruct (call_hotelsIndex index addr) as [slot|e]; simpl.
  - destruct (number_falsy (parseInt10 slot)); simpl.
    + eexists; split; [reflexivity|]. split; [reflexivity|].
      simpl. rewrite map_app, non_null_app. reflexivity.
    + destruct (getHotelInstance index addr) as [h|e]; simpl;
        (eexists; split; [reflexivity|]; split; [reflexivity|]);
        simpl; rewrite !map_app, !non_null_app; simpl; now rewrite app_nil_r.
  - eexists; split; [reflexivity|]. split; [reflexivity|].
    simpl. rewrite map_app, non_null_app. reflexivity.
Qed.

Lemma mapM_getHotel_or_null index addrs : ∀ s,
  with_index s index →
  ∃ s', mapM getHotel_or_null addrs s = (Ok (map (accessible index) addrs), s')
        ∧ with_index s' index
        ∧ attempted (trace s') = attempted (trace s) ++ addrs.
Proof.
  induction addrs as [|a rest IH]; intros s Hidx; simpl.
  - exists s. unfold ret. rewrite app_nil_r. auto.
  - destruct (getHotel_or_null_spec s index a Hidx) as (s1 & H1 & Hidx1 & Htr1).
    destruct (IH s1 Hidx1) as (s2 & H2 & Hidx2 & Htr2).
    exists s2. unfold bind. rewrite H1, H2. unfold ret.
    split; [reflexivity|]. split; [exact Hidx2|].
    rewrite Htr2, Htr1, <- app_assoc. reflexivity.
Qed.

Lemma getDeployedIndex_ok s index :
  fst (__getDeployedIndex s) = Ok index →
  ∃ s1, __getDeployedIndex s = (Ok index, s1)
        ∧ with_index s1 index
        ∧ attempted (trace s1) = attempted (trace s).
Proof.
  destruct s as [[a [d|]] tr];
    unfold __getDeployedIndex, with_index, attempted, bind, gets, emit, modify,
      lift, set_deployedIndex, ret; simpl.
  - intros H. inversion H; subst. eexists. repeat split.
  - destruct (getIndexInstance a) as [i|e]; simpl; [|discriminate].
    intros H. inversion H; subst. eexists. split; [reflexivity|]. split; [reflexivity|].
    simpl. rewrite map_app, non_null_app. simpl. now rewrite app_nil_r.
Qed.

(** C9. Whenever the index contract is at hand (instantiated earlier, or
    instantiated now without failure) and its [getHotels] call succeeds with
    [addrs], [getAllHotels] resolves.  Its list is, in the order of [addrs],
    the hotels of the non-zero addresses that [getHotel] can produce; an
    address whose [getHotel] rejects contributes nothing; and [getHotel] was
    attempted on the non-zero addresses only. *)
Theorem getAllHotels_resolves (s : State) (index : nat) (addrs : list string) :
  fst (__getDeployedIndex s) = Ok index →
  call_getHotels index = Ok addrs →
  let nonzero := List.filter (fun a => negb (isZeroAddress a)) addrs in
  ∃ s', getAllHotels s = (Ok (non_null (map (accessible index) nonzero)), s')
        ∧ attempted (trace s') = attempted (trace s) ++ nonzero
        ∧ (∀ a, In a nonzero →
             fst (getHotel a s') = Ok (accessible index a) ∨
             (is_ok (fst (getHotel a s')) = false ∧ accessible index a = None)).
Proof.
  intros Hidx Hcall nonzero.
  destruct (getDeployedIndex_ok s index Hidx) as (s1 & Hget & Hidx1 & Htr1).
  destruct (mapM_getHotel_or_null index nonzero s1 Hidx1) as (s' & Hmap & Hidx' & Htr).
  exists s'. split; [|split].
  - unfold getAllHotels, bind. rewrite Hget.
    unfold lift. rewrite Hcall. fold nonzero. rewrite Hmap. reflexivity.
  - now rewrite Htr, Htr1.
  - intros a _. destruct s' as [[ad d] tr]. unfold with_index in Hidx'. simpl in Hidx'. subst d.
    unfold getHotel, __createHotelInstance, __getDeployedIndex, accessible,
      catch, bind, gets, emit, modify, lift, throw, ret. simpl.
    destruct (call_hotelsIndex index a) as [slot|e]; simpl.
    + destruct (number_falsy (parseInt10 slot)); simpl; [right; auto|].
      destruct (getHotelInstance index a) as [h|e]; simpl; [left; auto | right; auto].
    + right; auto.
Qed.

(** *** [getHotel] on its own *)

Definition not_found : string := "Not found in hotel list".

(** [getHotel] with the index contract at hand.  When the contract's
    [hotelsIndex] call fails, or answers with a slot that reads as zero or
    as no number, [getHotel] rejects with an error that names the address
    and the cause, and the hotel factory is not asked: the one request made
    is the [hotelsIndex] call.  For any other slot the outcome is the
    factory's, a failure of the factory as it is. *)
Theorem getHotel_unlisted (s : State) (index : nat) (addr : string) :
  with_index s index →
  (∀ e, call_hotelsIndex index addr = Throw e →
     getHotel addr s
     = (Throw (cannot_find addr (message e)),
        {| provider := provider s; trace := trace s ++ [CallHotelsIndex addr] |}))
  ∧ (∀ slot, call_hotelsIndex index addr = Ok slot →
       number_falsy (parseInt10 slot) = true →
       getHotel addr s
       = (Throw (cannot_find addr not_found),
          {| provider := provider s; trace := trace s ++ [CallHotelsIndex addr] |}))
  ∧ (∀ slot, call_hotelsIndex index addr = Ok slot →
       number_falsy (parseInt10 slot) = false →
       getHotel addr s
       = (getHotelInstance index addr,
          {| provider := provider s;
             trace := trace s ++ [CallHotelsIndex addr; GetHotelInstance addr] |})).
Proof.
  intros Hidx. destruct s as [[a d] tr]. unfold with_index in Hidx. simpl in Hidx. subst d.
  unfold getHotel, __createHotelInstance, __getDeployedIndex,
    catch, bind, gets, emit, modify, lift, throw, ret. simpl.
  split; [|split].
  - intros e ->. reflexivity.
  - intros slot -> ->. reflexivity.
  - intros slot -> ->. simpl. rewrite <- app_assoc. simpl.
    now destruct (getHotelInstance index addr).
Qed.

(** *** The index contract is instantiated once *)

Definition index_requests (tr : list Event) : nat :=
  length (List.filter (fun e => match e with GetIndexInstance _ => true | _ => false end) tr).

Lemma index_requests_app tr1 tr2 :
  index_requests (tr1 ++ tr2) = index_requests tr1 + index_requests tr2.
Proof. unfold index_requests. now rewrite List.filter_app, length_app. Qed.

(** With the index at hand, a step keeps it and asks for no other. *)
Definition keeps_index (s s' : State) : Prop :=
  ∀ index, with_index s index →
    with_index s' index ∧ index_requests (trace s') = index_requests (trace s).

Lemma keeps_index_refl s : keeps_index s s.
Proof. intros index H. auto. Qed.

Lemma keeps_index_trans s1 s2 s3 :
  keeps_index s1 s2 → keeps_index s2 s3 → keeps_index s1 s3.
Proof.
  intros H12 H23 index H1. destruct (H12 _ H1) as [H2 E12].
  destruct (H23 _ H2) as [H3 E23]. split; [exact H3 | congruence].
Qed.

Lemma keeps_index_emit e :
  (∀ a, e ≠ GetIndexInstance a) → preserves State keeps_index (emit e).
Proof.
  intros He. apply preserves_modify. intros s index H. split; [exact H|].
  simpl. rewrite index_requests_app. unfold index_requests at 2. simpl.
  destruct e; simpl; try lia. exfalso. now apply (He indexAddress).
Qed.

Lemma keeps_index_getDeployedIndex : preserves State keeps_index __getDeployedIndex.
Proof.
  intros s r s' H index Hidx. rewrite (getDeployedIndex_cached s index Hidx) in H.
  inversion H; subst. auto.
Qed.

Ltac keeps_index_step :=
  first [ exact keeps_index_trans
        | apply preserves_ret, keeps_index_refl
        | apply preserves_throw, keeps_index_refl
        | apply preserves_lift, keeps_index_refl
        | exact keeps_index_getDeployedIndex
        | apply keeps_index_emit; discriminate ].

Ltac keeps_index_bind :=
  apply preserves_bind; [exact keeps_index_trans | try keeps_index_step | intros ?].

(** The part of [getHotel] that follows [__getDeployedIndex]. *)
Lemma keeps_index_lookup addr index :
  preserves State keeps_index
    (proceed <~ catch
       (emit (CallHotelsIndex addr) ;;;
        slot <~ lift (call_hotelsIndex index addr) ;;
        let hotelIndex := parseInt10 slot in
        if number_falsy hotelIndex
        then throw (mkError PlainError "Not found in hotel list")
        else ret tt)
       (fun err => throw (cannot_find addr (message err))) ;;
     __createHotelInstance addr).
Proof.
  keeps_index_bind.
  - apply preserves_catch; [exact keeps_index_trans | | intros e; keeps_index_step].
    keeps_index_bind. keeps_index_bind. simpl.
    destruct (number_falsy _); keeps_index_step.
  - unfold __createHotelInstance. keeps_index_bind. keeps_index_bind. keeps_index_step.
Qed.

Lemma keeps_index_getHotel addr : preserves State keeps_index (getHotel addr).
Proof.
  unfold getHotel. keeps_index_bind. apply keeps_index_lookup.
Qed.

(** The part of [getAllHotels] that follows [__getDeployedIndex]. *)
Lemma keeps_index_listing index :
  preserves State keeps_index
    (hotelsAddressList <~ lift (call_getHotels index) ;;
     hotelDetails <~ mapM getHotel_or_null
       (List.filter (fun addr => negb (isZeroAddress addr)) hotelsAddressList) ;;
     ret (non_null hotelDetails)).
Proof.
  keeps_index_bind. keeps_index_bind; [|keeps_index_step].
  apply preserves_mapM; [exact keeps_index_refl | exact keeps_index_trans |].
  intros hotelAddr. unfold getHotel_or_null.
  apply preserves_catch; [exact keeps_index_trans | apply keeps_index_getHotel |].
  intros e. keeps_index_step.
Qed.

Lemma keeps_index_getAllHotels : preserves State keeps_index getAllHotels.
Proof.
  unfold getAllHotels. keeps_index_bind. apply keeps_index_listing.
Qed.

(** The queries of the provider, run one after the other whatever each of
    them returns. *)
Inductive Query : Type :=
| QueryHotel (addr : string)
| QueryAllHotels.

Definition query (q : Query) (s : State) : State :=
  match q with
  | QueryHotel addr => snd (getHotel addr s)
  | QueryAllHotels => snd (getAllHotels s)
  end.

Lemma keeps_index_query q s : keeps_index s (query q s).
Proof.
  destruct q as [addr|]; simpl.
  - destruct (getHotel addr s) as [r s'] eqn:E. eapply keeps_index_getHotel; eauto.
  - destruct (getAllHotels s) as [r s'] eqn:E. eapply keeps_index_getAllHotels; eauto.
Qed.

Lemma query_first q s :
  (index_requests (trace (query q s)) ≤ index_requests (trace s) + 1)%nat.
Proof.
  destruct (deployedIndex (provider s)) as [index|] eqn:Ed.
  - destruct (keeps_index_query q s index Ed) as [_ ->]. lia.
  - destruct s as [[a d] tr]. simpl in Ed. subst d.
    destruct (getIndexInstance a) as [index|e] eqn:Ei.
    + set (s1 := {| provider := {| address := a; deployedIndex := Some index |};
                    trace := tr ++ [GetIndexInstance a] |}).
      assert (H1 : __getDeployedIndex {| provider := {| address := a; deployedIndex := None |};
                                         trace := tr |} = (Ok index, s1)).
      { unfold __getDeployedIndex, bind, gets, emit, modify, lift, set_deployedIndex, ret.
        simpl. now rewrite Ei. }
      assert (Hs1 : index_requests (trace s1) = index_requests tr + 1).
      { unfold s1. simpl. now rewrite index_requests_app. }
      assert (Hidx : with_index s1 index) by reflexivity.
      destruct q as [addr|]; simpl.
      * unfold getHotel. unfold bind at 1. rewrite H1.
        match goal with |- context [trace (snd (?c s1))] =>
          destruct (c s1) as [r s'] eqn:E end.
        simpl. apply keeps_index_lookup in E. destruct (E _ Hidx) as [_ ->]. lia.
      * unfold getAllHotels. unfold bind at 1. rewrite H1.
        match goal with |- context [trace (snd (?c s1))] =>
          destruct (c s1) as [r s'] eqn:E end.
        simpl. apply keeps_index_listing in E. destruct (E _ Hidx) as [_ ->]. lia.
    + destruct q as [addr|]; simpl;
        unfold getHotel, getAllHotels, __getDeployedIndex, bind, gets, emit, modify,
          lift, set_deployedIndex, ret; simpl; rewrite Ei; simpl;
        rewrite index_requests_app; unfold index_requests at 2; simpl; lia.
Qed.

(** The index contract is instantiated at most once by a query, and never
    again once the provider holds it: whatever [getHotel] and [getAllHotels]
    calls follow, they use the instance the provider has and ask the
    contract factory for no other. *)
Theorem index_instantiated_once (s : State) :
  (∀ q, (index_requests (trace (query q s)) ≤ index_requests (trace s) + 1)%nat)
  ∧ (∀ index qs, with_index s index →
       with_index (fold_left (fun st q => query q st) qs s) index
       ∧ index_requests (trace (fold_left (fun st q => query q st) qs s))
         = index_requests (trace s)).
Proof.
  split; [intros q; apply query_first|].
  intros index qs. revert s. induction qs as [|q qs IH]; intros s Hidx; simpl; [auto|].
  destruct (keeps_index_query q s index Hidx) as [H1 E1].
  destruct (IH _ H1) as [H2 E2]. split; [exact H2 | congruence].
Qed.

(** *** [addHotel], [updateHotel], [removeHotel]

    The three operations drive a hotel wrapper through the
    [RemoteHotelInterface]: its methods and its two awaited properties are
    collaborators here, like the index contract above, and [hotelData] is
    known by its [manager]. *)

Variables (Wallet HotelData : Type).
Variable manager_of : HotelData → Val.
(** [hotelProviderFactory.getHotelInstance (index)], without an address *)
Variable newHotelInstance : nat → result (option HotelT).
Variable hotel_setLocalData : HotelT → HotelData → result unit.
(** [hotel.createOnNetwork (wallet, {from, to})], and the like *)
Variable hotel_createOnNetwork : HotelT → Wallet → Val → string → result (list string).
Variable hotel_updateOnNetwork : HotelT → Wallet → Val → string → result (list string).
Variable hotel_removeFromNetwork : HotelT → Wallet → Val → string → result (list string).
Variable hotel_address : HotelT → result Val.
Variable hotel_manager : HotelT → result Val.

(** [AddHotelResponseInterface] *)
Record AddHotelResponse : Type :=
  { response_address : Val; transactionIds : list string }.

(** [__createHotelInstance ()] *)
Definition __createNewHotelInstance : M State (option HotelT) :=
  index <~ __getDeployedIndex ;;
  lift (newHotelInstance index).

Definition addHotel (wallet : Wallet) (hotelData : HotelData) : M State AddHotelResponse :=
  catch
    (created <~ __createNewHotelInstance ;;
     match created with
     | None => throw (mkError TypeError "Cannot read property 'setLocalData' of null")
     | Some hotel =>
         lift (hotel_setLocalData hotel hotelData) ;;;
         this_address <~ gets (fun s => address (provider s)) ;;
         ids <~ lift (hotel_createOnNetwork hotel wallet (manager_of hotelData) this_address) ;;
         a <~ lift (hotel_address hotel) ;;
         ret {| response_address := a; transactionIds := ids |}
     end)
    (fun err => throw (mkError PlainError ("Cannot add hotel: " ++ message err))).

Definition updateHotel (wallet : Wallet) (hotel : HotelT) : M State (list string) :=
  catch
    (from <~ lift (hotel_manager hotel) ;;
     this_address <~ gets (fun s => address (provider s)) ;;
     lift (hotel_updateOnNetwork hotel wallet from this_address))
    (fun err => throw (mkError PlainError ("Cannot update hotel:" ++ message err))).

Definition removeHotel (wallet : Wallet) (hotel : HotelT) : M State (list string) :=
  catch
    (from <~ lift (hotel_manager hotel) ;;
     this_address <~ gets (fun s => address (provider s)) ;;
     lift (hotel_removeFromNetwork hotel wallet from this_address))
    (fun err => throw (mkError PlainError ("Cannot remove hotel: " ++ message err))).

(** Whatever goes wrong in [addHotel], [updateHotel] or [removeHotel] (the
    index contract, the hotel factory, the hotel's own methods or its
    [manager]), the caller gets a plain error whose message starts with the
    prefix of the operation; and when [addHotel] succeeds, the hotel took
    the data, was created on the network from [hotelData.manager] to the
    index address, and the response carries its transaction ids and its
    address. *)
Theorem index_operations_wrap_errors (wallet : Wallet) (s : State) :
  (∀ hotelData e s', addHotel wallet hotelData s = (Throw e, s') →
     kind e = PlainError ∧ ∃ cause, message e = ("Cannot add hotel: " ++ cause)%string)
  ∧ (∀ hotel e s', updateHotel wallet hotel s = (Throw e, s') →
       kind e = PlainError ∧ ∃ cause, message e = ("Cannot update hotel:" ++ cause)%string)
  ∧ (∀ hotel e s', removeHotel wallet hotel s = (Throw e, s') →
       kind e = PlainError ∧ ∃ cause, message e = ("Cannot remove hotel: " ++ cause)%string)
  ∧ (∀ hotelData r s', addHotel wallet hotelData s = (Ok r, s') →
       ∃ index hotel,
         with_index s' index
         ∧ newHotelInstance index = Ok (Some hotel)
         ∧ hotel_setLocalData hotel hotelData = Ok tt
         ∧ hotel_createOnNetwork hotel wallet (manager_of hotelData) (address (provider s))
           = Ok (transactionIds r)
         ∧ hotel_address hotel = Ok (response_address r)).
Proof.
  split; [|split; [|split]].
  - intros hotelData e s'. unfold addHotel, catch.
    match goal with |- context [match ?c s with _ => _ end] => destruct (c s) as [[r|e0] s0] end.
    + discriminate.
    + unfold throw. intros H. inversion H; subst. simpl. eauto.
  - intros hotel e s'. unfold updateHotel, catch.
    match goal with |- context [match ?c s with _ => _ end] => destruct (c s) as [[r|e0] s0] end.
    + discriminate.
    + unfold throw. intros H. inversion H; subst. simpl. eauto.
  - intros hotel e s'. unfold removeHotel, catch.
    match goal with |- context [match ?c s with _ => _ end] => destruct (c s) as [[r|e0] s0] end.
    + discriminate.
    + unfold throw. intros H. inversion H; subst. simpl. eauto.
  - intros hotelData r s'. unfold addHotel, catch, __createNewHotelInstance.
    unfold bind at 1. unfold bind at 1.
    destruct (__getDeployedIndex s) as [[index|e0] s0] eqn:Ei; [|unfold throw; discriminate].
    assert (Ha : address (provider s0) = address (provider s)).
    { revert Ei. destruct s as [[a [d|]] tr];
        unfold __getDeployedIndex, bind, gets, emit, modify, lift, set_deployedIndex, ret; simpl.
      - intros H. now inversion H.
      - destruct (getIndexInstance a); simpl; intros H; inversion H; reflexivity. }
    assert (Hidx : with_index s0 index).
    { destruct (getDeployedIndex_ok s index) as (s1 & H1 & Hw & _); [now rewrite Ei|].
      rewrite Ei in H1. inversion H1; subst. exact Hw. }
    unfold lift at 1.
    destruct (newHotelInstance index) as [[hotel|]|e0] eqn:En; simpl;
      [|unfold throw; discriminate|unfold throw; discriminate].
    unfold bind, lift, gets, ret, throw.
    destruct (hotel_setLocalData hotel hotelData) as [[]|e1] eqn:Es; [|discriminate].
    rewrite Ha.
    destruct (hotel_createOnNetwork hotel wallet (manager_of hotelData) (address (provider s)))
      as [ids|e2] eqn:Ec; [|discriminate].
    destruct (hotel_address hotel) as [a|e3] eqn:Ead; [|discriminate].
    intros H. inversion H; subst. simpl. exists index, hotel. auto.
Qed.

End Provider.

(** A small network: an index with four slots, one of them zeroed by a
    removal, one whose contract call fails and one no longer listed. *)
Definition sample_isZero (a : string) : bool := String.eqb a "0x0".

Definition sample_getIndexInstance (a : string) : result nat := Ok 7.

Definition sample_getHotels (index : nat) : result (list string) :=
  Ok ["0xa"; "0x0"; "0xb"; "0xc"; "0xd"].

Definition sample_hotelsIndex (index : nat) (a : string) : result string :=
  if String.eqb a "0xb" then Throw (mkError PlainError "invalid opcode")
  else if String.eqb a "0xc" then Ok "0"
  else Ok "3".

Definition sample_getHotelInstance (index : nat) (a : string) : result (option string) :=
  Ok (Some ("hotel@" ++ a)%string).

Definition sample_state : State :=
  {| provider := {| address := "0xindex"; deployedIndex := None |}; trace := [] |}.

Lemma getAllHotels_resolves_witness :
  fst (getAllHotels string sample_isZero sample_getIndexInstance sample_getHotels
         sample_hotelsIndex sample_getHotelInstance sample_state)
  = Ok ["hotel@0xa"; "hotel@0xd"].
Proof.
  destruct (getAllHotels_resolves string sample_isZero sample_getIndexInstance
              sample_getHotels sample_hotelsIndex sample_getHotelInstance
              sample_state 7 ["0xa"; "0x0"; "0xb"; "0xc"; "0xd"]
              eq_refl eq_refl) as (s' & H & _).
  rewrite H. reflexivity.
Defined.

(** The same provider once it holds the index contract. *)
Definition sample_with_index : State :=
  {| provider := {| address := "0xindex"; deployedIndex := Some 7 |}; trace := [] |}.

Lemma getHotel_unlisted_witness :
  fst (getHotel string sample_getIndexInstance sample_hotelsIndex sample_getHotelInstance
         "0xc" sample_with_index)
  = Throw (cannot_find "0xc" not_found)
  ∧ fst (getHotel string sample_getIndexInstance sample_hotelsIndex sample_getHotelInstance
           "0xb" sample_with_index)
    = Throw (cannot_find "0xb" "invalid opcode").
Proof.
  destruct (getHotel_unlisted string sample_getIndexInstance sample_hotelsIndex
              sample_getHotelInstance sample_with_index 7 "0xc" eq_refl) as (_ & Hc & _).
  destruct (getHotel_unlisted string sample_getIndexInstance sample_hotelsIndex
              sample_getHotelInstance sample_with_index 7 "0xb" eq_refl) as (Hb & _).
  split.
  - exact (f_equal fst (Hc "0" eq_refl eq_refl)).
  - exact (f_equal fst (Hb (mkError PlainError "invalid opcode") eq_refl)).
Defined.

End WTIndex.

(** ** The contract [Parent] (Solidity, in src/data-model/web3-uri/wt-index.js)

    The list of children with its index, as the index contract keeps its
    hotels: slot zero is reserved, a removal leaves an empty slot. *)

Module Parent.

Local Open Scope Z_scope.

(** [uint] is [uint256]; an [address] is a 160-bit number. *)
Definition uint_modulus : Z := 2 ^ 256.

Definition wrap (x : Z) : Z := x mod uint_modulus.

(** The storage of the contract: the mapping [childsIndex] (a key that was
    never written reads as zero) and the dynamic array [childs], its length
    and its elements (an element that was never written is zero). *)
Record Contract : Type :=
  { childsIndex : gmap Z Z;
    childs_length : Z;
    childs : gmap Z Z }.

(** [childsIndex[c]] *)
Definition index_of (st : Contract) (c : Z) : Z := default 0 (childsIndex st !! c).

(** The element of [childs] at a position below its length. *)
Definition slot (st : Contract) (i : Z) : Z := default 0 (childs st !! i).

(** [function Parent ()]: [childs.length ++] on the empty storage. *)
Definition constructor : Contract :=
  {| childsIndex := ∅; childs_length := wrap (0 + 1); childs := ∅ |}.

(** [modifier onlyChild ()] for [msg.sender]: does the body run? *)
Definition onlyChild (sender : Z) (st : Contract) : bool :=
  negb (index_of st sender =? 0).

(** [addChild (_child)]: the index is the length before the push. *)
Definition addChild (_child : Z) (st : Contract) : Contract :=
  {| childsIndex := <[_child := childs_length st]> (childsIndex st);
     childs_length := wrap (childs_length st + 1);
     childs := <[childs_length st := _child]> (childs st) |}.

(** [removeChild (_child)]: [None] when the access to [childs] is out of
    bounds and the call throws. *)
Definition removeChild (_child : Z) (st : Contract) : option Contract :=
  let i := index_of st _child in
  if i <? childs_length st then
    Some {| childsIndex := delete _child (childsIndex st);
            childs_length := childs_length st;
            childs := delete i (childs st) |}
  else None.

(** [getChildsLength ()] *)
Definition getChildsLength (st : Contract) : Z := childs_length st.

(** The getter of the public array, [childs (i)]: [None] when it throws. *)
Definition childs_at (st : Contract) (i : Z) : option Z :=
  if (0 <=? i) && (i <? childs_length st) then Some (slot st i) else None.

(** The calls a deriving contract makes, one per transaction; a call that
    throws leaves the storage as it was. *)
Inductive Call : Type :=
| AddChild (_child : Z)
| RemoveChild (_child : Z).

Definition execute (call : Call) (st : Contract) : option Contract :=
  match call with
  | AddChild c => Some (addChild c st)
  | RemoveChild c => removeChild c st
  end.

Definition transact (st : Contract) (call : Call) : Contract :=
  default st (execute call st).

Definition after (calls : list Call) : Contract := fold_left transact calls constructor.

Definition additions (calls : list Call) : nat :=
  length (List.filter (fun c => match c with AddChild _ => true | _ => false end) calls).

(** What the storage keeps: slot zero stays reserved, and the index of a
    registered child points at the slot that holds it. *)
Record well_formed (st : Contract) : Prop :=
  { wf_length : 1 ≤ childs_length st < uint_modulus;
    wf_reserved : slot st 0 = 0;
    wf_index : ∀ c, index_of st c ≠ 0 →
                 0 < index_of st c < childs_length st ∧ slot st (index_of st c) = c }.

Lemma wrap_small x : 0 ≤ x < uint_modulus → wrap x = x.
Proof. intros H. unfold wrap. now apply Z.mod_small. Qed.

Lemma index_of_addChild c st c' :
  index_of (addChild c st) c' = if decide (c' = c) then childs_length st else index_of st c'.
Proof.
  unfold index_of, addChild. simpl. destruct (decide (c' = c)) as [->|Hne].
  - now rewrite lookup_insert_eq.
  - now rewrite lookup_insert_ne by congruence.
Qed.

Lemma slot_addChild c st i :
  slot (addChild c st) i = if decide (i = childs_length st) then c else slot st i.
Proof.
  unfold slot, addChild. simpl. destruct (decide (i = childs_length st)) as [->|Hne].
  - now rewrite lookup_insert_eq.
  - now rewrite lookup_insert_ne by congruence.
Qed.

Lemma removeChild_in_bounds c st :
  well_formed st →
  removeChild c st = Some {| childsIndex := delete c (childsIndex st);
                             childs_length := childs_length st;
                             childs := delete (index_of st c) (childs st) |}.
Proof.
  intros [Hl _ Hi]. unfold removeChild.
  destruct (Z.ltb_spec (index_of st c) (childs_length st)) as [_|Hge]; [reflexivity|].
  destruct (decide (index_of st c = 0)) as [E|Hne]; [lia|].
  destruct (Hi c Hne). lia.
Qed.

Lemma well_formed_constructor : well_formed constructor.
Proof.
  split.
  - simpl. rewrite wrap_small; unfold uint_modulus; lia.
  - reflexivity.
  - intros c H. exfalso. apply H. reflexivity.
Qed.

Lemma well_formed_addChild c st :
  well_formed st → childs_length st + 1 < uint_modulus → well_formed (addChild c st).
Proof.
  intros [Hl Hr Hi] Hroom.
  assert (Hlen : childs_length (addChild c st) = childs_length st + 1).
  { simpl. apply wrap_small. lia. }
  split.
  - rewrite Hlen. lia.
  - rewrite slot_addChild. destruct (decide (0 = childs_length st)); [lia | exact Hr].
  - intros c'. rewrite Hlen, index_of_addChild, slot_addChild.
    destruct (decide (c' = c)) as [->|Hne].
    + intros _. rewrite decide_True by reflexivity. split; [lia | reflexivity].
    + intros H. destruct (Hi c' H) as [Hb Hs].
      rewrite decide_False by lia. split; [lia | exact Hs].
Qed.

Lemma well_formed_removeChild c st st' :
  well_formed st → removeChild c st = Some st' → well_formed st'.
Proof.
  intros Hwf H. rewrite (removeChild_in_bounds c st Hwf) in H. inversion H; subst st'; clear H.
  destruct Hwf as [Hl Hr Hi].
  assert (Hidx : ∀ c', index_of {| childsIndex := delete c (childsIndex st);
                                   childs_length := childs_length st;
                                   childs := delete (index_of st c) (childs st) |} c'
                       = if decide (c' = c) then 0 else index_of st c').
  { intros c'. unfold index_of at 1. simpl. destruct (decide (c' = c)) as [->|Hne].
    - now rewrite lookup_delete_eq.
    - rewrite lookup_delete_ne by congruence. reflexivity. }
  assert (Hslot : ∀ i, slot {| childsIndex := delete c (childsIndex st);
                               childs_length := childs_length st;
                               childs := delete (index_of st c) (childs st) |} i
                       = if decide (i = index_of st c) then 0 else slot st i).
  { intros i. unfold slot at 1. simpl. destruct (decide (i = index_of st c)) as [->|Hne].
    - now rewrite lookup_delete_eq.
    - rewrite lookup_delete_ne by congruence. reflexivity. }
  split.
  - exact Hl.
  - rewrite Hslot. now destruct (decide (0 = index_of st c)).
  - intros c'. rewrite Hidx, Hslot. simpl.
    destruct (decide (c' = c)) as [->|Hne]; [intros H; now contradiction H|].
    intros H. destruct (Hi c' H) as [Hb Hs]. split; [exact Hb|].
    destruct (decide (index_of st c' = index_of st c)) as [E|_]; [|exact Hs].
    exfalso. apply Hne.
    assert (Hc : index_of st c ≠ 0) by (rewrite <- E; exact H).
    destruct (Hi c Hc) as [_ Hs']. rewrite <- Hs, E. exact Hs'.
Qed.

Lemma transact_well_formed call st :
  well_formed st → childs_length st + 1 < uint_modulus →
  well_formed (transact st call)
  ∧ childs_length (transact st call)
    = childs_length st + Z.of_nat (additions [call]).
Proof.
  intros Hwf Hroom. destruct call as [c|c]; unfold transact; simpl.
  - split; [now apply well_formed_addChild|].
    unfold additions; simpl. rewrite wrap_small; [lia | destruct Hwf; lia].
  - rewrite (removeChild_in_bounds c st Hwf). simpl. split.
    + eapply well_formed_removeChild; [exact Hwf | apply removeChild_in_bounds, Hwf].
    + unfold additions; simpl. lia.
Qed.

Lemma additions_cons call calls :
  additions (call :: calls) = (additions [call] + additions calls)%nat.
Proof. unfold additions. simpl. destruct call; reflexivity. Qed.

Lemma additions_le calls : (additions calls ≤ length calls)%nat.
Proof. unfold additions. apply List.filter_length_le. Qed.

Lemma run_well_formed calls : ∀ st,
  well_formed st →
  childs_length st + Z.of_nat (length calls) < uint_modulus →
  well_formed (fold_left transact calls st)
  ∧ childs_length (fold_left transact calls st)
    = childs_length st + Z.of_nat (additions calls).
Proof.
  induction calls as [|call calls IH]; intros st Hwf Hroom; simpl.
  - split; [exact Hwf|]. unfold additions. simpl. lia.
  - simpl in Hroom.
    destruct (transact_well_formed call st Hwf) as [Hwf1 Hlen1]; [lia|].
    assert (Hone : (additions [call] ≤ 1)%nat) by apply (additions_le [call]).
    destruct (IH (transact st call) Hwf1) as [Hwf2 Hlen2]; [lia|].
    split; [exact Hwf2|]. rewrite Hlen2, Hlen1, (additions_cons call calls). lia.
Qed.

(** The storage after any run of fewer than [2^256 - 1] calls from the
    constructor: slot zero is still reserved, the index of every registered
    child lies within the array and points at the slot holding that child,
    the length of the array is one more than the number of additions
    (removals never shorten it), and [removeChild] does not throw, whatever
    address it is given. *)
Theorem parent_invariant (calls : list Call) :
  Z.of_nat (length calls) < uint_modulus - 1 →
  well_formed (after calls)
  ∧ getChildsLength (after calls) = 1 + Z.of_nat (additions calls)
  ∧ ∀ c, is_Some (removeChild c (after calls)).
Proof.
  intros Hn. unfold after, getChildsLength.
  destruct (run_well_formed calls constructor well_formed_constructor) as [Hwf Hlen].
  { simpl. rewrite wrap_small; unfold uint_modulus in *; lia. }
  split; [exact Hwf|]. split.
  - rewrite Hlen. simpl. rewrite wrap_small; [reflexivity | unfold uint_modulus; lia].
  - intros c. rewrite (removeChild_in_bounds c _ Hwf). eauto.
Qed.

(** Membership follows the calls: a child that was added passes
    [onlyChild], a child that was removed does not, and neither call changes
    whether any other address passes.  The slot of a removed child reads as
    the zero address and the array keeps its length. *)
Theorem onlyChild_follows_calls (st : Contract) (c : Z) :
  well_formed st → childs_length st + 1 < uint_modulus →
  onlyChild c (addChild c st) = true
  ∧ childs_at (addChild c st) (index_of (addChild c st) c) = Some c
  ∧ (∀ c', c' ≠ c → onlyChild c' (addChild c st) = onlyChild c' st)
  ∧ ∃ st', removeChild c st = Some st'
           ∧ onlyChild c st' = false
           ∧ (∀ c', c' ≠ c → onlyChild c' st' = onlyChild c' st)
           ∧ getChildsLength st' = getChildsLength st
           ∧ childs_at st' (index_of st c) = Some 0.
Proof.
  intros Hwf Hroom. pose proof (wf_length st Hwf) as Hl.
  split; [|split; [|split]].
  - unfold onlyChild. rewrite index_of_addChild, decide_True by reflexivity.
    apply negb_true_iff, Z.eqb_neq. lia.
  - unfold childs_at. rewrite index_of_addChild, decide_True by reflexivity.
    rewrite slot_addChild, decide_True by reflexivity.
    simpl. rewrite wrap_small by lia.
    destruct (Z.leb_spec 0 (childs_length st)); [|lia].
    destruct (Z.ltb_spec (childs_length st) (childs_length st + 1)); [reflexivity | lia].
  - intros c' Hne. unfold onlyChild. now rewrite index_of_addChild, decide_False.
  - eexists. split; [apply (removeChild_in_bounds c st Hwf)|].
    split; [|split; [|split]].
    + unfold onlyChild, index_of. simpl. now rewrite lookup_delete_eq.
    + intros c' Hne. unfold onlyChild, index_of. simpl.
      now rewrite lookup_delete_ne by congruence.
    + reflexivity.
    + unfold childs_at, slot. simpl. rewrite lookup_delete_eq. simpl.
      assert (Hb : 0 ≤ index_of st c < childs_length st).
      { destruct (decide (index_of st c = 0)) as [->|Hne]; [lia|].
        destruct (wf_index st Hwf c Hne). lia. }
      destruct (Z.leb_spec 0 (index_of st c)); [|lia].
      destruct (Z.ltb_spec (index_of st c) (childs_length st)); [reflexivity | lia].
Qed.

(** A small run: two hotels registered, the first one removed. *)
Definition sample_calls : list Call := [AddChild 10; AddChild 11; RemoveChild 10].

Lemma parent_invariant_witness :
  getChildsLength (after sample_calls) = 3
  ∧ is_Some (removeChild 12 (after sample_calls)).
Proof.
  destruct (parent_invariant sample_calls) as (_ & Hlen & Hrm).
  - unfold uint_modulus. simpl. lia.
  - split; [rewrite Hlen; reflexivity | apply Hrm].
Defined.

Lemma onlyChild_follows_calls_witness :
  onlyChild 12 (addChild 12 (after sample_calls)) = true
  ∧ onlyChild 11 (addChild 12 (after sample_calls)) = true.
Proof.
  destruct (onlyChild_follows_calls (after sample_calls) 12) as (H1 & _ & H3 & _).
  - destruct (parent_invariant sample_calls) as (Hwf & _); [|exact Hwf].
    unfold uint_modulus. simpl. lia.
  - vm_compute. reflexivity.
  - split; [exact H1|]. rewrite H3 by lia. vm_compute. reflexivity.
Defined.

End Parent.

(** ** [JsonWTIndexDataProvider], the index kept in a JSON object

    The provider keeps the hotels in [source.hotels], an object used as a
    map from addresses to hotel objects.  The hotel objects are shared with
    the callers: [addHotel] stores the object it is given, [getHotel] hands
    out the object that is stored.  The objects therefore live on a heap and
    are known by their references. *)

Module JsonWTIndex.

(** A hotel object: its data properties, and its [toPlainObject] member,
    which when present is one of the closures this class makes, known by
    the object its variable refers to. *)
Record Object : Type :=
  { props : gmap string Val;
    toPlainObject : option nat }.

Definition empty_object : Object := {| props := ∅; toPlainObject := None |}.

(** [hotels] is [source.hotels], its entries in the order of [Object.keys]. *)
Record State : Type :=
  { heap : gmap nat Object;
    hotels : list (string * nat) }.

Definition object (s : State) (r : nat) : Object := default empty_object (heap s !! r).

(** [o.name] for a data property. *)
Definition prop (s : State) (r : nat) (name : string) : Val :=
  default VUndefined (props (object s r) !! name).

Definition with_object (r : nat) (f : Object → Object) (s : State) : State :=
  {| heap := <[r := f (object s r)]> (heap s); hotels := hotels s |}.

Definition set_prop (r : nat) (name : string) (v : Val) : State → State :=
  with_object r (fun o => {| props := <[name := v]> (props o);
                             toPlainObject := toPlainObject o |}).

Definition set_toPlainObject (r captured : nat) : State → State :=
  with_object r (fun o => {| props := props o; toPlainObject := Some captured |}).

(** [Object.assign (target, source)]: the own enumerable properties of the
    source, [toPlainObject] among them when the source has one. *)
Definition assign (target source : nat) (s : State) : State :=
  with_object target
    (fun o => {| props := props (object s source) ∪ props o;
                 toPlainObject := match toPlainObject (object s source) with
                                  | Some c => Some c
                                  | None => toPlainObject o
                                  end |}) s.

(** The entries of [source.hotels]. *)
Fixpoint entry (key : string) (l : list (string * nat)) : option nat :=
  match l with
  | [] => None
  | (k, r) :: rest => if String.eqb k key then Some r else entry key rest
  end.

(** [hotels[key] = r]: a key that exists keeps its place. *)
Fixpoint store (key : string) (r : nat) (l : list (string * nat)) : list (string * nat) :=
  match l with
  | [] => [(key, r)]
  | (k, x) :: rest =>
      if String.eqb k key then (k, r) :: rest else (k, x) :: store key r rest
  end.

(** [delete hotels[key]] *)
Definition remove (key : string) (l : list (string * nat)) : list (string * nat) :=
  List.filter (fun e => negb (String.eqb (fst e) key)) l.

(** What [source.hotels[key]] evaluates to: the stored object, or, for a
    name every object inherits, the built-in found along the prototype
    chain. *)
Inductive Found : Type :=
| Stored (r : nat)
| Builtin (name : string).

Definition find (key : string) (s : State) : option Found :=
  match entry key (hotels s) with
  | Some r => Some (Stored r)
  | None => if OffChainDataClient.inherited key then Some (Builtin key) else None
  end.

(** The decimal numeral of a count, as [+] of a string and a number gives
    it. *)
Definition decimal (n : nat) : string :=
  DecimalString.NilZero.string_of_uint (Nat.to_uint n).

(** [String (v)] for the values an awaited [?string] can be at run time. *)
Definition to_string (v : Val) : string :=
  match v with
  | VUndefined => "undefined"
  | VNull => "null"
  | VStr s => s
  | VNum z => DecimalString.NilZero.string_of_int (Z.to_int z)
  | VPromise _ => "[object Promise]"
  | VObject _ => "[object Object]"
  end.

(** [hotel.toPlainObject ()]: a copy of the data of the captured object,
    without the method. *)
Definition call_toPlainObject (r : nat) (s : State) : option (gmap string Val) :=
  match toPlainObject (object s r) with
  | Some captured => Some (props (object s captured))
  | None => None
  end.

(** [AddHotelResponseInterface] *)
Record AddHotelResponse : Type :=
  { address : string; transactionIds : list string }.

(** [new JsonWTIndexDataProvider (source)]: [source.hotels] is made an
    empty object when the source has none. *)
Definition createInstance (objects : gmap nat Object)
    (source_hotels : option (list (string * nat))) : State :=
  {| heap := objects; hotels := default [] source_hotels |}.

Section Provider.

Variable Wallet : Type.
(** What a promise held by a hotel object settles to. *)
Variable settle : nat → result Val.

Definition await (v : Val) : M State Val :=
  match v with
  | VPromise p => lift (settle p)
  | _ => ret v
  end.

Definition without_manager : Error :=
  mkError PlainError "Cannot add hotel without manager".

Definition addHotel (wallet : Wallet) (hotelData : nat) : M State AddHotelResponse :=
  manager <~ gets (fun s => prop s hotelData "manager") ;;
  if negb (truthy manager) then throw without_manager
  else
    count <~ gets (fun s => length (hotels s)) ;;
    let randomId := ("0x000" ++ decimal count)%string in
    modify (set_prop hotelData "address" (VStr randomId)) ;;;
    modify (set_toPlainObject hotelData hotelData) ;;;
    modify (fun s => {| heap := heap s; hotels := store randomId hotelData (hotels s) |}) ;;;
    ret {| address := randomId; transactionIds := [("tx-add-" ++ randomId)%string] |}.

(** [if (!hotel.toPlainObject) { hotel.toPlainObject = ... }] *)
Definition ensure_toPlainObject (r : nat) : M State unit :=
  has <~ gets (fun s => toPlainObject (object s r)) ;;
  match has with
  | Some _ => ret tt
  | None => modify (set_toPlainObject r r)
  end.

Definition cannot_find (address : string) : Error :=
  mkError PlainError ("Cannot find hotel at " ++ address).

(** [getHotel (address)].  For the name of a built-in the object returned
    is that built-in, which is not a hotel of the source. *)
Definition getHotel (address : string) : M State Found :=
  hotel <~ gets (find address) ;;
  match hotel with
  | None => throw (cannot_find address)
  | Some (Stored r) => ensure_toPlainObject r ;;; ret (Stored r)
  | Some (Builtin name) => ret (Builtin name)
  end.

Definition update_not_found (hotelAddress : Val) : Error :=
  mkError PlainError
    ("Cannot update hotel at "
     ++ (if truthy hotelAddress then to_string hotelAddress else "~unknown~")
     ++ ": not found").

Definition updateHotel (wallet : Wallet) (hotel : nat) : M State (list string) :=
  raw <~ gets (fun s => prop s hotel "address") ;;
  hotelAddress <~ await raw ;;
  found <~ gets (find (to_string hotelAddress)) ;;
  match (if truthy hotelAddress then found else None) with
  | Some target =>
      match target with
      | Stored r => modify (assign r hotel)
      | Builtin _ => ret tt
      end ;;;
      ret [("tx-update-" ++ to_string hotelAddress)%string]
  | None => throw (update_not_found hotelAddress)
  end.

Definition cannot_remove (address : Val) (cause : string) : Error :=
  mkError PlainError
    ("Cannot remove hotel at "
     ++ (if truthy address then to_string address else "unknown")
     ++ ": " ++ cause).

Definition removeHotel (wallet : Wallet) (hotel : nat) : M State (list string) :=
  raw <~ gets (fun s => prop s hotel "address") ;;
  address <~ await raw ;;
  catch
    (found <~ gets (find (to_string address)) ;;
     match (if truthy address then found else None) with
     | Some target =>
         stored_manager <~ gets (fun s => match target with
                                          | Stored r => prop s r "manager"
                                          | Builtin _ => VUndefined
                                          end) ;;
         raw_manager <~ gets (fun s => prop s hotel "manager") ;;
         manager <~ await raw_manager ;;
         if strict_eq stored_manager manager then
           modify (fun s => {| heap := heap s;
                               hotels := remove (to_string address) (hotels s) |}) ;;;
           ret [("tx-remove-" ++ to_string address)%string]
         else throw (mkError PlainError "Hotel does not exist")
     | None => throw (mkError PlainError "Hotel does not exist")
     end)
    (fun err => throw (cannot_remove address (message err))).

Definition getAllHotels : M State (list nat) :=
  listed <~ gets (fun s => map snd (hotels s)) ;;
  mapM ensure_toPlainObject listed ;;;
  ret listed.

(** *** The entries *)

Lemma entry_store_eq key r l : entry key (store key r l) = Some r.
Proof.
  induction l as [|[k x] rest IH]; simpl.
  - now rewrite String.eqb_refl.
  - destruct (String.eqb k key) eqn:E; simpl; now rewrite E.
Qed.

Lemma entry_store_ne key other r l :
  other ≠ key → entry other (store key r l) = entry other l.
Proof.
  intros Hne. induction l as [|[k x] rest IH]; simpl.
  - destruct (String.eqb_spec key other); [congruence | reflexivity].
  - destruct (String.eqb_spec k key) as [->|Hk]; simpl.
    + destruct (String.eqb_spec key other); [congruence | reflexivity].
    + destruct (String.eqb k other); [reflexivity | exact IH].
Qed.

Lemma entry_remove_eq key l : entry key (remove key l) = None.
Proof.
  induction l as [|[k x] rest IH]; simpl; [reflexivity|].
  destruct (String.eqb k key) eqn:E; simpl; [exact IH|]. now rewrite E.
Qed.

Lemma entry_remove_ne key other l :
  other ≠ key → entry other (remove key l) = entry other l.
Proof.
  intros Hne. induction l as [|[k x] rest IH]; simpl; [reflexivity|].
  destruct (String.eqb_spec k key) as [->|Hk]; simpl.
  - destruct (String.eqb_spec key other); [congruence | exact IH].
  - destruct (String.eqb k other); [reflexivity | exact IH].
Qed.

Lemma store_keys key r l :
  map fst (store key r l)
  = match entry key l with
    | Some _ => map fst l
    | None => map fst l ++ [key]
    end.
Proof.
  induction l as [|[k x] rest IH]; simpl; [reflexivity|].
  destruct (String.eqb k key); simpl; [reflexivity|].
  rewrite IH. now destruct (entry key rest).
Qed.

(** *** The objects *)

Lemma object_with_object r f s r' :
  object (with_object r f s) r' = if decide (r' = r) then f (object s r) else object s r'.
Proof.
  unfold object at 1, with_object. simpl. destruct (decide (r' = r)) as [->|Hne].
  - now rewrite lookup_insert_eq.
  - now rewrite lookup_insert_ne by congruence.
Qed.

Lemma find_with_object key r f s : find key (with_object r f s) = find key s.
Proof. reflexivity. Qed.

Lemma object_same_heap s l r : object {| heap := heap s; hotels := l |} r = object s r.
Proof. reflexivity. Qed.

Lemma ensure_toPlainObject_present r s c :
  toPlainObject (object s r) = Some c → ensure_toPlainObject r s = (Ok tt, s).
Proof. intros H. unfold ensure_toPlainObject, bind, gets. simpl. now rewrite H. Qed.

(** *** Adding a hotel and finding it *)

(** A hotel without a manager is refused and nothing changes.  A hotel with
    a manager is stored under the address the response names, ['0x000']
    followed by the number of hotels the source held; [getHotel] of that
    address then yields the very object that was given, which now carries
    the address, keeps its other data, and whose [toPlainObject] yields its
    data with the address; no other key of the source and no other object
    is touched. *)
Theorem addHotel_then_getHotel (wallet : Wallet) (hotelData : nat) (s : State) :
  (truthy (prop s hotelData "manager") = false →
     addHotel wallet hotelData s = (Throw without_manager, s))
  ∧ (truthy (prop s hotelData "manager") = true →
       ∃ s',
         addHotel wallet hotelData s
         = (Ok {| address := "0x000" ++ decimal (length (hotels s));
                  transactionIds := [("tx-add-0x000" ++ decimal (length (hotels s)))%string] |},
            s')
         ∧ getHotel ("0x000" ++ decimal (length (hotels s))) s' = (Ok (Stored hotelData), s')
         ∧ prop s' hotelData "address" = VStr ("0x000" ++ decimal (length (hotels s)))
         ∧ (∀ name, name ≠ "address" → prop s' hotelData name = prop s hotelData name)
         ∧ call_toPlainObject hotelData s'
           = Some (<["address" := VStr ("0x000" ++ decimal (length (hotels s)))]>
                     (props (object s hotelData)))
         ∧ (∀ key, key ≠ ("0x000" ++ decimal (length (hotels s)))%string →
              find key s' = find key s)
         ∧ (∀ r, r ≠ hotelData → object s' r = object s r)).
Proof.
  split.
  - intros Hm. unfold addHotel, bind, gets. simpl. now rewrite Hm.
  - intros Hm.
    set (id := ("0x000" ++ decimal (length (hotels s)))%string).
    set (s1 := set_prop hotelData "address" (VStr id) s).
    set (s2 := set_toPlainObject hotelData hotelData s1).
    exists {| heap := heap s2; hotels := store id hotelData (hotels s) |}.
    assert (Hobj : object s2 hotelData
                   = {| props := <["address" := VStr id]> (props (object s hotelData));
                        toPlainObject := Some hotelData |}).
    { unfold s2, set_toPlainObject. rewrite object_with_object, decide_True by reflexivity.
      unfold s1, set_prop. rewrite object_with_object, decide_True by reflexivity.
      reflexivity. }
    split; [|split; [|split; [|split; [|split; [|split]]]]].
    + unfold addHotel, bind, gets, modify, ret. simpl. rewrite Hm. reflexivity.
    + unfold getHotel, bind, gets, find. cbn [hotels]. rewrite entry_store_eq.
      rewrite (ensure_toPlainObject_present _ _ hotelData); [reflexivity|].
      rewrite object_same_heap, Hobj. reflexivity.
    + unfold prop. rewrite object_same_heap, Hobj. simpl. now rewrite lookup_insert_eq.
    + intros name Hne. unfold prop. rewrite object_same_heap, Hobj. simpl.
      now rewrite lookup_insert_ne by congruence.
    + unfold call_toPlainObject. rewrite object_same_heap, Hobj. cbn [toPlainObject].
      now rewrite object_same_heap, Hobj.
    + intros key Hne. unfold find. cbn [hotels]. now rewrite entry_store_ne.
    + intros r Hne. rewrite object_same_heap.
      unfold s2, set_toPlainObject. rewrite object_with_object, decide_False by exact Hne.
      unfold s1, set_prop. now rewrite object_with_object, decide_False by exact Hne.
Qed.

(** *** The addresses [addHotel] gives out *)

Definition new_id (s : State) : string := "0x000" ++ decimal (length (hotels s)).

Definition added (hotelData : nat) (s : State) : State :=
  {| heap := heap (set_toPlainObject hotelData hotelData
                     (set_prop hotelData "address" (VStr (new_id s)) s));
     hotels := store (new_id s) hotelData (hotels s) |}.

Lemma addHotel_accepts wallet hotelData s :
  truthy (prop s hotelData "manager") = true →
  addHotel wallet hotelData s
  = (Ok {| address := new_id s; transactionIds := [("tx-add-" ++ new_id s)%string] |},
     added hotelData s).
Proof.
  intros Hm. unfold addHotel, bind, gets, modify, ret. simpl. rewrite Hm. reflexivity.
Qed.

Lemma added_keeps_managers hotelData s r :
  prop (added hotelData s) r "manager" = prop s r "manager".
Proof.
  unfold prop, added. rewrite object_same_heap.
  unfold set_toPlainObject. rewrite object_with_object.
  destruct (decide (r = hotelData)) as [->|Hne].
  - unfold set_prop. rewrite object_with_object, decide_True by reflexivity.
    simpl. now rewrite lookup_insert_ne by discriminate.
  - unfold set_prop. now rewrite object_with_object, decide_False by exact Hne.
Qed.

Lemma to_uint_not_nil n : Nat.to_uint n ≠ Decimal.Nil.
Proof.
  intros H. pose proof (DecimalNat.Unsigned.of_to n) as E. rewrite H in E. simpl in E.
  subst n. discriminate.
Qed.

Lemma decimal_inj n m : decimal n = decimal m → n = m.
Proof.
  unfold decimal. intros H.
  apply (f_equal DecimalString.NilZero.uint_of_string) in H.
  rewrite !DecimalString.NilZero.usu in H by apply to_uint_not_nil.
  inversion H. now apply DecimalNat.Unsigned.to_uint_inj.
Qed.

Definition numbered (i : nat) (hotel : nat) : string * nat :=
  (("0x000" ++ decimal i)%string, hotel).

Lemma entry_elem key l r : entry key l = Some r → (key, r) ∈ l.
Proof.
  induction l as [|[k x] rest IH]; simpl; [discriminate|].
  destruct (String.eqb_spec k key) as [->|Hne].
  - intros H. inversion H. apply list_elem_of_here.
  - intros H. apply list_elem_of_further. now apply IH.
Qed.

Lemma store_absent key r l : entry key l = None → store key r l = l ++ [(key, r)].
Proof.
  induction l as [|[k x] rest IH]; simpl; [reflexivity|].
  destruct (String.eqb k key); [discriminate|]. intros H. now rewrite IH.
Qed.

Lemma entry_numbered_free prev :
  entry ("0x000" ++ decimal (length prev)) (imap numbered prev) = None.
Proof.
  destruct (entry _ _) as [r|] eqn:E; [|reflexivity].
  apply entry_elem, elem_of_lookup_imap_1 in E as (i & y & Heq & Hi).
  unfold numbered in Heq. inversion Heq as [[Hd Hy]].
  apply decimal_inj in Hd. apply lookup_lt_Some in Hi. lia.
Qed.

(** The hotels added one after the other, whatever each call returns. *)
Definition add_all (wallet : Wallet) (added_hotels : list nat) (s : State) : State :=
  fold_left (fun st hotelData => snd (addHotel wallet hotelData st)) added_hotels s.

Lemma add_all_numbered wallet hs : ∀ prev s,
  hotels s = imap numbered prev →
  (∀ h, In h hs → truthy (prop s h "manager") = true) →
  hotels (add_all wallet hs s) = imap numbered (prev ++ hs).
Proof.
  induction hs as [|h hs IH]; intros prev s Hs Hm; simpl.
  - now rewrite app_nil_r.
  - rewrite (addHotel_accepts wallet h s) by (apply Hm; now left). simpl.
    replace (prev ++ h :: hs) with ((prev ++ [h]) ++ hs) by now rewrite <- app_assoc.
    apply IH.
    + unfold added, new_id. simpl. rewrite Hs, length_imap.
      rewrite store_absent by apply entry_numbered_free.
      rewrite imap_app. simpl. rewrite Nat.add_0_r. reflexivity.
    + intros h' Hin. rewrite added_keeps_managers. apply Hm. now right.
Qed.

(** The address of a new hotel is ['0x000'] followed by the number of
    hotels the source holds, in decimal.  The new hotel takes that key: a
    key that was free is appended to the keys of the source, a key that was
    taken keeps its place and from then on leads to the new hotel, so the
    hotel that was stored under it is no longer found there.  Hotels added
    to an empty source, all with a manager, get the addresses [0x0000],
    [0x0001], ... in the order they were added. *)
Theorem addHotel_numbers_hotels (wallet : Wallet) (s : State) :
  (∀ hotelData r s', addHotel wallet hotelData s = (Ok r, s') →
     address r = ("0x000" ++ decimal (length (hotels s)))%string
     ∧ entry (address r) (hotels s') = Some hotelData
     ∧ map fst (hotels s')
       = match entry (address r) (hotels s) with
         | Some _ => map fst (hotels s)
         | None => map fst (hotels s) ++ [address r]
         end)
  ∧ (∀ added_hotels,
       hotels s = [] →
       (∀ h, In h added_hotels → truthy (prop s h "manager") = true) →
       hotels (add_all wallet added_hotels s) = imap numbered added_hotels).
Proof.
  split.
  - intros hotelData r s'. unfold addHotel, bind, gets, modify, ret. simpl.
    destruct (truthy (prop s hotelData "manager")); simpl; [|unfold throw; discriminate].
    intros H. inversion H; subst; clear H. simpl.
    split; [reflexivity|]. split; [apply entry_store_eq | apply store_keys].
  - intros added_hotels Hempty Hm.
    apply (add_all_numbered wallet added_hotels [] s); [now rewrite Hempty | exact Hm].
Qed.

(** *** Removing and updating *)

Lemma await_cases v s :
  (∃ a, await v s = (Ok a, s)) ∨ (∃ e, await v s = (Throw e, s)).
Proof.
  destruct v; simpl; unfold ret, lift; eauto. destruct (settle p); eauto.
Qed.

Definition does_not_exist : string := "Hotel does not exist".

Lemma removeHotel_plain wallet hotel s a m r :
  prop s hotel "address" = VStr a → a ≠ "" →
  prop s hotel "manager" = m → (∀ p, m ≠ VPromise p) →
  entry a (hotels s) = Some r →
  removeHotel wallet hotel s
  = if strict_eq (prop s r "manager") m
    then (Ok [("tx-remove-" ++ a)%string],
          {| heap := heap s; hotels := remove a (hotels s) |})
    else (Throw (cannot_remove (VStr a) does_not_exist), s).
Proof.
  intros Ha Hne Hm Hp Hr.
  unfold removeHotel. unfold bind at 1. unfold gets at 1.
  rewrite Ha. unfold bind at 1. simpl await. unfold ret at 1.
  unfold catch. unfold bind at 1. unfold gets at 1.
  assert (Ht : truthy (VStr a) = true).
  { simpl. destruct (String.eqb_spec a ""); [contradiction | reflexivity]. }
  rewrite Ht. unfold find. change (to_string (VStr a)) with a. rewrite Hr.
  unfold bind at 1. unfold gets at 1. unfold bind at 1. unfold gets at 1.
  rewrite Hm. unfold bind at 1.
  assert (Haw : await m s = (Ok m, s)).
  { destruct m; try reflexivity. exfalso. now apply (Hp p). }
  rewrite Haw.
  destruct (strict_eq (prop s r "manager") m); [reflexivity|].
  unfold throw, cannot_remove. now rewrite Ht.
Qed.

(** A removal takes the key of the hotel out of the source and touches no
    object: afterwards [getHotel] of that address fails, and every other
    key leads where it led.  A removal that fails changes nothing.  For a
    hotel object that holds its address and its manager as plain values, a
    hotel stored under that address is removed exactly when its manager is
    identical to the manager of the object given; otherwise the call fails
    with 'Hotel does not exist'. *)
Theorem removeHotel_by_manager (wallet : Wallet) (hotel : nat) (s : State) :
  (∀ ids s', removeHotel wallet hotel s = (Ok ids, s') →
     ∃ a, await (prop s hotel "address") s = (Ok a, s)
          ∧ truthy a = true
          ∧ ids = [("tx-remove-" ++ to_string a)%string]
          ∧ heap s' = heap s
          ∧ hotels s' = remove (to_string a) (hotels s)
          ∧ (OffChainDataClient.inherited (to_string a) = false →
               getHotel (to_string a) s' = (Throw (cannot_find (to_string a)), s'))
          ∧ (∀ key, key ≠ to_string a → find key s' = find key s))
  ∧ (∀ e s', removeHotel wallet hotel s = (Throw e, s') → s' = s)
  ∧ (∀ a m r, prop s hotel "address" = VStr a → a ≠ "" →
       prop s hotel "manager" = m → (∀ p, m ≠ VPromise p) →
       entry a (hotels s) = Some r →
       removeHotel wallet hotel s
       = if strict_eq (prop s r "manager") m
         then (Ok [("tx-remove-" ++ a)%string],
               {| heap := heap s; hotels := remove a (hotels s) |})
         else (Throw (cannot_remove (VStr a) does_not_exist), s)).
Proof.
  split; [|split].
  - intros ids s'. unfold removeHotel. unfold bind at 1. unfold gets at 1.
    unfold bind at 1.
    destruct (await_cases (prop s hotel "address") s) as [[a Ha]|[e He]];
      [rewrite Ha | rewrite He; discriminate].
    unfold catch. unfold bind at 1. unfold gets at 1.
    destruct (truthy a) eqn:Ht; [|unfold throw; discriminate].
    destruct (find (to_string a) s) as [target|] eqn:Ef; [|unfold throw; discriminate].
    unfold bind at 1. unfold gets at 1. unfold bind at 1. unfold gets at 1.
    unfold bind at 1.
    destruct (await_cases (prop s hotel "manager") s) as [[m Hm]|[e He]];
      [rewrite Hm | rewrite He; unfold throw; discriminate].
    destruct (strict_eq _ m); [|unfold throw; discriminate].
    unfold bind, modify, ret. intros H. inversion H; subst; clear H.
    exists a. split; [reflexivity|]. split; [exact Ht|]. split; [reflexivity|].
    split; [reflexivity|]. split; [reflexivity|]. split.
    + intros Hinh. unfold getHotel, bind, gets, find. cbn [hotels].
      now rewrite entry_remove_eq, Hinh.
    + intros key Hne. unfold find. cbn [hotels]. now rewrite entry_remove_ne.
  - intros e s'. unfold removeHotel. unfold bind at 1. unfold gets at 1.
    unfold bind at 1.
    destruct (await_cases (prop s hotel "address") s) as [[a Ha]|[e0 He]];
      [rewrite Ha | rewrite He; intros H; now inversion H].
    unfold catch. unfold bind at 1. unfold gets at 1.
    destruct (truthy a) eqn:Ht; [|unfold throw; intros H; now inversion H].
    destruct (find (to_string a) s) as [target|] eqn:Ef;
      [|unfold throw; intros H; now inversion H].
    unfold bind at 1. unfold gets at 1. unfold bind at 1. unfold gets at 1.
    unfold bind at 1.
    destruct (await_cases (prop s hotel "manager") s) as [[m Hm]|[e0 He]];
      [rewrite Hm | rewrite He; unfold throw; intros H; now inversion H].
    destruct (strict_eq _ m); [|unfold throw; intros H; now inversion H].
    unfold bind, modify, ret. discriminate.
  - intros a m r. apply removeHotel_plain.
Qed.

(** An update copies the properties of the object given onto the hotel
    stored under its address: afterwards the stored hotel holds every data
    property of that object with its value and keeps the others; the keys
    of the source and all other objects stay as they are.  An update that
    fails changes nothing, and an address under which nothing is found is
    reported as not found, with ['~unknown~'] for an empty one. *)
Theorem updateHotel_assigns (wallet : Wallet) (hotel : nat) (s : State) :
  (∀ ids s', updateHotel wallet hotel s = (Ok ids, s') →
     ∃ a, await (prop s hotel "address") s = (Ok a, s)
          ∧ truthy a = true
          ∧ ids = [("tx-update-" ++ to_string a)%string]
          ∧ hotels s' = hotels s
          ∧ ∀ r, entry (to_string a) (hotels s) = Some r →
              (∀ name v, props (object s hotel) !! name = Some v →
                 props (object s' r) !! name = Some v)
              ∧ (∀ name, props (object s hotel) !! name = None →
                   props (object s' r) !! name = props (object s r) !! name)
              ∧ (∀ r', r' ≠ r → object s' r' = object s r'))
  ∧ (∀ e s', updateHotel wallet hotel s = (Throw e, s') → s' = s)
  ∧ (∀ a, prop s hotel "address" = VStr a → find a s = None →
       updateHotel wallet hotel s = (Throw (update_not_found (VStr a)), s)).
Proof.
  split; [|split].
  - intros ids s'. unfold updateHotel. unfold bind at 1. unfold gets at 1.
    unfold bind at 1.
    destruct (await_cases (prop s hotel "address") s) as [[a Ha]|[e He]];
      [rewrite Ha | rewrite He; discriminate].
    unfold bind at 1. unfold gets at 1.
    destruct (truthy a) eqn:Ht; [|unfold throw; discriminate].
    destruct (find (to_string a) s) as [target|] eqn:Ef; [|unfold throw; discriminate].
    unfold bind, modify, ret. intros H.
    exists a. split; [reflexivity|]. split; [exact Ht|].
    unfold find in Ef.
    destruct target as [r0|name0]; inversion H; subst; clear H;
      (split; [reflexivity|]); (split; [reflexivity|]); intros r Hr; rewrite Hr in Ef;
      [|discriminate].
    inversion Ef; subst r0.
    unfold assign. split; [|split].
    + intros name v Hv. rewrite object_with_object, decide_True by reflexivity. simpl.
      apply lookup_union_Some_l. exact Hv.
    + intros name Hv. rewrite object_with_object, decide_True by reflexivity. simpl.
      now apply lookup_union_r.
    + intros r' Hne. now rewrite object_with_object, decide_False by exact Hne.
  - intros e s'. unfold updateHotel. unfold bind at 1. unfold gets at 1.
    unfold bind at 1.
    destruct (await_cases (prop s hotel "address") s) as [[a Ha]|[e0 He]];
      [rewrite Ha | rewrite He; intros H; now inversion H].
    unfold bind at 1. unfold gets at 1.
    destruct (truthy a) eqn:Ht; [|unfold throw; intros H; now inversion H].
    destruct (find (to_string a) s) as [target|] eqn:Ef;
      [|unfold throw; intros H; now inversion H].
    unfold bind, modify, ret. destruct target; discriminate.
  - intros a Ha Hf. unfold updateHotel. unfold bind at 1. unfold gets at 1.
    rewrite Ha. unfold bind at 1. simpl await. unfold ret at 1.
    unfold bind at 1. unfold gets at 1. change (to_string (VStr a)) with a. rewrite Hf.
    now destruct (truthy (VStr a)).
Qed.

Lemma remove_store_free key r l :
  entry key l = None → remove key (store key r l) = l.
Proof.
  induction l as [|[k x] rest IH]; simpl.
  - intros _. unfold remove. simpl. now rewrite String.eqb_refl.
  - destruct (String.eqb k key) eqn:E; [discriminate|]. intros H.
    unfold remove in *. simpl. rewrite E. simpl. now rewrite IH.
Qed.

(** Adding a hotel and removing it again.  A hotel that holds its manager as
    a plain value and was added under a free address is removed by a
    removal with the same object, and the source has its former keys
    again.  A hotel that holds its manager as a promise is stored with that
    promise: a removal with the same object compares the promise with what
    it settles to, so it fails with 'Hotel does not exist' and the hotel
    stays. *)
Theorem addHotel_then_removeHotel (wallet : Wallet) (hotelData : nat) (s : State) :
  truthy (prop s hotelData "manager") = true →
  entry (new_id s) (hotels s) = None →
  addHotel wallet hotelData s
  = (Ok {| address := new_id s; transactionIds := [("tx-add-" ++ new_id s)%string] |},
     added hotelData s)
  ∧ ((∀ p, prop s hotelData "manager" ≠ VPromise p) →
       removeHotel wallet hotelData (added hotelData s)
       = (Ok [("tx-remove-" ++ new_id s)%string],
          {| heap := heap (added hotelData s); hotels := hotels s |}))
  ∧ (∀ p v, prop s hotelData "manager" = VPromise p → settle p = Ok v →
       v ≠ VPromise p →
       removeHotel wallet hotelData (added hotelData s)
       = (Throw (cannot_remove (VStr (new_id s)) does_not_exist), added hotelData s)).
Proof.
  intros Hm Hfree.
  assert (Haddr : prop (added hotelData s) hotelData "address" = VStr (new_id s)).
  { unfold prop, added. rewrite object_same_heap.
    unfold set_toPlainObject. rewrite object_with_object, decide_True by reflexivity.
    unfold set_prop. rewrite object_with_object, decide_True by reflexivity.
    simpl. now rewrite lookup_insert_eq. }
  assert (Hentry : entry (new_id s) (hotels (added hotelData s)) = Some hotelData).
  { unfold added. cbn [hotels]. apply entry_store_eq. }
  assert (Hid : new_id s ≠ "") by (unfold new_id; discriminate).
  split; [now apply addHotel_accepts|]. split.
  - intros Hp.
    rewrite (removeHotel_plain wallet hotelData (added hotelData s) (new_id s)
               (prop s hotelData "manager") hotelData Haddr Hid
               (added_keeps_managers _ _ _) Hp Hentry).
    rewrite added_keeps_managers.
    unfold strict_eq. rewrite bool_decide_true by reflexivity.
    assert (Hh : remove (new_id s) (hotels (added hotelData s)) = hotels s).
    { unfold added. cbn [hotels]. now apply remove_store_free. }
    now rewrite Hh.
  - intros p v Hprom Hsettle Hv.
    unfold removeHotel. unfold bind at 1. unfold gets at 1. rewrite Haddr.
    unfold bind at 1. simpl await. unfold ret at 1.
    unfold catch. unfold bind at 1. unfold gets at 1.
    assert (Ht : truthy (VStr (new_id s)) = true) by reflexivity.
    rewrite Ht. unfold find. change (to_string (VStr (new_id s))) with (new_id s).
    rewrite Hentry.
    unfold bind at 1. unfold gets at 1. unfold bind at 1. unfold gets at 1.
    rewrite added_keeps_managers, Hprom. unfold bind at 1. simpl await. unfold lift.
    rewrite Hsettle.
    unfold strict_eq. rewrite bool_decide_false by congruence.
    unfold throw, cannot_remove. now rewrite Ht.
Qed.

(** *** Listing *)

Lemma ensure_toPlainObject_cases r s :
  ∃ s', ensure_toPlainObject r s = (Ok tt, s')
        ∧ hotels s' = hotels s
        ∧ (∀ r', props (object s' r') = props (object s r'))
        ∧ (∀ r', toPlainObject (object s' r')
                 = match toPlainObject (object s r') with
                   | Some c => Some c
                   | None => if decide (r' = r) then Some r else None
                   end).
Proof.
  unfold ensure_toPlainObject, bind, gets.
  destruct (toPlainObject (object s r)) as [c|] eqn:E.
  - exists s. split; [reflexivity|]. split; [reflexivity|]. split; [reflexivity|].
    intros r'. destruct (toPlainObject (object s r')) eqn:E'; [reflexivity|].
    destruct (decide (r' = r)) as [->|]; [congruence | reflexivity].
  - eexists. split; [reflexivity|]. split; [reflexivity|].
    unfold set_toPlainObject. split.
    + intros r'. rewrite object_with_object. now destruct (decide (r' = r)) as [->|].
    + intros r'. rewrite object_with_object. destruct (decide (r' = r)) as [->|].
      * simpl. now rewrite E.
      * now destruct (toPlainObject (object s r')).
Qed.

Lemma ensure_all listed : ∀ s,
  ∃ s', mapM ensure_toPlainObject listed s = (Ok (map (fun _ => tt) listed), s')
        ∧ hotels s' = hotels s
        ∧ (∀ r, props (object s' r) = props (object s r))
        ∧ (∀ r, toPlainObject (object s' r)
                = match toPlainObject (object s r) with
                  | Some c => Some c
                  | None => if decide (r ∈ listed) then Some r else None
                  end).
Proof.
  induction listed as [|r0 rest IH]; intros s; simpl.
  - exists s. unfold ret. split; [reflexivity|]. split; [reflexivity|].
    split; [reflexivity|]. intros r. now destruct (toPlainObject (object s r)).
  - destruct (ensure_toPlainObject_cases r0 s) as (s1 & H1 & Hh1 & Hp1 & Ht1).
    destruct (IH s1) as (s2 & H2 & Hh2 & Hp2 & Ht2).
    exists s2. unfold bind. rewrite H1, H2. unfold ret.
    split; [reflexivity|]. split; [congruence|]. split; [intros r; congruence|].
    intros r. rewrite Ht2, Ht1.
    destruct (toPlainObject (object s r)) as [c|]; [reflexivity|].
    destruct (decide (r = r0)) as [->|Hne].
    + rewrite decide_True by apply list_elem_of_here. reflexivity.
    + destruct (decide (r ∈ rest)) as [Hin|Hnin].
      * rewrite decide_True by now apply list_elem_of_further. reflexivity.
      * rewrite decide_False; [reflexivity|].
        rewrite elem_of_cons. intros [E|Hin]; [congruence | contradiction].
Qed.

Lemma ensure_all_present listed : ∀ s,
  (∀ r, r ∈ listed → toPlainObject (object s r) ≠ None) →
  mapM ensure_toPlainObject listed s = (Ok (map (fun _ => tt) listed), s).
Proof.
  induction listed as [|r0 rest IH]; intros s Hall; simpl; [reflexivity|].
  unfold bind.
  destruct (toPlainObject (object s r0)) as [c|] eqn:E;
    [|exfalso; apply (Hall r0); [apply list_elem_of_here | exact E]].
  rewrite (ensure_toPlainObject_present r0 s c E).
  rewrite IH by (intros r Hin; apply Hall; now apply list_elem_of_further). reflexivity.
Qed.

(** [getAllHotels] yields the hotels of the source in the order of its
    keys.  It changes no key and no data property; every hotel it yields has
    a [toPlainObject] afterwards, one that was there is kept, one that was
    made yields the data of the hotel itself; and a second call finds
    nothing left to do. *)
Theorem getAllHotels_lists (s : State) :
  ∃ s', getAllHotels s = (Ok (map snd (hotels s)), s')
        ∧ hotels s' = hotels s
        ∧ (∀ r, props (object s' r) = props (object s r))
        ∧ (∀ r, In r (map snd (hotels s)) →
             call_toPlainObject r s'
             = match toPlainObject (object s r) with
               | Some captured => Some (props (object s captured))
               | None => Some (props (object s r))
               end)
        ∧ getAllHotels s' = (Ok (map snd (hotels s)), s').
Proof.
  destruct (ensure_all (map snd (hotels s)) s) as (s' & H & Hh & Hp & Ht).
  exists s'. split; [|split; [|split; [|split]]].
  - unfold getAllHotels, bind, gets. rewrite H. reflexivity.
  - exact Hh.
  - exact Hp.
  - intros r Hin. apply list_elem_of_In in Hin. unfold call_toPlainObject. rewrite Ht.
    destruct (toPlainObject (object s r)) as [c|]; [now rewrite Hp|].
    rewrite decide_True by exact Hin. now rewrite Hp.
  - unfold getAllHotels, bind, gets. rewrite Hh.
    rewrite ensure_all_present; [reflexivity|].
    intros r Hin. rewrite Ht.
    destruct (toPlainObject (object s r)); [discriminate|].
    rewrite decide_True by exact Hin. discriminate.
Qed.

End Provider.

(** A source without hotels and one hotel object with a manager. *)
Definition sample_source : State :=
  createInstance
    {[ 0 := {| props := {[ "manager" := VStr "0xd39c" ]}; toPlainObject := None |} ]}
    None.

Definition sample_settle (p : nat) : result Val := Throw (mkError PlainError "rejected").

Lemma addHotel_then_removeHotel_witness :
  fst (addHotel unit tt 0 sample_source)
  = Ok {| address := "0x0000"; transactionIds := ["tx-add-0x0000"] |}
  ∧ hotels (snd (removeHotel unit sample_settle tt 0 (snd (addHotel unit tt 0 sample_source))))
    = [].
Proof.
  assert (Hm : truthy (prop sample_source 0 "manager") = true) by (vm_compute; reflexivity).
  assert (Hf : entry (new_id sample_source) (hotels sample_source) = None) by reflexivity.
  destruct (addHotel_then_removeHotel unit sample_settle tt 0 sample_source Hm Hf)
    as (Ha & Hr & _).
  rewrite Ha. split; [reflexivity|]. cbn [snd].
  rewrite Hr; [reflexivity|]. intros p. vm_compute. discriminate.
Defined.

End JsonWTIndex.

(** ** [BookingData] (libs/BookingData.js): the bookings of hotels

    The two history queries, [getBookings] and [getBookingRequests].  The
    contract instances, their past events, the guest data of a transaction
    and the decoding of call data come from [utils] and web3: they are
    collaborators here, each answering by its arguments. *)

Module BookingData.

Section History.

(** A transaction hash is a 32-byte number; the library compares hashes and
    uses them as keys, and never looks into one. *)
Variable TxHash : Type.
Context `{EqDecision TxHash}.

(** An event as [getPastEvents] reports it; a member of [returnValues] that
    the event does not have is [undefined]. *)
Record PastEvent : Type :=
  { transactionHash : TxHash;
    blockNumber : Val;
    id : Val;
    returnValues : string → Val }.

Variable getInstance : Val → result nat.
Variable getPastEvents : nat → string → Val → result (list PastEvent).
(** [utils.getGuestData (hash, context)]; the hash is [None] for [undefined] *)
Variable getGuestData : option TxHash → result Val.
Variable getPublicCallData : nat → Val → result Val.
(** [utils.abiDecoder.decodeMethod (data).params], as names and values *)
Variable decodeMethod : Val → result (list (string * Val)).
Variable toChecksumAddress : Val → result Val.
Variable parseDate : Val → result Val.

(** [_addresses]: one address or an array of addresses *)
Inductive Addresses : Type :=
| One (address : Val)
| Many (addresses : list Val).

Definition hotelsToQuery (_addresses : Addresses) : list Val :=
  match _addresses with
  | One address => [address]
  | Many addresses => addresses
  end.

(** [finishEvents.findIndex (item => item.returnValues.dataHash ===
    event.returnValues.dataHash)], as the event at that index. *)
Definition find_finish (finishEvents : list PastEvent) (event : PastEvent)
    : option PastEvent :=
  List.find (fun item => strict_eq (returnValues item "dataHash")
                                   (returnValues event "dataHash"))
            finishEvents.

(** [bookData.name] after [params.forEach (param => bookData[param.name] =
    param.value)]: the value of the last parameter of that name. *)
Definition bookData (params : list (string * Val)) (name : string) : Val :=
  fold_left (fun current param => if String.eqb (fst param) name then snd param else current)
            params VUndefined.

Record BookingRequest : Type :=
  { request_guestData : Val;
    request_transactionHash : TxHash;
    request_blockNumber : Val;
    request_id : Val;
    request_from : Val;
    request_dataHash : Val;
    request_hotel : Val;
    request_unit : Val;
    request_fromDate : Val;
    request_daysAmount : Val }.

Record Booking : Type :=
  { booking_guestData : Val;
    booking_transactionHash : TxHash;
    booking_blockNumber : Val;
    booking_id : Val;
    booking_from : Val;
    booking_unit : Val;
    booking_fromDate : Val;
    booking_daysAmount : Val }.

(** The body of [for (let event of unfinished)] *)
Definition request_of (address : Val) (hotel : nat) (event : PastEvent)
    : M unit BookingRequest :=
  guestData <~ lift (getGuestData (Some (transactionHash event))) ;;
  publicCallData <~ lift (getPublicCallData hotel (returnValues event "dataHash")) ;;
  params <~ lift (decodeMethod publicCallData) ;;
  unit_address <~ lift (toChecksumAddress (bookData params "unitAddress")) ;;
  fromDate <~ lift (parseDate (bookData params "fromDay")) ;;
  ret {| request_guestData := guestData;
         request_transactionHash := transactionHash event;
         request_blockNumber := blockNumber event;
         request_id := id event;
         request_from := returnValues event "from";
         request_dataHash := returnValues event "dataHash";
         request_hotel := address;
         request_unit := unit_address;
         request_fromDate := fromDate;
         request_daysAmount := bookData params "daysAmount" |}.

(** The body of [for (let address of hotelsToQuery)] in
    [getBookingRequests] *)
Definition requests_of_hotel (fromBlock : Val) (address : Val)
    : M unit (list BookingRequest) :=
  hotel <~ lift (getInstance address) ;;
  startedEvents <~ lift (getPastEvents hotel "CallStarted" fromBlock) ;;
  finishEvents <~ lift (getPastEvents hotel "CallFinish" fromBlock) ;;
  let unfinished :=
    List.filter (fun event => match find_finish finishEvents event with
                              | None => true
                              | Some _ => false
                              end) startedEvents in
  mapM (request_of address hotel) unfinished.

Definition getBookingRequests (_addresses : Addresses) (fromBlock : Val)
    : result (list BookingRequest) :=
  match hotelsToQuery _addresses with
  | [] => Ok []
  | hotels =>
      fst ((per_hotel <~ mapM (requests_of_hotel fromBlock) hotels ;;
            ret (concat per_hotel)) tt)
  end.

(** [startedMappedByFinished]: the hashes of [CallStarted] transactions by
    the hashes of the [CallFinish] transactions they were matched with, the
    latest assignment first. *)
Definition Mapping : Type := list (TxHash * TxHash).

Definition mapped (m : Mapping) (finished : TxHash) : option TxHash :=
  match List.find (fun p => bool_decide (fst p = finished)) m with
  | Some p => Some (snd p)
  | None => None
  end.

(** The callback of [startedEvents.filter] in [getBookings], for what it
    does to the mapping. *)
Definition note_finished (finishEvents : list PastEvent) (m : Mapping) (event : PastEvent)
    : Mapping :=
  match find_finish finishEvents event with
  | Some item => (transactionHash item, transactionHash event) :: m
  | None => m
  end.

(** The body of [for (let event of bookEvents)] *)
Definition booking_of (event : PastEvent) : M Mapping Booking :=
  guestData <~ catch (lift (getGuestData (Some (transactionHash event))))
                     (fun _ => m <~ gets (fun m => m) ;;
                               lift (getGuestData (mapped m (transactionHash event)))) ;;
  fromDate <~ lift (parseDate (returnValues event "fromDay")) ;;
  ret {| booking_guestData := guestData;
         booking_transactionHash := transactionHash event;
         booking_blockNumber := blockNumber event;
         booking_id := id event;
         booking_from := returnValues event "from";
         booking_unit := returnValues event "unit";
         booking_fromDate := fromDate;
         booking_daysAmount := returnValues event "daysAmount" |}.

(** The body of [for (let address of hotelsToQuery)] in [getBookings] *)
Definition bookings_of_hotel (fromBlock : Val) (address : Val) : M Mapping (list Booking) :=
  hotel <~ lift (getInstance address) ;;
  bookEvents <~ lift (getPastEvents hotel "Book" fromBlock) ;;
  startedEvents <~ lift (getPastEvents hotel "CallStarted" fromBlock) ;;
  finishEvents <~ lift (getPastEvents hotel "CallFinish" fromBlock) ;;
  modify (fun m => fold_left (note_finished finishEvents) startedEvents m) ;;;
  mapM booking_of bookEvents.

Definition getBookings (_addresses : Addresses) (fromBlock : Val) : result (list Booking) :=
  match hotelsToQuery _addresses with
  | [] => Ok []
  | hotels =>
      fst ((per_hotel <~ mapM (bookings_of_hotel fromBlock) hotels ;;
            ret (concat per_hotel)) [])
  end.

(** *** What the queries list *)

(** The events of a kind a hotel has, when they can be had. *)
Definition events (kind : string) (fromBlock : Val) (address : Val) : list PastEvent :=
  match getInstance address with
  | Ok hotel => match getPastEvents hotel kind fromBlock with
                | Ok l => l
                | Throw _ => []
                end
  | Throw _ => []
  end.

(** The started calls of a hotel that no finished call answers. *)
Definition pending (fromBlock : Val) (address : Val) : list PastEvent :=
  List.filter
    (fun event =>
       forallb (fun item => negb (strict_eq (returnValues item "dataHash")
                                            (returnValues event "dataHash")))
               (events "CallFinish" fromBlock address))
    (events "CallStarted" fromBlock address).

Lemma find_finish_none finishEvents event :
  match find_finish finishEvents event with None => true | Some _ => false end
  = forallb (fun item => negb (strict_eq (returnValues item "dataHash")
                                         (returnValues event "dataHash")))
            finishEvents.
Proof.
  unfold find_finish. induction finishEvents as [|f rest IH]; simpl; [reflexivity|].
  destruct (strict_eq _ _); simpl; [reflexivity | exact IH].
Qed.

Lemma requests_of_events address hotel l : ∀ s rs s',
  mapM (request_of address hotel) l s = (Ok rs, s') →
  map (fun r => (request_hotel r, request_transactionHash r, request_dataHash r)) rs
  = map (fun e => (address, transactionHash e, returnValues e "dataHash")) l.
Proof.
  induction l as [|e l IH]; simpl; intros s rs s'.
  - unfold ret. intros H. now inversion H.
  - unfold bind at 1.
    destruct (request_of address hotel e s) as [[r|err] s1] eqn:Er; [|discriminate].
    unfold bind at 1.
    destruct (mapM (request_of address hotel) l s1) as [[rs0|err] s2] eqn:E; [|discriminate].
    unfold ret. intros H. inversion H; subst. simpl. f_equal; [|eapply IH; eauto].
    revert Er. unfold request_of, bind, lift, ret.
    destruct (getGuestData _); [|discriminate].
    destruct (getPublicCallData _ _); [|discriminate].
    destruct (decodeMethod _); [|discriminate].
    destruct (toChecksumAddress _); [|discriminate].
    destruct (parseDate _); [|discriminate].
    intros H1. now inversion H1.
Qed.

Definition request_key (r : BookingRequest) : Val * TxHash * Val :=
  (request_hotel r, request_transactionHash r, request_dataHash r).

Definition pending_key (address : Val) (e : PastEvent) : Val * TxHash * Val :=
  (address, transactionHash e, returnValues e "dataHash").

Lemma requests_of_hotel_pending fromBlock address s rs s' :
  requests_of_hotel fromBlock address s = (Ok rs, s') →
  map request_key rs = map (pending_key address) (pending fromBlock address).
Proof.
  unfold requests_of_hotel, pending, events, bind, lift.
  destruct (getInstance address) as [hotel|err]; [|discriminate].
  destruct (getPastEvents hotel "CallStarted" fromBlock) as [st|err]; [|discriminate].
  destruct (getPastEvents hotel "CallFinish" fromBlock) as [fi|err]; [|discriminate].
  intros H. apply requests_of_events in H. unfold request_key, pending_key.
  rewrite H. f_equal. apply List.filter_ext. intros e. apply find_finish_none.
Qed.

Lemma requests_of_hotels fromBlock hotels : ∀ s per s',
  mapM (requests_of_hotel fromBlock) hotels s = (Ok per, s') →
  map request_key (concat per)
  = flat_map (fun a => map (pending_key a) (pending fromBlock a)) hotels.
Proof.
  induction hotels as [|a hotels IH]; simpl; intros s per s'.
  - unfold ret. intros H. now inversion H.
  - unfold bind at 1.
    destruct (requests_of_hotel fromBlock a s) as [[rs|err] s1] eqn:Ea; [|discriminate].
    unfold bind at 1.
    destruct (mapM (requests_of_hotel fromBlock) hotels s1) as [[per0|err] s2] eqn:E;
      [|discriminate].
    unfold ret. intros H. inversion H; subst. simpl.
    rewrite map_app. f_equal; [eapply requests_of_hotel_pending; eauto | eapply IH; eauto].
Qed.

(** The booking requests that are pending.  For no hotel at all the answer
    is the empty list, and one address is an array of that address.
    Whenever the query returns, its requests are, hotel by hotel in the
    order asked and within a hotel in the order of the events, the
    [CallStarted] events of the hotel whose data hash no [CallFinish] event
    of that hotel carries, each request with the hotel it was found at, the
    transaction hash and the data hash of its event. *)
Theorem getBookingRequests_pending (fromBlock : Val) :
  getBookingRequests (Many []) fromBlock = Ok []
  ∧ (∀ address,
       getBookingRequests (One address) fromBlock
       = getBookingRequests (Many [address]) fromBlock)
  ∧ (∀ _addresses requests,
       getBookingRequests _addresses fromBlock = Ok requests →
       map request_key requests
       = flat_map (fun a => map (pending_key a) (pending fromBlock a))
                  (hotelsToQuery _addresses)).
Proof.
  split; [reflexivity|]. split; [reflexivity|].
  intros _addresses requests. unfold getBookingRequests.
  destruct (hotelsToQuery _addresses) as [|a hotels] eqn:Eh.
  - intros H. now inversion H.
  - unfold bind.
    destruct (mapM (requests_of_hotel fromBlock) (a :: hotels) tt) as [[per|err] s1] eqn:E;
      [|discriminate].
    unfold ret. simpl. intros H. inversion H; subst.
    apply (requests_of_hotels fromBlock (a :: hotels) _ _ _ E).
Qed.

(** Where the guest data of a booking come from: the transaction of the
    [Book] event when they can be read from it, and otherwise some other
    transaction they could be read from. *)
Definition guest_data_found (b : Booking) : Prop :=
  match getGuestData (Some (booking_transactionHash b)) with
  | Ok g => booking_guestData b = g
  | Throw _ => ∃ started, getGuestData started = Ok (booking_guestData b)
  end.

Lemma booking_of_event event m b m' :
  booking_of event m = (Ok b, m') →
  m' = m ∧ booking_transactionHash b = transactionHash event ∧ guest_data_found b.
Proof.
  unfold booking_of, guest_data_found, bind, catch, lift, gets, ret.
  destruct (getGuestData (Some (transactionHash event))) as [g|err] eqn:Eg.
  - destruct (parseDate _); [|discriminate]. intros H. inversion H; subst. simpl.
    now rewrite Eg.
  - destruct (getGuestData (mapped m (transactionHash event))) as [g|err'] eqn:Eg';
      [|discriminate].
    destruct (parseDate _); [|discriminate]. intros H. inversion H; subst. simpl.
    rewrite Eg. eauto.
Qed.

Lemma bookings_of_events l : ∀ m bs m',
  mapM booking_of l m = (Ok bs, m') →
  m' = m
  ∧ map booking_transactionHash bs = map transactionHash l
  ∧ Forall guest_data_found bs.
Proof.
  induction l as [|e l IH]; simpl; intros m bs m'.
  - unfold ret. intros H. inversion H; subst. auto.
  - unfold bind at 1.
    destruct (booking_of e m) as [[b|err] m1] eqn:Eb; [|discriminate].
    apply booking_of_event in Eb as (-> & Htx & Hg).
    unfold bind at 1.
    destruct (mapM booking_of l m) as [[bs0|err] m2] eqn:E; [|discriminate].
    apply IH in E as (-> & Hmap & Hall).
    unfold ret. intros H. inversion H; subst. simpl.
    split; [reflexivity|]. split; [now rewrite Htx, Hmap | now constructor].
Qed.

Lemma bookings_of_hotel_events fromBlock address m bs m' :
  bookings_of_hotel fromBlock address m = (Ok bs, m') →
  map booking_transactionHash bs = map transactionHash (events "Book" fromBlock address)
  ∧ Forall guest_data_found bs.
Proof.
  unfold bookings_of_hotel, events, bind, lift, modify.
  destruct (getInstance address) as [hotel|err]; [|discriminate].
  destruct (getPastEvents hotel "Book" fromBlock) as [bo|err]; [|discriminate].
  destruct (getPastEvents hotel "CallStarted" fromBlock) as [st|err]; [|discriminate].
  destruct (getPastEvents hotel "CallFinish" fromBlock) as [fi|err]; [|discriminate].
  intros H. apply bookings_of_events in H as (_ & Hmap & Hall). auto.
Qed.

Lemma bookings_of_hotels fromBlock hotels : ∀ m per m',
  mapM (bookings_of_hotel fromBlock) hotels m = (Ok per, m') →
  map booking_transactionHash (concat per)
  = flat_map (fun a => map transactionHash (events "Book" fromBlock a)) hotels
  ∧ Forall guest_data_found (concat per).
Proof.
  induction hotels as [|a hotels IH]; simpl; intros m per m'.
  - unfold ret. intros H. inversion H; subst. simpl. auto.
  - unfold bind at 1.
    destruct (bookings_of_hotel fromBlock a m) as [[bs|err] m1] eqn:Ea; [|discriminate].
    apply bookings_of_hotel_events in Ea as [Hmap Hall].
    unfold bind at 1.
    destruct (mapM (bookings_of_hotel fromBlock) hotels m1) as [[per0|err] m2] eqn:E;
      [|discriminate].
    apply IH in E as [Hmap' Hall'].
    unfold ret. intros H. inversion H; subst. simpl.
    split; [now rewrite map_app, Hmap, Hmap' | now apply Forall_app].
Qed.

(** The bookings of hotels.  For no hotel at all the answer is the empty
    list, and one address is an array of that address.  Whenever the query
    returns, it returns one booking for every [Book] event, hotel by hotel
    in the order asked and within a hotel in the order of the events, each
    with the transaction hash of its event; and the guest data of a booking
    are the guest data of that transaction whenever they can be read from
    it. *)
Theorem getBookings_lists_book_events (fromBlock : Val) :
  getBookings (Many []) fromBlock = Ok []
  ∧ (∀ address,
       getBookings (One address) fromBlock = getBookings (Many [address]) fromBlock)
  ∧ (∀ _addresses bookings,
       getBookings _addresses fromBlock = Ok bookings →
       map booking_transactionHash bookings
       = flat_map (fun a => map transactionHash (events "Book" fromBlock a))
                  (hotelsToQuery _addresses)
       ∧ Forall guest_data_found bookings).
Proof.
  split; [reflexivity|]. split; [reflexivity|].
  intros _addresses bookings. unfold getBookings.
  destruct (hotelsToQuery _addresses) as [|a hotels] eqn:Eh.
  - intros H. inversion H; subst. simpl. auto.
  - unfold bind.
    destruct (mapM (bookings_of_hotel fromBlock) (a :: hotels) []) as [[per|err] m1] eqn:E;
      [|discriminate].
    unfold ret. simpl. intros H. inversion H; subst.
    apply (bookings_of_hotels fromBlock (a :: hotels) _ _ _ E).
Qed.

End History.

End BookingData.

(** ** [RemotelyBackedDataset] *)

Module RemotelyBackedDataset.

Inductive LifecycleState : Type := NotDeployed | Deployed | Obsolete.

#[global] Instance LifecycleState_eq_dec : EqDecision LifecycleState.
Proof. solve_decision. Defined.

(** Modelled from the spec: the Field Binding of section 3 (the source of
    remotely-backed-dataset.js is not in the tree).  The [remoteGetter] is
    required and is the capability the owning entity runs for the field's
    name; a [remoteSetter] is known by its identity. *)
Record FieldBinding : Type :=
  { remoteSetter : option string;
    cachedValue : option Val;
    isDirty : bool }.

(** Modelled from the spec: the Remotely-Backed Dataset of section 3, a
    mapping from field names (in binding order) to Field Bindings, and the
    lifecycle state. *)
Record Dataset : Type :=
  { fields : list (string * FieldBinding);
    lifecycleState : LifecycleState }.

Fixpoint lookup (name : string) (fs : list (string * FieldBinding)) : option FieldBinding :=
  match fs with
  | [] => None
  | (n, fb) :: rest => if String.eqb n name then Some fb else lookup name rest
  end.

(** A name that was never bound gets a binding without setter when it is
    first stored to. *)
Definition unbound : FieldBinding :=
  {| remoteSetter := None; cachedValue := None; isDirty := false |}.

Fixpoint update (name : string) (f : FieldBinding → FieldBinding)
    (fs : list (string * FieldBinding)) : list (string * FieldBinding) :=
  match fs with
  | [] => [(name, f unbound)]
  | (n, fb) :: rest =>
      if String.eqb n name then (n, f fb) :: rest else (n, fb) :: update name f rest
  end.

Definition cached (ds : Dataset) (name : string) : option Val :=
  match lookup name (fields ds) with
  | Some fb => cachedValue fb
  | None => None
  end.

Definition dirty (ds : Dataset) (name : string) : bool :=
  match lookup name (fields ds) with
  | Some fb => isDirty fb
  | None => false
  end.

(** Modelled from the spec: [createInstance ()]; constructing a dataset
    performs no remote call and starts in [NotDeployed] (section 4.1). *)
Definition createInstance : Dataset :=
  {| fields := []; lifecycleState := NotDeployed |}.

(** Modelled from the spec: [bindProperties ({fields}, bindTo)], one Field
    Binding per declared field, unresolved and clean. *)
Definition bindProperties (decls : list (string * option string)) (ds : Dataset) : Dataset :=
  {| fields := map (fun d => (fst d, {| remoteSetter := snd d;
                                         cachedValue := None;
                                         isDirty := false |})) decls;
     lifecycleState := lifecycleState ds |}.

(** Modelled from the spec: the transitions of section 4.1.  There is no
    transition out of [Obsolete], and none from [NotDeployed] to [Obsolete]. *)
Definition markDeployed (ds : Dataset) : Dataset :=
  {| fields := fields ds;
     lifecycleState := match lifecycleState ds with
                       | NotDeployed => Deployed
                       | st => st
                       end |}.

(** Modelled from the spec: [markObsolete ()], the transition from
    [Deployed] to [Obsolete] of section 4.1. *)
Definition markObsolete (ds : Dataset) : Dataset :=
  {| fields := fields ds;
     lifecycleState := match lifecycleState ds with
                       | Deployed => Obsolete
                       | st => st
                       end |}.

(** Modelled from the spec: [isDeployed ()], the remote record exists. *)
Definition isDeployed (ds : Dataset) : bool :=
  bool_decide (lifecycleState ds = Deployed).

(** Modelled from the spec: what the expression [this.<name>] evaluates to
    for a bound field, the accessors themselves being part of the missing
    dataset.  It is the cached value itself, or the promise of a read that
    is yet to settle (section 5: reads are asynchronous tasks; the entities
    type their bound fields [Promise<?string> | ?string]). *)
Inductive PropertyValue : Type :=
| Settled (v : Val)
| Pending.

(** Modelled from the spec: the synchronous part of Read (section 4.2).  A
    present [cachedValue] is returned as it is; anything else (a fetch, or a
    read that will fail for the lifecycle state) is a promise. *)
Definition property (ds : Dataset) (name : string) : PropertyValue :=
  match lifecycleState ds with
  | Obsolete => Pending
  | _ => match cached ds name with
         | Some v => Settled v
         | None => Pending
         end
  end.

(** [!!this.<name>]: a promise is an object, hence truthy. *)
Definition property_truthy (pv : PropertyValue) : bool :=
  match pv with Settled v => truthy v | Pending => true end.

(** [v === this.<name>]: a promise made by the read is no value the caller
    holds. *)
Definition property_strict_eq (v : Val) (pv : PropertyValue) : bool :=
  match pv with Settled cur => strict_eq v cur | Pending => false end.

(** Modelled from the spec: [cachedValue] becomes [v] (sections 3 and 4.2);
    a local write also marks the field dirty. *)
Definition set_cache (name : string) (v : Val) (mark_dirty : bool) (ds : Dataset) : Dataset :=
  {| fields := update name (fun fb => {| remoteSetter := remoteSetter fb;
                                          cachedValue := Some v;
                                          isDirty := mark_dirty || isDirty fb |})
                      (fields ds);
     lifecycleState := lifecycleState ds |}.

Section Operations.

(** The state of the owning entity; [remoteGetter name] is the capability
    bound to the field [name]. *)
Variable S : Type.
Variable remoteGetter : string → M S Val.

Definition wrap (k : ErrorKind) (cause : Error) : Error :=
  mkError k (message cause).

(** Modelled from the spec: Read (name) of section 4.2, awaited.  After
    [markObsolete] every read fails (sections 4.1 and 8); a cached value is
    returned without a remote call; otherwise the getter is invoked when
    [Deployed] (its value cached on success, nothing cached on failure), and
    the read fails with [NotDeployedError] when [NotDeployed].  The dataset
    is passed in and handed back with the value. *)
Definition read (name : string) (ds : Dataset) : M S (Val * Dataset) :=
  match lifecycleState ds with
  | Obsolete => throw (mkError ObsoleteRecordError "record was destroyed")
  | st =>
      match cached ds name with
      | Some v => ret (v, ds)
      | None =>
          match st with
          | Deployed =>
              v <~ catch (remoteGetter name)
                         (fun cause => throw (wrap RemoteDataReadError cause)) ;;
              ret (v, set_cache name v false ds)
          | _ => throw (mkError NotDeployedError "record is not deployed")
          end
      end
  end.

End Operations.

(** Modelled from the spec: Write (name, value) of section 4.2.  It fails
    when [Obsolete]; otherwise the value is cached and the field marked
    dirty, with no remote call. *)
Definition write (name : string) (v : Val) (ds : Dataset) : result Dataset :=
  match lifecycleState ds with
  | Obsolete => Throw (mkError ObsoleteRecordError "record was destroyed")
  | _ => Ok (set_cache name v true ds)
  end.

(** *** Commit *)

(** The dirty name/value pairs handed to one setter. *)
Definition Payload : Type := list (string * Val).

Fixpoint add_to_group (setter : string) (entry : string * Val)
    (groups : list (string * Payload)) : list (string * Payload) :=
  match groups with
  | [] => [(setter, [entry])]
  | (s, es) :: rest =>
      if String.eqb s setter then (s, es ++ [entry]) :: rest
      else (s, es) :: add_to_group setter entry rest
  end.

(** Modelled from the spec: the grouping step of Commit (section 4.2).
    Every dirty field that has a setter joins the group of that setter's
    identity; fields without a setter are skipped. *)
Fixpoint group_dirty (fs : list (string * FieldBinding))
    (groups : list (string * Payload)) : list (string * Payload) :=
  match fs with
  | [] => groups
  | (name, fb) :: rest =>
      match isDirty fb, remoteSetter fb, cachedValue fb with
      | true, Some setter, Some v => group_dirty rest (add_to_group setter (name, v) groups)
      | _, _, _ => group_dirty rest groups
      end
  end.

(** Modelled from the spec: the groups of a Commit, one per distinct
    setter, in the order the setters first occur among the fields. *)
Definition dirty_groups (ds : Dataset) : list (string * Payload) :=
  group_dirty (fields ds) [].

Section Commit.

Variable S : Type.
(** The caller's options and the prepared-operation descriptors are opaque
    to the dataset. *)
Variables (WriteOptions Descriptor : Type).
(** [invoke setter payload options] runs the setter of that identity. *)
Variable invoke : string → Payload → WriteOptions → M S Descriptor.

(** Modelled from the spec: Commit ([updateRemoteData]) of section 4.2.  It
    fails fast with [NotDeployedError] unless the state is [Deployed];
    otherwise each distinct setter is invoked once with its group, and each
    invocation yields one descriptor.  A failing setter is a write failure
    and leaves the dirty flags as they are. *)
Definition updateRemoteData (options : WriteOptions) (ds : Dataset)
    : M S (list Descriptor) :=
  if isDeployed ds then
    mapM (fun g => catch (invoke (fst g) (snd g) options)
                         (fun cause => throw (wrap RemoteWriteError cause)))
         (dirty_groups ds)
  else throw (mkError NotDeployedError "record is not deployed").

End Commit.

(** Modelled from the spec: after a setter succeeded (signalled by the
    caller), the fields it covers are clean. *)
Definition markClean (setter : string) (ds : Dataset) : Dataset :=
  {| fields := map (fun nfb =>
                      if bool_decide (remoteSetter (snd nfb) = Some setter)
                      then (fst nfb, {| remoteSetter := remoteSetter (snd nfb);
                                        cachedValue := cachedValue (snd nfb);
                                        isDirty := false |})
                      else nfb) (fields ds);
     lifecycleState := lifecycleState ds |}.

(** *** The cache *)

Lemma lookup_update_eq name f fs :
  lookup name (update name f fs)
  = Some (f (match lookup name fs with Some fb => fb | None => unbound end)).
Proof.
  induction fs as [|[n fb] rest IH]; simpl.
  - now rewrite String.eqb_refl.
  - destruct (String.eqb n name) eqn:E; simpl; rewrite E; [reflexivity | exact IH].
Qed.

Lemma lookup_update_ne name other f fs :
  other ≠ name → lookup other (update name f fs) = lookup other fs.
Proof.
  intros Hne. induction fs as [|[n fb] rest IH]; simpl.
  - destruct (String.eqb_spec name other); [congruence | reflexivity].
  - destruct (String.eqb_spec n name) as [->|Hn]; simpl.
    + destruct (String.eqb_spec name other); [congruence | reflexivity].
    + destruct (String.eqb n other); [reflexivity | exact IH].
Qed.

Lemma cached_set_cache name v d ds : cached (set_cache name v d ds) name = Some v.
Proof. unfold cached, set_cache. simpl. now rewrite lookup_update_eq. Qed.

Lemma cached_set_cache_ne name other v d ds :
  other ≠ name → cached (set_cache name v d ds) other = cached ds other.
Proof. intros H. unfold cached, set_cache. simpl. now rewrite lookup_update_ne. Qed.

Lemma dirty_set_cache name v ds : dirty (set_cache name v true ds) name = true.
Proof. unfold dirty, set_cache. simpl. now rewrite lookup_update_eq. Qed.

Lemma write_ok name v ds ds' :
  write name v ds = Ok ds' →
  lifecycleState ds ≠ Obsolete ∧ ds' = set_cache name v true ds.
Proof.
  unfold write. destruct (lifecycleState ds); intros H; inversion H; split; congruence.
Qed.

Lemma property_settled ds name v :
  lifecycleState ds ≠ Obsolete →
  (property ds name = Settled v ↔ cached ds name = Some v).
Proof.
  intros Hl. unfold property.
  destruct (lifecycleState ds); [| |congruence];
    destruct (cached ds name); split; intros H; inversion H; reflexivity.
Qed.

(** *** The groups of a commit *)

Lemma add_to_group_keys setter entry groups x :
  In x (map fst (add_to_group setter entry groups))
  ↔ x = setter ∨ In x (map fst groups).
Proof.
  induction groups as [|[s es] rest IH]; simpl.
  - split; [intros [H|[]]; auto | intros [H|[]]; auto].
  - destruct (String.eqb_spec s setter) as [->|Hne]; simpl.
    + split; [intros [H|H]; auto | intros [H|[H|H]]; auto].
    + rewrite IH. split; [intros [H|[H|H]]; auto | intros [H|[H|H]]; auto].
Qed.

Lemma add_to_group_distinct setter entry groups :
  List.NoDup (map fst groups) → List.NoDup (map fst (add_to_group setter entry groups)).
Proof.
  induction groups as [|[s es] rest IH]; simpl; intros Hnd.
  - constructor; [intros []|constructor].
  - destruct (String.eqb_spec s setter) as [->|Hne]; simpl; [exact Hnd|].
    inversion Hnd as [|? ? Hnotin Hrest]; subst. constructor.
    + rewrite add_to_group_keys. intros [H|H]; [congruence | contradiction].
    + now apply IH.
Qed.

Lemma group_dirty_distinct fs : ∀ groups,
  List.NoDup (map fst groups) → List.NoDup (map fst (group_dirty fs groups)).
Proof.
  induction fs as [|[name fb] rest IH]; simpl; intros groups Hnd; [exact Hnd|].
  destruct (isDirty fb), (remoteSetter fb), (cachedValue fb); auto.
  apply IH. now apply add_to_group_distinct.
Qed.

(** Setter batching: no setter has two groups, so a commit invokes each
    setter at most once. *)
Lemma dirty_groups_distinct ds : List.NoDup (map fst (dirty_groups ds)).
Proof. apply group_dirty_distinct. constructor. Qed.

Definition covered (setter : string) (entry : string * Val)
    (groups : list (string * Payload)) : Prop :=
  ∃ payload, In (setter, payload) groups ∧ In entry payload.

Lemma add_to_group_covers setter entry groups :
  covered setter entry (add_to_group setter entry groups).
Proof.
  induction groups as [|[s es] rest IH]; simpl.
  - exists [entry]. simpl. auto.
  - destruct (String.eqb_spec s setter) as [->|Hne].
    + exists (es ++ [entry]). split; [now left|]. apply in_or_app. right. now left.
    + destruct IH as (payload & Hin & He). exists payload. split; [now right | exact He].
Qed.

Lemma add_to_group_keeps setter entry groups s0 e0 :
  covered s0 e0 groups → covered s0 e0 (add_to_group setter entry groups).
Proof.
  intros (payload & Hin & He).
  induction groups as [|[s es] rest IH]; simpl; [contradiction|].
  destruct Hin as [Heq|Hin].
  - inversion Heq; subst. destruct (String.eqb_spec s0 setter) as [->|Hne].
    + exists (payload ++ [entry]). split; [now left|]. apply in_or_app. now left.
    + exists payload. split; [now left | exact He].
  - destruct (String.eqb_spec s setter) as [->|Hne].
    + exists payload. split; [now right | exact He].
    + destruct (IH Hin) as (payload' & Hin' & He'). exists payload'.
      split; [now right | exact He'].
Qed.

Lemma group_dirty_keeps fs : ∀ groups s0 e0,
  covered s0 e0 groups → covered s0 e0 (group_dirty fs groups).
Proof.
  induction fs as [|[name fb] rest IH]; simpl; intros groups s0 e0 H; [exact H|].
  destruct (isDirty fb), (remoteSetter fb), (cachedValue fb); auto.
  apply IH. now apply add_to_group_keeps.
Qed.

(** Every dirty field that has a setter is in the payload of that setter's
    group. *)
Lemma dirty_groups_cover ds name fb setter v :
  In (name, fb) (fields ds) →
  isDirty fb = true → remoteSetter fb = Some setter → cachedValue fb = Some v →
  covered setter (name, v) (dirty_groups ds).
Proof.
  unfold dirty_groups. generalize (@nil (string * Payload)).
  induction (fields ds) as [|[n b] rest IH]; simpl; intros groups Hin Hd Hs Hv;
    [contradiction|].
  destruct Hin as [Heq|Hin].
  - inversion Heq; subst. rewrite Hd, Hs, Hv.
    apply group_dirty_keeps, add_to_group_covers.
  - destruct (isDirty b), (remoteSetter b), (cachedValue b); now apply IH.
Qed.

(** Two fields bound to one setter, both written: one group with both. *)
Example shared_setter_one_group :
  ∀ ds1 ds2,
    write "_endpoint" (VStr "https://airline.example/ndc")
          (markDeployed (bindProperties [ ("_endpoint", Some "editInfo");
                                          ("_manager", None);
                                          ("_token", Some "editInfo") ]
                                        createInstance)) = Ok ds1 →
    write "_token" (VStr "LIF") ds1 = Ok ds2 →
    dirty_groups ds2
    = [ ("editInfo", [ ("_endpoint", VStr "https://airline.example/ndc");
                       ("_token", VStr "LIF") ]) ].
Proof.
  intros ds1 ds2 H1 H2. inversion H1; subst. inversion H2; subst. reflexivity.
Qed.

End RemotelyBackedDataset.

(** ** The collaborators of the on-chain entities *)

(** The calls of the index contract the wrappers encode. *)
Inductive Tx : Type :=
| CallHotel (hotel : Val) (dataUri : Val)
| RegisterHotel (dataUri : Val)
| DeleteHotel (hotel : Val)
| CallAirline (airline : Val) (endpoint : Val)
| RegisterAirline (endpoint : Val)
| TransferAirline (airline : Val) (newManager : Val)
| DeleteAirline (airline : Val).

(** What an entity asks of [web3Contracts], [web3Utils], a contract or the
    wallet. *)
Inductive Request : Type :=
| GetHotelInstance (address : Val)
| GetAirlineInstance (address : Val)
| Call (contract : Val) (method : string)
| EstimateGas (tx : Tx) (sender : Val)
| AddressNonce (account : Val)
| FutureAddress (creator : Val) (nonce : Val)
| SignAndSend (tx : Tx) (sender : Val) (nonce : Val) (gas : Val)
| Await (promise : nat).

(** What can be observed of a run. *)
Inductive Event : Type :=
| Remote (r : Request)
| SetterInvoked (setter : string)
| PointerCreated (uri : Val)
| Downloaded (uri : string).

#[global] Instance Tx_eq_dec : EqDecision Tx.
Proof. solve_decision. Defined.
#[global] Instance Request_eq_dec : EqDecision Request.
Proof. solve_decision. Defined.
#[global] Instance Event_eq_dec : EqDecision Event.
Proof. solve_decision. Defined.

(** The requests that only read: instantiating a contract wrapper and
    calling a getter of a contract. *)
Definition is_read (e : Event) : bool :=
  match e with
  | Remote (GetHotelInstance _) | Remote (GetAirlineInstance _) | Remote (Call _ _) => true
  | _ => false
  end.

(** How often the contract-instantiation collaborator was called. *)
Definition instantiations (tr : list Event) : nat :=
  length (List.filter (fun e => match e with
                                | Remote (GetHotelInstance _)
                                | Remote (GetAirlineInstance _) => true
                                | _ => false
                                end) tr).

(** How many Storage Pointers were constructed. *)
Definition pointers_created (tr : list Event) : nat :=
  length (List.filter (fun e => match e with PointerCreated _ => true | _ => false end) tr).

(** The setters that were invoked and the transactions handed to the
    wallet. *)
Definition writes (tr : list Event) : list Event :=
  List.filter (fun e => match e with
                        | SetterInvoked _ | Remote (SignAndSend _ _ _ _)
                        | Remote (EstimateGas _ _) => true
                        | _ => false
                        end) tr.

Lemma instantiations_app tr1 tr2 :
  instantiations (tr1 ++ tr2) = instantiations tr1 + instantiations tr2.
Proof. unfold instantiations. now rewrite List.filter_app, length_app. Qed.

Lemma pointers_created_app tr1 tr2 :
  pointers_created (tr1 ++ tr2) = pointers_created tr1 + pointers_created tr2.
Proof. unfold pointers_created. now rewrite List.filter_app, length_app. Qed.

Lemma writes_app tr1 tr2 : writes (tr1 ++ tr2) = writes tr1 ++ writes tr2.
Proof. unfold writes. now rewrite List.filter_app. Qed.

Lemma reads_create_no_pointer tr :
  forallb is_read tr = true → pointers_created tr = 0.
Proof.
  induction tr as [|e tr IH]; simpl; [reflexivity|].
  intros H. apply andb_true_iff in H as [He Htr].
  unfold pointers_created in *. simpl.
  destruct e as [r| | |]; try discriminate. now apply IH.
Qed.

Lemma reads_write_nothing tr : forallb is_read tr = true → writes tr = [].
Proof.
  induction tr as [|e tr IH]; simpl; [reflexivity|].
  intros H. apply andb_true_iff in H as [He Htr].
  unfold writes in *. simpl.
  destruct e as [[]| | |]; try discriminate; now apply IH.
Qed.

(** A computation on a part [T] of the state run on the whole state. *)
Definition zoom {S T A} (get : S → T) (put : T → S → S) (c : M T A) : M S A :=
  fun s => match c (get s) with (r, t) => (r, put t s) end.

(** ** [StoragePointer] *)

Module StoragePointer.

(** The parsed content of an off-chain document. *)
Inductive Json : Type :=
| JNull
| JBool (b : bool)
| JNum (z : Z)
| JStr (s : string)
| JArr (items : list Json)
| JObj (members : list (string * Json)).

Definition Document : Type := list (string * Json).

(** Modelled from the spec: a field descriptor of a pointer's schema
    (section 3), as the entities declare it: [{name, isStoragePointer,
    fields}], a plain field name being a descriptor that is no pointer. *)
Inductive FieldDesc : Type :=
| Field (name : string) (isStoragePointer : bool) (fields : list FieldDesc).

Definition plain (name : string) : FieldDesc := Field name false [].

Definition field_name (d : FieldDesc) : string :=
  match d with Field n _ _ => n end.

Definition is_pointer (d : FieldDesc) : bool :=
  match d with Field _ b _ => b end.

(** Modelled from the spec: the Storage Pointer of section 3 (the source of
    storage-pointer.js is not in the tree). *)
Record Pointer : Type :=
  { ref : Val;
    schema : list FieldDesc;
    resolvedDocument : option Document }.

(** Modelled from the spec: [createInstance (uri, fields)]; no remote call,
    nothing resolved. *)
Definition createInstance (uri : Val) (fields : list FieldDesc) : Pointer :=
  {| ref := uri; schema := fields; resolvedDocument := None |}.

(** Modelled from the spec: the scheme of [scheme://locator], what stands
    before the first [://] (section 6). *)
Definition scheme_of (uri : string) : option string :=
  match String.index 0 "://" uri with
  | Some (S n) => Some (String.substring 0 (S n) uri)
  | _ => None
  end.

(** Modelled from the spec: the raw value of a declared pointer field, when
    it is a well-formed URI (sections 4.3 and 7). *)
Definition as_uri (v : Json) : option string :=
  match v with
  | JStr s => match scheme_of s with Some _ => Some s | None => None end
  | _ => None
  end.

(** Modelled from the spec: the output of [toPlainObject] (section 4.3), a
    raw value, a pointer left unresolved ([{ref, contents}] with nothing
    fetched), or a pointer with its contents inlined. *)
Inductive Plain : Type :=
| PValue (v : Json)
| PLazy (ref : string)
| PDoc (ref : string) (contents : list (string * Plain)).

Fixpoint assoc {A} (k : string) (l : list (string * A)) : option A :=
  match l with
  | [] => None
  | (n, a) :: rest => if String.eqb n k then Some a else assoc k rest
  end.

(** The node of a plain object at a path of field names. *)
Fixpoint at_path (t : Plain) (path : list string) : option Plain :=
  match path with
  | [] => Some t
  | k :: path' =>
      match t with
      | PDoc _ contents =>
          match assoc k contents with
          | Some t' => at_path t' path'
          | None => None
          end
      | _ => None
      end
  end.

(** [path.split ('.')] *)
Fixpoint split_dots (s : string) (segment : string) : list string :=
  match s with
  | EmptyString => [segment]
  | String c rest =>
      if Ascii.eqb c "."%char then segment :: split_dots rest ""
      else split_dots rest (segment ++ String c "")%string
  end.

Definition parse_paths (resolvedFields : option (list string)) : option (list (list string)) :=
  match resolvedFields with
  | Some l => Some (map (fun p => split_dots p "") l)
  | None => None
  end.

(** What the requested paths ask for a pointer field: leave it, resolve
    everything below it, or go on with the remainders of the paths. *)
Inductive Selection : Type :=
| Leave
| Everything
| Below (paths : list (list string)).

(** The remainders of the paths that start with the field [k]. *)
Fixpoint remainders (k : string) (paths : list (list string)) : list (list string) :=
  match paths with
  | [] => []
  | [] :: rest => remainders k rest
  | (h :: t) :: rest =>
      if String.eqb h k then t :: remainders k rest else remainders k rest
  end.

Definition ends_here (paths : list (list string)) : bool :=
  existsb (fun p => match p with [] => true | _ => false end) paths.

(** Modelled from the spec: the choice made at one declared pointer field
    by Selective materialization (section 4.3).  Omitted paths resolve every
    pointer; a pointer no path goes through is left; the last named segment
    of a path resolves everything below. *)
Definition select (paths : option (list (list string))) (k : string) : Selection :=
  match paths with
  | None => Everything
  | Some ps =>
      match remainders k ps with
      | [] => Leave
      | rs => if ends_here rs then Everything else Below rs
      end
  end.

Definition paths_of (sel : Selection) : option (list (list string)) :=
  match sel with
  | Below rs => Some rs
  | _ => None
  end.

Section Resolution.

(** The adapter selected for a URI's scheme, and its download (section 6). *)
Variable download : string → result Document.

Definition fetch (uri : string) : M (list Event) Document :=
  modify (fun tr => tr ++ [Downloaded uri]) ;;;
  catch (lift (download uri))
        (fun cause => throw (mkError RemoteDataReadError
                               (uri ++ ": " ++ message cause))).

(** Modelled from the spec: [resolve ()] of section 4.3; the document is
    downloaded at the first call and memoized in the pointer. *)
Definition resolve (p : Pointer) : M (list Event) (Document * Pointer) :=
  match resolvedDocument p with
  | Some doc => ret (doc, p)
  | None =>
      match ref p with
      | VStr uri =>
          doc <~ fetch uri ;;
          ret (doc, {| ref := ref p; schema := schema p; resolvedDocument := Some doc |})
      | _ => throw (mkError RemoteDataReadError "no adapter for a missing uri")
      end
  end.

(** Modelled from the spec: what Selective materialization (section 4.3)
    makes of one entry [k: v] of a document whose declared fields are [ds],
    [below] being the materialization of a nested document.  Undeclared
    fields and declared plain fields pass through; a declared pointer field
    whose raw value is no URI is a [SchemaResolutionError]. *)
Fixpoint entry (below : FieldDesc → option (list (list string)) → string → M (list Event) Plain)
    (paths : option (list (list string))) (k : string) (v : Json)
    (ds : list FieldDesc) : M (list Event) (string * Plain) :=
  match ds with
  | [] => ret (k, PValue v)
  | d :: ds' =>
      if String.eqb (field_name d) k then
        if is_pointer d then
          match as_uri v with
          | None => throw (mkError SchemaResolutionError k)
          | Some u =>
              match select paths k with
              | Leave => ret (k, PLazy u)
              | sel => t <~ below d (paths_of sel) u ;; ret (k, t)
              end
          end
        else ret (k, PValue v)
      else entry below paths k v ds'
  end.

(** Modelled from the spec: Selective materialization
    ([toPlainObject (resolvedPaths)]) of section 4.3, over the document at
    [uri] whose declared fields are those of [fd]. *)
Fixpoint materialize (fd : FieldDesc) (paths : option (list (list string)))
    (uri : string) {struct fd} : M (list Event) Plain :=
  match fd with
  | Field _ _ declared =>
      doc <~ fetch uri ;;
      contents <~ mapM (fun kv : string * Json =>
                          entry materialize paths (fst kv) (snd kv) declared) doc ;;
      ret (PDoc uri contents)
  end.

(** Modelled from the spec: [pointer.toPlainObject (resolvedFields)], the
    materialization of the pointer's own document. *)
Definition toPlainObject (p : Pointer) (resolvedFields : option (list string))
    : M (list Event) Plain :=
  match ref p with
  | VStr uri => materialize (Field "" true (schema p)) (parse_paths resolvedFields) uri
  | _ => throw (mkError RemoteDataReadError "no adapter for a missing uri")
  end.

(** *** Selective materialization, by paths *)

(** In the words of the spec (section 4.3): a nested pointer is inlined
    when it lies on a requested path, or below the last named segment of
    one; with the paths omitted every pointer is.  [path] is the position of
    the pointer, from the root of the document. *)
Definition requested (paths : option (list (list string))) (path : list string) : Prop :=
  match paths with
  | None => True
  | Some ps =>
      ∃ r, In r ps ∧ r ≠ [] ∧ (path `prefix_of` r ∨ r `prefix_of` path)
  end.

(** The descriptor a field is declared under (the first of its name), when
    it declares the field a pointer. *)
Fixpoint declared_pointer (k : string) (ds : list FieldDesc) : option FieldDesc :=
  match ds with
  | [] => None
  | d :: ds' =>
      if String.eqb (field_name d) k
      then (if is_pointer d then Some d else None)
      else declared_pointer k ds'
  end.

Definition declared (fd : FieldDesc) : list FieldDesc :=
  match fd with Field _ _ ds => ds end.

(** In the words of the spec (section 4.3): the plain object that stands
    for the document at [uri], found at the position [pos] of the whole
    output, when [root] are the requested paths.  It holds the entries of
    the downloaded document, in their order.  An entry that is not declared
    a pointer is the raw value.  An entry that is declared a pointer is, if
    its position is requested, the plain object of the document at its URI,
    and otherwise the pointer left unresolved. *)
Inductive inlined (root : option (list (list string)))
    : list string → FieldDesc → string → Plain → Prop :=
| inlined_document pos fd uri doc contents :
    download uri = Ok doc →
    inlined_entries root pos fd doc contents →
    inlined root pos fd uri (PDoc uri contents)
with inlined_entries (root : option (list (list string)))
    : list string → FieldDesc → Document → list (string * Plain) → Prop :=
| no_entry pos fd : inlined_entries root pos fd [] []
| raw_entry pos fd k v doc contents :
    declared_pointer k (declared fd) = None →
    inlined_entries root pos fd doc contents →
    inlined_entries root pos fd ((k, v) :: doc) ((k, PValue v) :: contents)
| left_entry pos fd k v d u doc contents :
    declared_pointer k (declared fd) = Some d →
    as_uri v = Some u →
    ¬ requested root (pos ++ [k]) →
    inlined_entries root pos fd doc contents →
    inlined_entries root pos fd ((k, v) :: doc) ((k, PLazy u) :: contents)
| inlined_entry pos fd k v d u t doc contents :
    declared_pointer k (declared fd) = Some d →
    as_uri v = Some u →
    requested root (pos ++ [k]) →
    inlined root (pos ++ [k]) d u t →
    inlined_entries root pos fd doc contents →
    inlined_entries root pos fd ((k, v) :: doc) ((k, t) :: contents).

Lemma declared_pointer_In k ds d : declared_pointer k ds = Some d → In d ds.
Proof.
  induction ds as [|d0 ds IH]; simpl; [discriminate|].
  destruct (String.eqb (field_name d0) k).
  - destruct (is_pointer d0); [|discriminate]. intros H. inversion H. now left.
  - intros H. right. now apply IH.
Qed.

Lemma In_remainders k r ps : In r (remainders k ps) ↔ In (k :: r) ps.
Proof.
  induction ps as [|[|h t] ps IH]; simpl.
  - tauto.
  - rewrite IH. split; [auto|]. intros [H|H]; [discriminate | exact H].
  - destruct (String.eqb_spec h k) as [->|Hne]; simpl; rewrite IH.
    + split; intros [H|H]; auto; left; congruence.
    + split; [auto|]. intros [H|H]; [congruence | exact H].
Qed.

Lemma ends_here_In rs : ends_here rs = true ↔ In [] rs.
Proof.
  unfold ends_here. rewrite existsb_exists. split.
  - intros ([|] & Hin & H); [exact Hin | discriminate].
  - intros H. exists []. auto.
Qed.

(** Whether the position [k :: rest] is requested is decided by the choice
    made at the field [k]. *)
Lemma requested_cons paths k rest :
  requested paths (k :: rest) ↔
  match select paths k with
  | Leave => False
  | sel => requested (paths_of sel) rest
  end.
Proof.
  destruct paths as [ps|]; [|simpl; tauto].
  unfold select. destruct (remainders k ps) as [|r0 rs] eqn:Er.
  - cbn [requested]. split; [|tauto]. intros (r & Hin & Hne & Hp).
    destruct r as [|h t]; [congruence|].
    assert (h = k) as ->.
    { destruct Hp as [Hp|Hp]; apply prefix_cons_inv_1 in Hp; congruence. }
    apply In_remainders in Hin. now rewrite Er in Hin.
  - destruct (ends_here (r0 :: rs)) eqn:Ee; cbn [requested paths_of].
    + split; [intros _; exact I|]. intros _. apply ends_here_In in Ee.
      rewrite <- Er in Ee. apply In_remainders in Ee.
      exists [k]. split; [exact Ee|]. split; [discriminate|].
      right. apply prefix_cons, prefix_nil.
    + assert (Hnn : ∀ r, In r (r0 :: rs) → r ≠ []).
      { intros r Hin ->. apply ends_here_In in Hin. congruence. }
      split.
      * intros (r & Hin & Hne & Hp). destruct r as [|h t]; [congruence|].
        assert (h = k) as ->.
        { destruct Hp as [Hp|Hp]; apply prefix_cons_inv_1 in Hp; congruence. }
        apply In_remainders in Hin. rewrite Er in Hin.
        exists t. split; [exact Hin|]. split; [now apply Hnn|].
        destruct Hp as [Hp|Hp]; apply prefix_cons_inv_2 in Hp; auto.
      * intros (r & Hin & Hne & Hp). exists (k :: r).
        rewrite <- Er in Hin. apply In_remainders in Hin.
        split; [exact Hin|]. split; [discriminate|].
        destruct Hp as [Hp|Hp]; [left|right]; now apply prefix_cons.
Qed.

(** A pointer field is requested exactly when it is not left. *)
Lemma requested_here paths k :
  requested paths [k] ↔ select paths k ≠ Leave.
Proof.
  rewrite requested_cons.
  destruct (select paths k) as [| |rs] eqn:Es.
  - split; [tauto | congruence].
  - split; [discriminate | intros _; exact I].
  - split; [discriminate|]. intros _. cbn [paths_of requested].
    unfold select in Es. destruct paths as [ps|]; [|discriminate].
    destruct (remainders k ps) as [|r0 rs0] eqn:Er; [discriminate|].
    destruct (ends_here (r0 :: rs0)) eqn:Ee; [discriminate|].
    inversion Es; subst. exists r0. split; [now left|]. split.
    + intros ->. assert (In [] ([] :: rs0)) as Hi by now left.
      apply ends_here_In in Hi. congruence.
    + left. apply prefix_nil.
Qed.

Lemma requested_below paths k rest :
  select paths k ≠ Leave →
  (requested paths (k :: rest) ↔ requested (paths_of (select paths k)) rest).
Proof.
  intros Hs. rewrite requested_cons. destruct (select paths k); [congruence|tauto|tauto].
Qed.

(** What the nodes of a plain object say about the requested paths. *)
Definition node_agrees (paths : option (list (list string))) (path : list string)
    (node : Plain) : Prop :=
  match node with
  | PValue _ => True
  | PLazy _ => ¬ requested paths path
  | PDoc _ _ => requested paths path
  end.

Definition selective (paths : option (list (list string))) (uri : string) (t : Plain) : Prop :=
  (∃ contents, t = PDoc uri contents)
  ∧ ∀ path node, path ≠ [] → at_path t path = Some node → node_agrees paths path node.

Lemma FieldDesc_rect' (P : FieldDesc → Prop) :
  (∀ n b ds, Forall P ds → P (Field n b ds)) → ∀ fd, P fd.
Proof.
  intros H. fix IH 1. intros [n b ds]. apply H.
  induction ds as [|d ds IHds]; constructor; [apply IH | exact IHds].
Qed.

Section Entries.

Variable below : FieldDesc → option (list (list string)) → string → M (list Event) Plain.
Variable paths : option (list (list string)).

Lemma entry_cases k v ds : ∀ tr k' t tr',
  entry below paths k v ds tr = (Ok (k', t), tr') →
  k' = k ∧
  (t = PValue v
   ∨ (∃ u, t = PLazy u ∧ select paths k = Leave)
   ∨ (∃ d u tr1 tr2, In d ds ∧ select paths k ≠ Leave
        ∧ below d (paths_of (select paths k)) u tr1 = (Ok t, tr2))).
Proof.
  induction ds as [|d ds IH]; intros tr k' t tr'; simpl.
  - unfold ret. intros H. inversion H. auto.
  - destruct (String.eqb (field_name d) k).
    + destruct (is_pointer d).
      * destruct (as_uri v) as [u|]; [|unfold throw; discriminate].
        destruct (select paths k) as [| |rs] eqn:Es.
        -- unfold ret. intros H. inversion H. split; [reflexivity|].
           right. left. eauto.
        -- unfold bind, ret. cbn [paths_of].
           destruct (below d None u tr) as [[t0|e] tr0] eqn:Eb;
             intros H; inversion H; subst. split; [reflexivity|].
           right. right. exists d, u, tr, tr'. split; [now left|].
           split; [discriminate | exact Eb].
        -- unfold bind, ret. cbn [paths_of].
           destruct (below d (Some rs) u tr) as [[t0|e] tr0] eqn:Eb;
             intros H; inversion H; subst. split; [reflexivity|].
           right. right. exists d, u, tr, tr'. split; [now left|].
           split; [discriminate | exact Eb].
      * unfold ret. intros H. inversion H. auto.
    + intros H. destruct (IH _ _ _ _ H) as [-> Hc]. split; [reflexivity|].
      destruct Hc as [Hc|[Hc|(d' & u & tr1 & tr2 & Hin & Hc)]]; auto.
      right. right. exists d', u, tr1, tr2. split; [now right | exact Hc].
Qed.

Lemma contents_cases ds doc : ∀ tr contents tr' k t,
  mapM (fun kv : string * Json => entry below paths (fst kv) (snd kv) ds) doc tr
  = (Ok contents, tr') →
  assoc k contents = Some t →
  ∃ v tr1 tr2, entry below paths k v ds tr1 = (Ok (k, t), tr2).
Proof.
  induction doc as [|[k0 v0] doc IH]; intros tr contents tr' k t; simpl.
  - unfold ret. intros H. inversion H; subst. discriminate.
  - unfold bind at 1.
    destruct (entry below paths k0 v0 ds tr) as [[[k1 t1]|e] tr1] eqn:Ee; [|discriminate].
    unfold bind at 1.
    destruct (mapM _ doc tr1) as [[rest|e] tr2] eqn:Em; [|discriminate].
    unfold ret. intros H. inversion H; subst. simpl.
    destruct (entry_cases _ _ _ _ _ _ _ Ee) as [-> _].
    destruct (String.eqb_spec k0 k) as [->|Hne].
    + intros Ht. inversion Ht; subst. eauto.
    + intros Ht. eapply IH; eauto.
Qed.

(** One entry, by what the field is declared as. *)
Lemma entry_spec k v ds : ∀ tr k' t tr',
  entry below paths k v ds tr = (Ok (k', t), tr') →
  k' = k ∧
  match declared_pointer k ds with
  | None => t = PValue v
  | Some d =>
      ∃ u, as_uri v = Some u
           ∧ match select paths k with
             | Leave => t = PLazy u
             | sel => below d (paths_of sel) u tr = (Ok t, tr')
             end
  end.
Proof.
  induction ds as [|d ds IH]; intros tr k' t tr'; simpl.
  - unfold ret. intros H. inversion H. auto.
  - destruct (String.eqb (field_name d) k); [|apply IH].
    destruct (is_pointer d).
    + destruct (as_uri v) as [u|]; [|unfold throw; discriminate].
      destruct (select paths k) as [| |rs] eqn:Es.
      * unfold ret. intros H. inversion H. split; [reflexivity|]. exists u. auto.
      * unfold bind, ret. cbn [paths_of].
        destruct (below d None u tr) as [[t0|e] tr0] eqn:Eb;
          intros H; inversion H; subst. split; [reflexivity|]. exists u. auto.
      * unfold bind, ret. cbn [paths_of].
        destruct (below d (Some rs) u tr) as [[t0|e] tr0] eqn:Eb;
          intros H; inversion H; subst. split; [reflexivity|]. exists u. auto.
    + unfold ret. intros H. inversion H. auto.
Qed.

End Entries.

(** Selective materialization inlines a nested pointer exactly when its
    position lies on a requested path. *)
Lemma materialize_selective fd : ∀ paths uri tr t tr',
  materialize fd paths uri tr = (Ok t, tr') → selective paths uri t.
Proof.
  induction fd as [n b ds IH] using FieldDesc_rect'.
  intros paths uri tr t tr'. simpl. unfold bind at 1.
  destruct (fetch uri tr) as [[doc|e] tr1]; [|discriminate].
  unfold bind at 1.
  destruct (mapM _ doc tr1) as [[contents|e] tr2] eqn:Em; [|discriminate].
  unfold ret. intros H. inversion H; subst. split; [eauto|].
  intros [|k rest] node Hne; [congruence|]. simpl.
  destruct (assoc k contents) as [t'|] eqn:Ea; [|discriminate].
  destruct (contents_cases _ _ _ _ _ _ _ _ _ Em Ea) as (v & tr3 & tr4 & He).
  destruct (entry_cases _ _ _ _ _ _ _ _ _ He)
    as [_ [->|[(u & -> & Hs)|(d & u & tr5 & tr6 & Hin & Hs & Hb)]]].
  - destruct rest; simpl; intros Hn; inversion Hn. exact I.
  - destruct rest; simpl; intros Hn; inversion Hn. simpl.
    rewrite requested_cons, Hs. tauto.
  - rewrite Forall_forall in IH.
    destruct (IH d (proj2 (list_elem_of_In _ _) Hin) _ _ _ _ _ Hb) as [[cs ->] Hsub].
    assert (Hiff : ∀ π, requested paths (k :: π)
                        ↔ requested (paths_of (select paths k)) π).
    { intros π. rewrite requested_cons. destruct (select paths k); tauto. }
    destruct rest as [|k2 rest].
    + simpl. intros Hn. inversion Hn; subst. simpl. apply Hiff.
      destruct (select paths k) as [| |rs] eqn:Es; simpl; [congruence|exact I|].
      unfold select in Es. destruct paths as [ps|]; [|discriminate].
      destruct (remainders k ps) as [|r0 rs0] eqn:Er; [discriminate|].
      destruct (ends_here (r0 :: rs0)) eqn:Ee; [discriminate|].
      inversion Es; subst. exists r0. split; [now left|]. split.
      * intros ->. assert (In [] ([] :: rs0)) as Hi by now left.
        apply ends_here_In in Hi. congruence.
      * left. apply prefix_nil.
    + intros Hn. specialize (Hsub (k2 :: rest) node ltac:(discriminate) Hn).
      destruct node; simpl in *; [exact I | now rewrite Hiff | now rewrite Hiff].
Qed.

(** With no paths given no pointer is left unresolved. *)
Lemma materialize_everything fd uri tr t tr' path u :
  materialize fd None uri tr = (Ok t, tr') → at_path t path ≠ Some (PLazy u).
Proof.
  intros H Hn. destruct (materialize_selective _ _ _ _ _ _ H) as [[cs ->] Hsel].
  destruct path as [|k rest]; [discriminate|].
  apply (Hsel (k :: rest) (PLazy u)); [discriminate | exact Hn | exact I].
Qed.

Lemma fetch_ok uri tr doc tr' :
  fetch uri tr = (Ok doc, tr') → download uri = Ok doc.
Proof.
  unfold fetch, bind, modify, catch, lift, throw. simpl.
  destruct (download uri); intros H; now inversion H.
Qed.

(** Selective materialization yields the plain object the spec describes:
    the data of every document on the requested paths is there, a
    requested pointer is inlined and any other is left.  [paths] are the
    paths that remain at the position [pos]. *)
Lemma materialize_inlined root fd : ∀ pos paths uri tr t tr',
  (∀ π, π ≠ [] → requested root (pos ++ π) ↔ requested paths π) →
  materialize fd paths uri tr = (Ok t, tr') →
  inlined root pos fd uri t.
Proof.
  induction fd as [n b ds IH] using FieldDesc_rect'.
  intros pos paths uri tr t tr' Hrel. simpl. unfold bind at 1.
  destruct (fetch uri tr) as [[doc|e] tr1] eqn:Ef; [|discriminate].
  apply fetch_ok in Ef.
  unfold bind at 1.
  destruct (mapM _ doc tr1) as [[contents|e] tr2] eqn:Em; [|discriminate].
  unfold ret. intros H. inversion H; subst t tr'; clear H.
  apply (inlined_document root pos _ uri doc contents Ef).
  clear Ef. revert tr1 contents Em.
  induction doc as [|[k v] doc IHdoc]; intros tr1 contents; simpl.
  - unfold ret. intros H. inversion H. constructor.
  - unfold bind at 1.
    destruct (entry _ paths k v ds tr1) as [[[k1 t1]|e] tr3] eqn:Ee; [|discriminate].
    unfold bind at 1.
    destruct (mapM _ doc tr3) as [[rest|e] tr4] eqn:Er; [|discriminate].
    unfold ret. intros H. inversion H; subst contents tr4; clear H.
    specialize (IHdoc _ _ Er).
    destruct (entry_spec _ _ _ _ _ _ _ _ _ Ee) as [-> Hd].
    destruct (declared_pointer k ds) as [d|] eqn:Ed.
    + destruct Hd as (u & Hu & Hsel).
      pose proof (requested_here paths k) as Hhere.
      rewrite <- (Hrel [k]) in Hhere by discriminate.
      destruct (select paths k) as [| |rs] eqn:Es.
      * subst t1. eapply left_entry; eauto. rewrite Hhere. congruence.
      * eapply inlined_entry; eauto; [apply Hhere; discriminate|].
        rewrite Forall_forall in IH.
        eapply (IH d (proj2 (list_elem_of_In _ _) (declared_pointer_In _ _ _ Ed)));
          [|exact Hsel].
        intros π Hπ. rewrite <- app_assoc. simpl. rewrite (Hrel (k :: π)) by discriminate.
        rewrite requested_below; rewrite Es; [reflexivity | discriminate].
      * eapply inlined_entry; eauto; [apply Hhere; discriminate|].
        rewrite Forall_forall in IH.
        eapply (IH d (proj2 (list_elem_of_In _ _) (declared_pointer_In _ _ _ Ed)));
          [|exact Hsel].
        intros π Hπ. rewrite <- app_assoc. simpl. rewrite (Hrel (k :: π)) by discriminate.
        rewrite requested_below; rewrite Es; [reflexivity | discriminate].
    + subst t1. now apply raw_entry.
Qed.

(** Resolution keeps the pointer's [ref] and [schema], and memoizes. *)
Lemma resolve_ref p tr r tr' :
  resolve p tr = (r, tr') →
  match r with
  | Ok (doc, p') =>
      ref p' = ref p ∧ schema p' = schema p ∧ resolvedDocument p' = Some doc
  | Throw _ => True
  end.
Proof.
  unfold resolve. destruct (resolvedDocument p) as [doc|] eqn:E.
  - unfold ret. intros H. inversion H; subst. auto.
  - destruct (ref p) as [| |uri| | |] eqn:Er;
      try (unfold throw; intros H; inversion H; subst; exact I).
    unfold fetch, bind, modify, catch, lift, ret, throw.
    destruct (download uri); intros H; inversion H; subst; simpl; auto.
Qed.

Lemma resolve_memoized p doc :
  resolvedDocument p = Some doc → ∀ tr, resolve p tr = (Ok (doc, p), tr).
Proof. intros H tr. unfold resolve. now rewrite H. Qed.

End Resolution.

End StoragePointer.

(** ** [OnChainHotel] *)

Module OnChainHotel.

Import RemotelyBackedDataset.

(** The object's own state.  [_dataIndex] is a handle of a [StoragePointer]
    on the heap, or nothing ([undefined] at first, [null] once dropped). *)
Record Hotel : Type :=
  { address : Val;
    indexAddress : Val;   (* indexContract.options.address *)
    contractInstance : Val;
    onChainDataset : Dataset;
    _dataIndex : option nat }.

(** A hotel with what it has caused so far and the pointers that exist. *)
Record State : Type :=
  { self : Hotel;
    trace : list Event;
    heap : list StoragePointer.Pointer }.

(** [{from, to}] *)
Record TransactionOptions : Type := { sender : Val; recipient : Val }.

(** [PlainHotelInterface] *)
Record PlainHotel : Type :=
  { plain_manager : Val;
    plain_address : Val;
    plain_dataUri : StoragePointer.Plain }.

Definition dataset (s : State) : Dataset := onChainDataset (self s).

Definition with_self (f : Hotel → Hotel) (s : State) : State :=
  {| self := f (self s); trace := trace s; heap := heap s |}.

Definition put_dataset (ds : Dataset) : State → State :=
  with_self (fun h => {| address := address h; indexAddress := indexAddress h;
                         contractInstance := contractInstance h;
                         onChainDataset := ds; _dataIndex := _dataIndex h |}).

Definition put_dataIndex (p : option nat) : State → State :=
  with_self (fun h => {| address := address h; indexAddress := indexAddress h;
                         contractInstance := contractInstance h;
                         onChainDataset := onChainDataset h; _dataIndex := p |}).

Definition put_contractInstance (c : Val) : State → State :=
  with_self (fun h => {| address := address h; indexAddress := indexAddress h;
                         contractInstance := c;
                         onChainDataset := onChainDataset h; _dataIndex := _dataIndex h |}).

Definition put_address (a : Val) : State → State :=
  with_self (fun h => {| address := a; indexAddress := indexAddress h;
                         contractInstance := contractInstance h;
                         onChainDataset := onChainDataset h; _dataIndex := _dataIndex h |}).

Definition emit (e : Event) (s : State) : State :=
  {| self := self s; trace := trace s ++ [e]; heap := heap s |}.

(** [StoragePointer.createInstance (uri, fields)]: a new object. *)
Definition new_pointer (uri : Val) (fields : list StoragePointer.FieldDesc) : M State nat :=
  fun s => (Ok (length (heap s)),
            {| self := self s;
               trace := trace s ++ [PointerCreated uri];
               heap := heap s ++ [StoragePointer.createInstance uri fields] |}).

(** The data format of the document at [dataUri], as [get dataIndex]
    declares it. *)
Definition dataIndex_fields : list StoragePointer.FieldDesc :=
  [ StoragePointer.Field "descriptionUri" true
      (map StoragePointer.plain
         [ "location"; "name"; "description"; "roomTypes"; "contacts";
           "address"; "timezone"; "currency"; "images"; "amenities";
           "updatedAt" ]) ].

(** The fields [initialize] binds: [_dataUri] with getter and setter,
    [_manager] with a getter only. *)
Definition bound_fields : list (string * option string) :=
  [ ("_dataUri", Some "__editInfoOnChain"); ("_manager", None) ].

(** [new OnChainHotel (...)] followed by [initialize ()], as
    [createInstance] does. *)
Definition createInstance (indexAddr : Val) (addr : Val) : Hotel :=
  let ds := bindProperties bound_fields RemotelyBackedDataset.createInstance in
  {| address := addr;
     indexAddress := indexAddr;
     contractInstance := VUndefined;
     onChainDataset := if truthy addr then markDeployed ds else ds;
     _dataIndex := None |}.

Section Hotel.

(** The network and the wallet: the answer to a request may depend on the
    moment it is made (the number of events so far). *)
Variable respond : nat → Request → result Val.
(** What a promise the caller assigned settles to. *)
Variable settle : nat → result Val.
(** The off-chain documents, by URI. *)
Variable download : string → result StoragePointer.Document.

Definition remote (r : Request) : M State Val :=
  fun s => (respond (length (trace s)) r, emit (Remote r) s).

(** [await v] *)
Definition await (v : Val) : M State Val :=
  match v with
  | VPromise p => lift (settle p)
  | _ => ret v
  end.

Definition __getContractInstance : M State Val :=
  a <~ gets (fun s => address (self s)) ;;
  if negb (truthy a) then
    throw (mkError PlainError "Cannot get hotel instance without address")
  else
    c <~ gets (fun s => contractInstance (self s)) ;;
    (if negb (truthy c) then
       fresh <~ remote (GetHotelInstance a) ;;
       modify (put_contractInstance fresh)
     else ret tt) ;;;
    gets (fun s => contractInstance (self s)).

(** The [remoteGetter] closures of [initialize]. *)
Definition remoteGetter (name : string) : M State Val :=
  if String.eqb name "_dataUri" then
    c <~ __getContractInstance ;; remote (Call c "dataUri")
  else if String.eqb name "_manager" then
    c <~ __getContractInstance ;; remote (Call c "manager")
  else throw (mkError TypeError "remoteGetter is not a function").

(** [await this.<name>] for a bound field. *)
Definition read_field (name : string) : M State Val :=
  ds <~ gets dataset ;;
  r <~ read State remoteGetter name ds ;;
  modify (put_dataset (snd r)) ;;;
  await (fst r).

(** [this.<name> = v] for a bound field. *)
Definition write_field (name : string) (v : Val) : M State unit :=
  ds <~ gets dataset ;;
  ds' <~ lift (write name v ds) ;;
  modify (put_dataset ds').

(** The getters of [dataUri] and [manager] have one body: [if
    (!this.<name>) return;], then [await this.<name>]. *)
Definition getter (name : string) : M State Val :=
  ds <~ gets dataset ;;
  if negb (property_truthy (property ds name)) then ret VUndefined
  else read_field name.

Definition get_dataUri : M State Val := getter "_dataUri".

Definition get_dataIndex : M State nat :=
  current <~ gets (fun s => _dataIndex (self s)) ;;
  match current with
  | Some p => ret p
  | None =>
      uri <~ get_dataUri ;;
      p <~ new_pointer uri dataIndex_fields ;;
      modify (put_dataIndex (Some p)) ;;;
      ret p
  end.

(** [set dataUri].  The comparison evaluates [this._dataUri] without
    awaiting it: what a read of an unresolved field would fetch is of no
    consequence to the setter and is left out of the trace. *)
Definition set_dataUri (newDataUri : Val) : M State unit :=
  if negb (truthy newDataUri) then
    throw (mkError PlainError
             "Cannot update hotel: Cannot set dataUri when it is not provided")
  else if typeof_string newDataUri
          && negb (match newDataUri with VStr s => matches_scheme s | _ => false end) then
    throw (mkError PlainError
             "Cannot update hotel: Cannot set dataUri with invalid format")
  else
    ds <~ gets dataset ;;
    (if negb (property_strict_eq newDataUri (property ds "_dataUri"))
     then modify (put_dataIndex None)
     else ret tt) ;;;
    write_field "_dataUri" newDataUri.

Definition get_manager : M State Val := getter "_manager".

Definition set_manager (newManager : Val) : M State unit :=
  if negb (truthy newManager) then
    throw (mkError PlainError "Cannot update hotel: Cannot set manager to null")
  else
    a <~ gets (fun s => address (self s)) ;;
    if truthy a then
      throw (mkError PlainError
               "Cannot update hotel: Cannot set manager when hotel is deployed")
    else write_field "_manager" newManager.

(** [setLocalData ({manager, dataUri})] *)
Definition setLocalData (manager dataUri : Val) : M State unit :=
  newManager <~ await manager ;;
  (if truthy newManager then set_manager newManager else ret tt) ;;;
  newDataUri <~ await dataUri ;;
  (if truthy newDataUri then set_dataUri newDataUri else ret tt).

(** [(await this.dataIndex).toPlainObject (resolvedFields)], on the pointer
    behind the handle. *)
Definition pointer_toPlainObject (p : nat) (resolvedFields : option (list string))
    : M State StoragePointer.Plain :=
  ptr <~ gets (fun s => heap s !! p) ;;
  match ptr with
  | Some ptr =>
      zoom trace (fun tr s => {| self := self s; trace := tr; heap := heap s |})
           (StoragePointer.toPlainObject download ptr resolvedFields)
  | None => throw (mkError TypeError "Cannot read property 'toPlainObject' of undefined")
  end.

Definition toPlainObject (resolvedFields : option (list string)) : M State PlainHotel :=
  dataIndex <~ get_dataIndex ;;
  offChainData <~ pointer_toPlainObject dataIndex resolvedFields ;;
  manager <~ get_manager ;;
  a <~ gets (fun s => address (self s)) ;;
  ret {| plain_manager := manager; plain_address := a; plain_dataUri := offChainData |}.

(** [wallet.signAndSendTransaction (transactionData)] for the call [tx] of
    the index contract: gas estimate, nonce of the sender, signature.  The
    [catch] is on the wallet's promise only, and rewords its failure as
    [what + err], with the string form of the error. *)
Definition send (what : string) (tx : Tx) (options : TransactionOptions) : M State Val :=
  estimate <~ remote (EstimateGas tx (sender options)) ;;
  nonce <~ remote (AddressNonce (sender options)) ;;
  catch (remote (SignAndSend tx (sender options) nonce estimate))
        (fun err => throw (mkError PlainError (what ++ error_string err))).

Definition __editInfoOnChain (options : TransactionOptions) : M State Val :=
  c <~ __getContractInstance ;;
  uri <~ get_dataUri ;;
  a <~ gets (fun s => address (self s)) ;;
  send "Cannot update hotel: " (CallHotel a uri) options.

(** The setter the dataset invokes for a setter identity. *)
Definition invoke (setter : string) (payload : Payload) (options : TransactionOptions)
    : M State Val :=
  modify (emit (SetterInvoked setter)) ;;;
  if String.eqb setter "__editInfoOnChain" then __editInfoOnChain options
  else throw (mkError TypeError "remoteSetter is not a function").

Definition createOnChainData (options : TransactionOptions) : M State (list Val) :=
  ia <~ gets (fun s => indexAddress (self s)) ;;
  n <~ remote (AddressNonce ia) ;;
  future <~ remote (FutureAddress ia n) ;;
  modify (put_address future) ;;;
  dataUri <~ get_dataUri ;;
  hash <~ send "Cannot create hotel: " (RegisterHotel dataUri) options ;;
  ret [hash].

Definition updateOnChainData (options : TransactionOptions) : M State (list Val) :=
  __getContractInstance ;;;
  ds <~ gets dataset ;;
  updateRemoteData State TransactionOptions Val invoke options ds.

Definition removeOnChainData (options : TransactionOptions) : M State (list Val) :=
  ds <~ gets dataset ;;
  if negb (isDeployed ds) then
    throw (mkError PlainError "Cannot remove hotel: not deployed")
  else
    a <~ gets (fun s => address (self s)) ;;
    hash <~ send "Cannot remove hotel: " (DeleteHotel a) options ;;
    ret [hash].

(** The callbacks handed to the wallet with the creating and the removing
    transaction. *)
Definition onCreated : M State unit :=
  ds <~ gets dataset ;; modify (put_dataset (markDeployed ds)).

Definition onRemoved : M State unit :=
  ds <~ gets dataset ;; modify (put_dataset (markObsolete ds)).

(** [(await pointer.contents)]: the pointer behind the handle resolves and
    keeps its document. *)
Definition resolve_pointer (p : nat) : M State StoragePointer.Document :=
  ptr <~ gets (fun s => heap s !! p) ;;
  match ptr with
  | Some ptr =>
      r <~ zoom trace (fun tr s => {| self := self s; trace := tr; heap := heap s |})
                (StoragePointer.resolve download ptr) ;;
      modify (fun s => {| self := self s; trace := trace s;
                          heap := <[p := snd r]> (heap s) |}) ;;;
      ret (fst r)
  | None => throw (mkError TypeError "Cannot read property 'contents' of undefined")
  end.

(** *** The [dataUri] setter *)

Ltac run_monad :=
  unfold bind, ret, throw, gets, modify, lift, catch in *; simpl in *.

Definition not_provided : Error :=
  mkError PlainError "Cannot update hotel: Cannot set dataUri when it is not provided".

Definition invalid_format : Error :=
  mkError PlainError "Cannot update hotel: Cannot set dataUri with invalid format".

Lemma set_dataUri_falsy s v :
  truthy v = false → set_dataUri v s = (Throw not_provided, s).
Proof. intros H. unfold set_dataUri. rewrite H. reflexivity. Qed.

Lemma set_dataUri_malformed s str :
  str ≠ "" → matches_scheme str = false →
  set_dataUri (VStr str) s = (Throw invalid_format, s).
Proof.
  intros Hne H. unfold set_dataUri. simpl. rewrite H.
  destruct (String.eqb_spec str ""); [contradiction|]. reflexivity.
Qed.

Definition destroyed : Error :=
  mkError ObsoleteRecordError "record was destroyed".

(** The only failure after the two checks is the one of the dataset's
    Write, on a record that was destroyed; by then the comparison with
    [this._dataUri] has dropped the [_dataIndex]. *)
Lemma set_dataUri_throws s v e s' :
  set_dataUri v s = (Throw e, s') →
  (e = not_provided ∧ s' = s) ∨ (e = invalid_format ∧ s' = s) ∨
  (e = destroyed ∧ lifecycleState (dataset s) = Obsolete ∧ s' = put_dataIndex None s).
Proof.
  unfold set_dataUri.
  destruct (truthy v) eqn:Ht; simpl.
  2:{ unfold throw. intros H. inversion H. auto. }
  destruct (typeof_string v && _) eqn:Hm; simpl.
  { unfold throw. intros H. inversion H. auto. }
  unfold write_field, write, property. run_monad.
  unfold dataset; simpl.
  destruct (lifecycleState (onChainDataset (self s))) eqn:Hl; simpl;
    try (destruct (property_strict_eq v _); simpl; rewrite Hl; discriminate).
  rewrite Hl. intros H. inversion H; subst. auto.
Qed.

(** On a destroyed record every accepted value is refused by the dataset,
    after the [_dataIndex] was dropped. *)
Lemma set_dataUri_destroyed s v :
  lifecycleState (dataset s) = Obsolete →
  truthy v = true →
  (∀ str, v = VStr str → matches_scheme str = true) →
  set_dataUri v s = (Throw destroyed, put_dataIndex None s).
Proof.
  intros Hl Ht Hm. unfold set_dataUri. rewrite Ht. simpl.
  assert (Hf : typeof_string v
               && negb (match v with VStr s0 => matches_scheme s0 | _ => false end) = false).
  { destruct v as [| |str| | |]; try reflexivity. simpl. now rewrite (Hm str eq_refl). }
  rewrite Hf. unfold write_field, write, property. run_monad.
  unfold dataset in *. simpl. rewrite Hl. simpl. now rewrite Hl.
Qed.

(** C10 (amended). The [dataUri] setter rejects an empty or missing value
    and a string without the [scheme://] shape, and leaves the hotel as it
    was when it does.  Whenever the setter throws, the stored [_dataUri] is
    what it was.  The cached [_dataIndex] is what it was too, with one
    exception: on a record that was destroyed the write of an accepted value
    is refused by the dataset, and by then the setter has dropped the
    [_dataIndex]. *)
Theorem set_dataUri_atomic (s : State) (v : Val) :
  (truthy v = false → set_dataUri v s = (Throw not_provided, s))
  ∧ (∀ str, v = VStr str → matches_scheme str = false →
       ∃ e, set_dataUri v s = (Throw e, s) ∧ kind e = PlainError)
  ∧ (∀ e s', set_dataUri v s = (Throw e, s') →
       cached (dataset s') "_dataUri" = cached (dataset s) "_dataUri"
       ∧ dataset s' = dataset s
       ∧ ((kind e = PlainError ∧ s' = s ∧ _dataIndex (self s') = _dataIndex (self s))
          ∨ (e = destroyed ∧ lifecycleState (dataset s) = Obsolete
             ∧ s' = put_dataIndex None s ∧ _dataIndex (self s') = None)))
  ∧ (lifecycleState (dataset s) = Obsolete → truthy v = true →
       (∀ str, v = VStr str → matches_scheme str = true) →
       set_dataUri v s = (Throw destroyed, put_dataIndex None s)).
Proof.
  split; [apply set_dataUri_falsy|]. split; [|split].
  - intros str -> Hm. destruct (String.eqb_spec str "") as [->|Hne].
    + exists not_provided. split; [|reflexivity]. now apply set_dataUri_falsy.
    + exists invalid_format. split; [|reflexivity]. now apply set_dataUri_malformed.
  - intros e s' H.
    destruct (set_dataUri_throws _ _ _ _ H) as [[-> ->]|[[-> ->]|(-> & Hl & ->)]].
    + split; [reflexivity|]. split; [reflexivity|]. left. auto.
    + split; [reflexivity|]. split; [reflexivity|]. left. auto.
    + split; [reflexivity|]. split; [reflexivity|]. right. auto.
  - apply set_dataUri_destroyed.
Qed.

(** An accepted assignment: what it leaves behind. *)
Lemma set_dataUri_ok s v s' :
  set_dataUri v s = (Ok tt, s') →
  truthy v = true
  ∧ lifecycleState (dataset s) ≠ Obsolete
  ∧ s' = put_dataset (set_cache "_dataUri" v true (dataset s))
           (if property_strict_eq v (property (dataset s) "_dataUri")
            then s else put_dataIndex None s).
Proof.
  unfold set_dataUri.
  destruct (truthy v) eqn:Ht; simpl; [|unfold throw; discriminate].
  destruct (typeof_string v && _) eqn:Hm; simpl; [unfold throw; discriminate|].
  unfold write_field, write. run_monad.
  destruct (property_strict_eq v (property (dataset s) "_dataUri")); simpl;
    unfold dataset; simpl;
    destruct (lifecycleState (onChainDataset (self s))) eqn:Hl; simpl;
    intros H; inversion H; subst; repeat split; congruence.
Qed.

Lemma put_dataset_same s : put_dataset (dataset s) s = s.
Proof. destruct s as [[a ia c ds di] tr hp]. reflexivity. Qed.

(** Awaiting a cached field asks nobody. *)
Lemma read_field_cached s name v :
  lifecycleState (dataset s) ≠ Obsolete →
  cached (dataset s) name = Some v →
  read_field name s = await v s.
Proof.
  intros Hl Hc. unfold read_field, read, bind, gets. simpl.
  rewrite Hc.
  destruct (lifecycleState (dataset s)) eqn:E; [| |congruence];
    unfold ret, modify; simpl; now rewrite put_dataset_same.
Qed.

(** Reading a field that is cached and truthy asks nobody. *)
Lemma getter_cached name s v :
  lifecycleState (dataset s) ≠ Obsolete →
  cached (dataset s) name = Some v →
  truthy v = true →
  getter name s = await v s.
Proof.
  intros Hl Hc Ht.
  unfold getter, bind, gets. simpl.
  rewrite (proj2 (property_settled _ _ _ Hl) Hc). simpl. rewrite Ht. simpl.
  now apply read_field_cached.
Qed.

(** C4. An accepted assignment to [dataUri] stores the value and leaves
    every existing Storage Pointer as it is.  When the value is the one
    currently cached, the hotel keeps its [_dataIndex]; when it is not, the
    [_dataIndex] is dropped and the next access to [dataIndex] constructs a
    new pointer, under a handle no pointer had before, over the new URI. *)
Theorem set_dataUri_invalidates (s s' : State) (v : Val) :
  set_dataUri v s = (Ok tt, s') →
  cached (dataset s') "_dataUri" = Some v
  ∧ heap s' = heap s
  ∧ (cached (dataset s) "_dataUri" = Some v →
       _dataIndex (self s') = _dataIndex (self s))
  ∧ (cached (dataset s) "_dataUri" ≠ Some v →
       _dataIndex (self s') = None
       ∧ ∀ u, await v s' = (Ok u, s') →
           ∃ s'', get_dataIndex s' = (Ok (length (heap s)), s'')
                  ∧ _dataIndex (self s'') = Some (length (heap s))
                  ∧ heap s'' = heap s ++ [StoragePointer.createInstance u dataIndex_fields]
                  ∧ StoragePointer.ref <$> heap s'' !! length (heap s) = Some u).
Proof.
  intros H. destruct (set_dataUri_ok _ _ _ H) as (Ht & Hl & ->).
  assert (Hsame : property_strict_eq v (property (dataset s) "_dataUri") = true
                  ↔ cached (dataset s) "_dataUri" = Some v).
  { rewrite <- (property_settled _ _ _ Hl).
    destruct (property (dataset s) "_dataUri") as [cur|]; simpl.
    - unfold strict_eq. rewrite bool_decide_eq_true. split; congruence.
    - split; discriminate. }
  destruct (property_strict_eq v (property (dataset s) "_dataUri")) eqn:E.
  - assert (Hc : cached (dataset s) "_dataUri" = Some v) by now apply Hsame.
    split; [unfold dataset; simpl; apply cached_set_cache|].
    split; [reflexivity|]. split; [reflexivity|].
    intros Hne. contradiction.
  - assert (Hne : cached (dataset s) "_dataUri" ≠ Some v).
    { intros Hc. apply Hsame in Hc. discriminate. }
    split; [unfold dataset; simpl; apply cached_set_cache|].
    split; [reflexivity|]. split; [intros Hc; contradiction|].
    intros _. split; [reflexivity|].
    intros u Ha.
    set (s1 := put_dataset _ _) in *.
    assert (Hget : get_dataUri s1 = (Ok u, s1)).
    { unfold get_dataUri. rewrite (getter_cached "_dataUri" s1 v); auto.
      unfold s1, dataset; simpl. apply cached_set_cache. }
    unfold get_dataIndex. run_monad. rewrite Hget. simpl.
    unfold new_pointer. simpl. eexists. split; [reflexivity|]. simpl.
    split; [reflexivity|]. split; [reflexivity|].
    now rewrite list_lookup_middle.
Qed.

(** *** Reads

    A read may instantiate the contract wrapper, call a getter of the
    contract and fill the cache; it touches nothing else. *)

Definition reads_only (s s' : State) : Prop :=
  heap s' = heap s
  ∧ _dataIndex (self s') = _dataIndex (self s)
  ∧ address (self s') = address (self s)
  ∧ lifecycleState (dataset s') = lifecycleState (dataset s)
  ∧ ∃ added, trace s' = trace s ++ added ∧ forallb is_read added = true.

Lemma reads_only_refl s : reads_only s s.
Proof.
  repeat split. exists []. now rewrite app_nil_r.
Qed.

Lemma reads_only_trans s1 s2 s3 :
  reads_only s1 s2 → reads_only s2 s3 → reads_only s1 s3.
Proof.
  intros (H1 & H2 & H3 & H4 & a1 & Ha1 & Hr1) (K1 & K2 & K3 & K4 & a2 & Ha2 & Hr2).
  repeat split; try congruence.
  exists (a1 ++ a2). rewrite Ha2, Ha1, <- app_assoc. split; [reflexivity|].
  rewrite forallb_app, Hr1, Hr2. reflexivity.
Qed.

Lemma reads_only_remote r :
  is_read (Remote r) = true → preserves State reads_only (remote r).
Proof.
  intros Hr s x s' H. unfold remote in H. inversion H; subst.
  repeat split. exists [Remote r]. split; [reflexivity|].
  cbn [forallb]. now rewrite Hr.
Qed.

Lemma reads_only_getContractInstance : preserves State reads_only __getContractInstance.
Proof.
  unfold __getContractInstance.
  apply preserves_bind; [apply reads_only_trans | apply preserves_gets, reads_only_refl |].
  intros a. destruct (negb (truthy a)); [apply preserves_throw, reads_only_refl|].
  apply preserves_bind; [apply reads_only_trans | apply preserves_gets, reads_only_refl |].
  intros c. apply preserves_bind; [apply reads_only_trans | | ].
  - destruct (negb (truthy c)); [|apply preserves_ret, reads_only_refl].
    apply preserves_bind; [apply reads_only_trans | now apply reads_only_remote |].
    intros fresh. apply preserves_modify. intros s.
    repeat split. exists []. simpl. now rewrite app_nil_r.
  - intros _. apply preserves_gets, reads_only_refl.
Qed.

Lemma reads_only_remoteGetter name : preserves State reads_only (remoteGetter name).
Proof.
  unfold remoteGetter.
  destruct (String.eqb name "_dataUri");
    [|destruct (String.eqb name "_manager"); [|apply preserves_throw, reads_only_refl]];
    (apply preserves_bind;
     [apply reads_only_trans | apply reads_only_getContractInstance |];
     intros c; now apply reads_only_remote).
Qed.

Lemma reads_only_await v : preserves State reads_only (await v).
Proof.
  destruct v; simpl;
    try (apply preserves_ret, reads_only_refl); apply preserves_lift, reads_only_refl.
Qed.

Lemma reads_only_put_dataset ds s :
  lifecycleState ds = lifecycleState (dataset s) →
  reads_only s (put_dataset ds s).
Proof.
  intros H. repeat split; [exact H|]. exists []. simpl. now rewrite app_nil_r.
Qed.

Lemma reads_only_read_field name : preserves State reads_only (read_field name).
Proof.
  intros s r s' H. unfold read_field, read, bind, gets in H. simpl in H.
  destruct (lifecycleState (dataset s)) eqn:El.
  - destruct (cached (dataset s) name) as [v|] eqn:Ec.
    + unfold ret, modify in H. simpl in H. rewrite put_dataset_same in H.
      eapply reads_only_await; eauto.
    + unfold throw in H. inversion H; subst. apply reads_only_refl.
  - destruct (cached (dataset s) name) as [v|] eqn:Ec.
    + unfold ret, modify in H. simpl in H. rewrite put_dataset_same in H.
      eapply reads_only_await; eauto.
    + unfold catch in H.
      destruct (remoteGetter name s) as [[v|e] s1] eqn:Eg; simpl in H.
      * pose proof (reads_only_remoteGetter name _ _ _ Eg) as Hs1.
        unfold ret, modify in H. simpl in H.
        eapply reads_only_trans; [exact Hs1|].
        eapply reads_only_trans; [|eapply reads_only_await; eauto].
        apply reads_only_put_dataset. simpl.
        destruct Hs1 as (_ & _ & _ & Hl & _). now rewrite Hl.
      * unfold throw in H. inversion H; subst.
        eapply reads_only_remoteGetter; eauto.
  - unfold throw in H. inversion H; subst. apply reads_only_refl.
Qed.

Lemma reads_only_getter name : preserves State reads_only (getter name).
Proof.
  unfold getter.
  apply preserves_bind; [apply reads_only_trans | apply preserves_gets, reads_only_refl |].
  intros ds. destruct (negb _); [apply preserves_ret, reads_only_refl|].
  apply reads_only_read_field.
Qed.

Lemma reads_only_get_dataUri : preserves State reads_only get_dataUri.
Proof. apply reads_only_getter. Qed.

Lemma reads_only_get_manager : preserves State reads_only get_manager.
Proof. apply reads_only_getter. Qed.

(** *** Memoization *)

Lemma getContractInstance_memoized s c s1 :
  __getContractInstance s = (Ok c, s1) → truthy c = true →
  __getContractInstance s1 = (Ok c, s1).
Proof.
  unfold __getContractInstance, remote, bind, gets, modify, ret, throw. simpl.
  destruct (truthy (address (self s))) eqn:Ea; simpl; [|discriminate].
  destruct (truthy (contractInstance (self s))) eqn:Ec; simpl.
  - intros H Hc. inversion H; subst. rewrite Ea. simpl. now rewrite Ec.
  - destruct (respond (length (trace s)) (GetHotelInstance (address (self s))))
      as [fresh|e]; simpl; [|discriminate].
    intros H Hc. inversion H; subst. simpl. rewrite Ea. simpl. now rewrite Hc.
Qed.

Lemma getContractInstance_failure s e s1 :
  __getContractInstance s = (Throw e, s1) →
  contractInstance (self s1) = contractInstance (self s).
Proof.
  unfold __getContractInstance, remote, bind, gets, modify, ret, throw. simpl.
  destruct (truthy (address (self s))); simpl; [|intros H; now inversion H].
  destruct (truthy (contractInstance (self s))); simpl; [discriminate|].
  destruct (respond _ _); simpl; [discriminate|]. intros H. now inversion H.
Qed.

Lemma get_dataIndex_present s p :
  _dataIndex (self s) = Some p → get_dataIndex s = (Ok p, s).
Proof. intros H. unfold get_dataIndex, bind, gets. simpl. now rewrite H. Qed.

Lemma get_dataIndex_absent s r s' :
  _dataIndex (self s) = None → get_dataIndex s = (r, s') →
  (is_ok r = false ∧ _dataIndex (self s') = None
   ∧ pointers_created (trace s') = pointers_created (trace s))
  ∨ (∃ p, r = Ok p ∧ _dataIndex (self s') = Some p
     ∧ pointers_created (trace s') = S (pointers_created (trace s))).
Proof.
  intros Hn. unfold get_dataIndex, bind, gets. simpl. rewrite Hn.
  destruct (get_dataUri s) as [[u|e] s0] eqn:Eu;
    destruct (reads_only_get_dataUri _ _ _ Eu) as (_ & Hdi & _ & _ & added & Htr & Hreads).
  - unfold new_pointer, modify, ret. simpl. intros H. inversion H; subst. right.
    eexists. split; [reflexivity|]. split; [reflexivity|]. simpl.
    rewrite Htr, !pointers_created_app, (reads_create_no_pointer _ Hreads).
    change (pointers_created [PointerCreated u]) with 1. lia.
  - intros H. inversion H; subst. left. split; [reflexivity|].
    split; [congruence|].
    rewrite Htr, pointers_created_app, (reads_create_no_pointer _ Hreads). lia.
Qed.

Lemma dataIndex_constructed_once n : ∀ s,
  (pointers_created (trace (repeatedly n get_dataIndex s))
   ≤ pointers_created (trace s)
     + match _dataIndex (self s) with Some _ => 0 | None => 1 end)%nat.
Proof.
  induction n as [|n IH]; intros s; simpl; [lia|].
  destruct (_dataIndex (self s)) as [p|] eqn:E.
  - rewrite (get_dataIndex_present s p E). simpl.
    specialize (IH s). rewrite E in IH. exact IH.
  - destruct (get_dataIndex s) as [r s'] eqn:Eg. simpl.
    destruct (get_dataIndex_absent _ _ _ E Eg) as [(_ & Hdi & Hpc)|(p & _ & Hdi & Hpc)];
      specialize (IH s'); rewrite Hdi in IH; lia.
Qed.

(** *** The pointer and the URI *)

Lemma await_anywhere v s r s' :
  await v s = (r, s') → s' = s ∧ ∀ t, await v t = (r, t).
Proof.
  destruct v; simpl; unfold ret, lift; intros H; inversion H; subst; auto.
Qed.

Lemma await_truthy v s u s' :
  await v s = (Ok u, s') → truthy u = true → truthy v = true.
Proof.
  destruct v; simpl; unfold ret, lift; intros H Hu; inversion H; subst; auto.
Qed.

(** A field that was read and is truthy is in the cache. *)
Lemma getter_ok name s u s0 :
  getter name s = (Ok u, s0) → truthy u = true →
  ∃ v, cached (dataset s0) name = Some v
       ∧ truthy v = true
       ∧ lifecycleState (dataset s0) ≠ Obsolete
       ∧ ∀ t, await v t = (Ok u, t).
Proof.
  unfold getter, bind, gets. simpl.
  destruct (property_truthy (property (dataset s) name)) eqn:Ep; simpl.
  2:{ unfold ret. intros H Hu. inversion H; subst. discriminate. }
  unfold read_field, read, bind, gets. simpl.
  destruct (lifecycleState (dataset s)) eqn:El.
  - destruct (cached (dataset s) name) as [v|] eqn:Ec.
    + unfold ret, modify. simpl. rewrite put_dataset_same. intros H Hu.
      destruct (await_anywhere _ _ _ _ H) as [-> Ha].
      exists v. repeat split; auto; [eapply await_truthy; eauto | congruence].
    + unfold throw. discriminate.
  - destruct (cached (dataset s) name) as [v|] eqn:Ec.
    + unfold ret, modify. simpl. rewrite put_dataset_same. intros H Hu.
      destruct (await_anywhere _ _ _ _ H) as [-> Ha].
      exists v. repeat split; auto; [eapply await_truthy; eauto | congruence].
    + unfold catch.
      destruct (remoteGetter name s) as [[v|e] s1]; simpl; [|unfold throw; discriminate].
      unfold ret, modify. simpl. intros H Hu.
      destruct (await_anywhere _ _ _ _ H) as [-> Ha].
      exists v. split; [unfold dataset; simpl; apply cached_set_cache|].
      split; [eapply await_truthy; eauto|].
      split; [|exact Ha].
      unfold dataset in *. simpl. rewrite El. discriminate.
  - unfold throw. discriminate.
Qed.

Lemma getter_again name s v u :
  cached (dataset s) name = Some v → truthy v = true →
  lifecycleState (dataset s) ≠ Obsolete →
  (∀ t, await v t = (Ok u, t)) →
  getter name s = (Ok u, s).
Proof. intros Hc Ht Hl Ha. rewrite (getter_cached name s v); auto. Qed.

(** A truthy value a getter has returned is what it returns from then on,
    without a remote call. *)
Lemma getter_memoized name s u s0 :
  getter name s = (Ok u, s0) → truthy u = true →
  ∀ s', dataset s' = dataset s0 → getter name s' = (Ok u, s').
Proof.
  intros H Ht s' Hds.
  destruct (getter_ok _ _ _ _ H Ht) as (v & Hc & Hv & Hl & Ha).
  apply (getter_again name s' v u); rewrite ?Hds; auto.
Qed.

(** What a getter has returned it returns from then on, without a remote
    call, unless the value is falsy: a falsy value in the cache makes the
    getter return [undefined] at its first line. *)
Lemma getter_stable name s u s0 :
  getter name s = (Ok u, s0) →
  ∀ s', dataset s' = dataset s0 →
    getter name s' = (Ok u, s')
    ∨ (truthy u = false ∧ getter name s' = (Ok VUndefined, s')).
Proof.
  intros H s' Hds.
  destruct (truthy u) eqn:Hu.
  { left. now apply (getter_memoized name s u s0). }
  revert H. unfold getter at 1, bind, gets. simpl.
  destruct (property_truthy (property (dataset s) name)) eqn:Ep; simpl.
  2:{ unfold ret. intros H. inversion H; subst. left.
      unfold getter, bind, gets. simpl. rewrite Hds, Ep. reflexivity. }
  unfold read_field, read, bind, gets. simpl.
  assert (Hcached : ∀ v, lifecycleState (dataset s) ≠ Obsolete →
            cached (dataset s) name = Some v →
            await v s = (Ok u, s0) → getter name s' = (Ok u, s')).
  { intros v Hl Hc Ha. destruct (await_anywhere _ _ _ _ Ha) as [-> Hany].
    unfold getter, bind, gets. simpl. rewrite Hds, Ep. simpl.
    rewrite (read_field_cached s' name v); rewrite ?Hds; auto. }
  destruct (lifecycleState (dataset s)) eqn:El.
  - destruct (cached (dataset s) name) as [v|] eqn:Ec; [|unfold throw; discriminate].
    unfold ret, modify. simpl. rewrite put_dataset_same. intros H. left.
    apply (Hcached v); auto; congruence.
  - destruct (cached (dataset s) name) as [v|] eqn:Ec.
    + unfold ret, modify. simpl. rewrite put_dataset_same. intros H. left.
      apply (Hcached v); auto; congruence.
    + unfold catch.
      destruct (remoteGetter name s) as [[v|e] s1] eqn:Eg; simpl; [|unfold throw; discriminate].
      unfold ret, modify. simpl. intros H.
      destruct (await_anywhere _ _ _ _ H) as [-> Ha].
      assert (Hc' : cached (dataset s') name = Some v).
      { rewrite Hds. unfold dataset. simpl. apply cached_set_cache. }
      assert (Hl' : lifecycleState (dataset s') ≠ Obsolete).
      { rewrite Hds. change (lifecycleState (dataset s) ≠ Obsolete).
        rewrite El. discriminate. }
      destruct (truthy v) eqn:Hv.
      * left. rewrite (getter_cached name s' v); auto.
      * right. split; [reflexivity|].
        unfold getter, bind, gets. simpl.
        rewrite (proj2 (property_settled _ _ _ Hl') Hc'). simpl. now rewrite Hv.
  - unfold throw. discriminate.
Qed.


(** A field that was read is read again without a remote call. *)
Lemma read_field_memoized name s u s1 :
  read_field name s = (Ok u, s1) → read_field name s1 = (Ok u, s1).
Proof.
  intros H.
  assert (Hcached : ∀ v, lifecycleState (dataset s) ≠ Obsolete →
            cached (dataset s) name = Some v → read_field name s1 = (Ok u, s1)).
  { intros v Hl Hc. rewrite (read_field_cached s name v Hl Hc) in H.
    destruct (await_anywhere _ _ _ _ H) as [-> Ha].
    rewrite (read_field_cached s name v Hl Hc). apply Ha. }
  revert H. unfold read_field at 1, read, bind, gets. simpl.
  destruct (lifecycleState (dataset s)) eqn:El.
  - destruct (cached (dataset s) name) as [v|] eqn:Ec.
    + intros _. apply (Hcached v); congruence.
    + unfold throw. discriminate.
  - destruct (cached (dataset s) name) as [v|] eqn:Ec.
    + intros _. apply (Hcached v); congruence.
    + unfold catch.
      destruct (remoteGetter name s) as [[v|e] s0]; simpl; [|unfold throw; discriminate].
      unfold ret, modify. simpl. intros H.
      destruct (await_anywhere _ _ _ _ H) as [-> Ha].
      rewrite (read_field_cached _ name v).
      * apply Ha.
      * unfold dataset in *. simpl. rewrite El. discriminate.
      * unfold dataset. simpl. apply cached_set_cache.
  - unfold throw. discriminate.
Qed.

(** *** [toPlainObject] *)

Lemma get_dataIndex_address s r s' :
  get_dataIndex s = (r, s') → address (self s') = address (self s).
Proof.
  unfold get_dataIndex, bind, gets. simpl.
  destruct (_dataIndex (self s)) as [p|].
  - unfold ret. intros H. now inversion H.
  - destruct (get_dataUri s) as [[u|e] s0] eqn:Eu;
      destruct (reads_only_get_dataUri _ _ _ Eu) as (_ & _ & Ha & _).
    + unfold new_pointer, modify, ret. simpl. intros H. inversion H; subst. exact Ha.
    + intros H. inversion H; subst. exact Ha.
Qed.

Lemma pointer_toPlainObject_selective p resolvedFields s t s' :
  pointer_toPlainObject p resolvedFields s = (Ok t, s') →
  self s' = self s ∧ heap s' = heap s
  ∧ ∃ ptr uri, heap s !! p = Some ptr ∧ StoragePointer.ref ptr = VStr uri
      ∧ StoragePointer.selective (StoragePointer.parse_paths resolvedFields) uri t
      ∧ StoragePointer.inlined download (StoragePointer.parse_paths resolvedFields) []
          (StoragePointer.Field "" true (StoragePointer.schema ptr)) uri t.
Proof.
  unfold pointer_toPlainObject, bind, gets, zoom. simpl.
  destruct (heap s !! p) as [ptr|] eqn:Ep; [|unfold throw; discriminate].
  unfold StoragePointer.toPlainObject.
  destruct (StoragePointer.ref ptr) as [| |uri| | |] eqn:Er;
    try (unfold throw; discriminate).
  destruct (StoragePointer.materialize download _ _ uri (trace s)) as [[t0|e] tr] eqn:Em;
    intros H; inversion H; subst. simpl.
  split; [reflexivity|]. split; [reflexivity|].
  exists ptr, uri. split; [reflexivity|]. split; [exact Er|]. split.
  - eapply StoragePointer.materialize_selective; eauto.
  - eapply StoragePointer.materialize_inlined; [|exact Em]. intros π _. reflexivity.
Qed.


(** *** Commit and removal before deployment *)

Lemma reads_only_writes s s' : reads_only s s' → writes (trace s') = writes (trace s).
Proof.
  intros (_ & _ & _ & _ & added & Htr & Hreads).
  now rewrite Htr, writes_app, (reads_write_nothing _ Hreads), app_nil_r.
Qed.

Lemma isDeployed_false ds : lifecycleState ds ≠ Deployed → isDeployed ds = false.
Proof. intros H. unfold isDeployed. now apply bool_decide_eq_false. Qed.

Lemma updateOnChainData_not_deployed options s :
  lifecycleState (dataset s) ≠ Deployed →
  ∃ e s', updateOnChainData options s = (Throw e, s')
          ∧ writes (trace s') = writes (trace s)
          ∧ reads_only s s'.
Proof.
  intros Hl. unfold updateOnChainData, bind.
  destruct (__getContractInstance s) as [[c|e] s1] eqn:Ec;
    pose proof (reads_only_getContractInstance _ _ _ Ec) as Hr.
  - unfold gets, updateRemoteData. simpl.
    rewrite isDeployed_false.
    + unfold throw. eexists _, s1. split; [reflexivity|].
      split; [now apply reads_only_writes | exact Hr].
    + destruct Hr as (_ & _ & _ & Hls & _). now rewrite Hls.
  - exists e, s1. split; [reflexivity|].
    split; [now apply reads_only_writes | exact Hr].
Qed.

Lemma removeOnChainData_not_deployed options s :
  lifecycleState (dataset s) ≠ Deployed →
  removeOnChainData options s
  = (Throw (mkError PlainError "Cannot remove hotel: not deployed"), s).
Proof.
  intros Hl. unfold removeOnChainData, bind, gets. simpl.
  now rewrite isDeployed_false.
Qed.

Lemma getContractInstance_once s r s1 :
  __getContractInstance s = (r, s1) →
  (instantiations (trace s1) ≤ instantiations (trace s) + 1)%nat.
Proof.
  unfold __getContractInstance, remote, bind, gets, modify, ret, throw. simpl.
  destruct (truthy (address (self s))); simpl; [|intros H; inversion H; lia].
  destruct (truthy (contractInstance (self s))); simpl; [intros H; inversion H; lia|].
  destruct (respond _ _); simpl; intros H; inversion H; subst; simpl;
    rewrite instantiations_app; simpl; unfold instantiations at 2; simpl; lia.
Qed.

(** *** A [dataIndex] that cannot be made *)

(** When [dataIndex] rejects, it rejects with the error of reading
    [dataUri]; no Storage Pointer was constructed and none is kept, so the
    next access reads [dataUri] again.  A [dataIndex] the hotel has is
    yielded without reading anything. *)
Theorem dataIndex_failure_not_kept (s : State) :
  (∀ e s', get_dataIndex s = (Throw e, s') →
     get_dataUri s = (Throw e, s')
     ∧ _dataIndex (self s) = None
     ∧ _dataIndex (self s') = None
     ∧ heap s' = heap s
     ∧ pointers_created (trace s') = pointers_created (trace s))
  ∧ (∀ p, _dataIndex (self s) = Some p → get_dataIndex s = (Ok p, s)).
Proof.
  split; [|apply get_dataIndex_present].
  intros e s'. unfold get_dataIndex, bind, gets. simpl.
  destruct (_dataIndex (self s)) as [p|] eqn:Ei; [unfold ret; discriminate|].
  destruct (get_dataUri s) as [[u|e0] s0] eqn:Eu;
    [unfold new_pointer, modify, ret; simpl; discriminate|].
  destruct (reads_only_get_dataUri _ _ _ Eu) as (Hh & Hdi & _ & _ & added & Htr & Hreads).
  intros H. inversion H; subst. split; [reflexivity|]. split; [reflexivity|].
  split; [congruence|]. split; [exact Hh|].
  rewrite Htr, pointers_created_app, (reads_create_no_pointer _ Hreads). lia.
Qed.

(** *** The format check of the [dataUri] setter *)

(** A string is refused for its format exactly when it is not empty and
    nowhere in it a character of [a-z] or [-] stands right before [://]: the
    scheme need not start the string, and a scheme in capitals does not
    count.  A value that is no string is never refused for its format. *)
Theorem set_dataUri_format (s : State) (v : Val) :
  (∀ str, v = VStr str →
     (fst (set_dataUri v s) = Throw invalid_format ↔
      str ≠ ""
      ∧ ¬ ∃ pre c post, str = (pre ++ String c ("://" ++ post))%string
                        ∧ is_scheme_char c = true))
  ∧ (typeof_string v = false → fst (set_dataUri v s) ≠ Throw invalid_format).
Proof.
  split.
  - intros str ->. rewrite <- matches_scheme_spec.
    destruct (String.eqb_spec str "") as [->|Hne].
    { split; [discriminate | intros [H _]; contradiction]. }
    destruct (matches_scheme str) eqn:Hm.
    + split; [|intros [_ H]; now contradiction H].
      unfold set_dataUri. simpl. rewrite Hm.
      destruct (String.eqb_spec str ""); [contradiction|]. simpl.
      unfold write_field, write. run_monad.
      destruct (property_strict_eq _ _); simpl; unfold dataset; simpl;
        destruct (lifecycleState (onChainDataset (self s))); simpl; discriminate.
    + rewrite (set_dataUri_malformed s str Hne Hm). simpl.
      split; [intros _; split; [exact Hne | discriminate] | reflexivity].
  - intros Hty. unfold set_dataUri. rewrite Hty. simpl.
    destruct (truthy v); simpl; [|discriminate].
    unfold write_field, write. run_monad.
    destruct (property_strict_eq _ _); simpl; unfold dataset; simpl;
      destruct (lifecycleState (onChainDataset (self s))); simpl; discriminate.
Qed.

(** *** The [manager] setter and [setLocalData] *)

Definition manager_null : Error :=
  mkError PlainError "Cannot update hotel: Cannot set manager to null".

Definition manager_deployed : Error :=
  mkError PlainError "Cannot update hotel: Cannot set manager when hotel is deployed".

(** The manager can be set only on a hotel that has no address.  An empty
    or missing value is rejected, any value is rejected once the hotel has
    an address, and both rejections leave the hotel as it was; an accepted
    value is stored as [_manager], without a request and without touching
    [_dataUri] or [_dataIndex]. *)
Theorem set_manager_before_deployment (s : State) (v : Val) :
  (truthy v = false → set_manager v s = (Throw manager_null, s))
  ∧ (truthy v = true → truthy (address (self s)) = true →
       set_manager v s = (Throw manager_deployed, s))
  ∧ (∀ s', set_manager v s = (Ok tt, s') →
       truthy v = true
       ∧ truthy (address (self s)) = false
       ∧ cached (dataset s') "_manager" = Some v
       ∧ cached (dataset s') "_dataUri" = cached (dataset s) "_dataUri"
       ∧ _dataIndex (self s') = _dataIndex (self s)
       ∧ trace s' = trace s).
Proof.
  unfold set_manager. split; [|split].
  - intros ->. reflexivity.
  - intros -> Ha. unfold bind, gets. simpl. now rewrite Ha.
  - intros s'. destruct (truthy v) eqn:Ht; simpl; [|unfold throw; discriminate].
    unfold bind at 1. unfold gets at 1.
    destruct (truthy (address (self s))) eqn:Ea; [unfold throw; discriminate|].
    unfold write_field, write. run_monad. unfold dataset.
    destruct (lifecycleState (onChainDataset (self s))); simpl;
      intros H; inversion H; subst; clear H; simpl;
      (split; [reflexivity|]; split; [reflexivity|];
       split; [apply cached_set_cache|];
       split; [now apply cached_set_cache_ne|]; split; reflexivity).
Qed.

(** [setLocalData] takes the manager first.  On a hotel that has an address
    a manager in the new data makes the call fail, and the [dataUri] that
    came with it is not applied; without a manager in the new data the call
    is the assignment of the [dataUri], or nothing when that is missing
    too. *)
Theorem setLocalData_manager_first (s : State) (manager dataUri : Val) :
  (∀ m, await manager s = (Ok m, s) → truthy m = true →
     truthy (address (self s)) = true →
     setLocalData manager dataUri s = (Throw manager_deployed, s))
  ∧ (∀ m d, await manager s = (Ok m, s) → truthy m = false →
       await dataUri s = (Ok d, s) →
       setLocalData manager dataUri s
       = if truthy d then set_dataUri d s else (Ok tt, s))
  ∧ (∀ e, await manager s = (Throw e, s) →
       setLocalData manager dataUri s = (Throw e, s)).
Proof.
  unfold setLocalData. split; [|split].
  - intros m Hm Ht Ha. unfold bind at 1. rewrite Hm, Ht.
    unfold bind at 1.
    destruct (set_manager_before_deployment s m) as (_ & H & _).
    now rewrite (H Ht Ha).
  - intros m d Hm Ht Hd. unfold bind at 1. rewrite Hm, Ht.
    unfold bind at 1. unfold ret at 1. unfold bind at 1. rewrite Hd.
    now destruct (truthy d).
  - intros e Hm. unfold bind at 1. now rewrite Hm.
Qed.

(** *** Transactions *)

(** What [send] leaves behind: the hotel is as it was, and the requests are
    the gas estimate, then the nonce of the sender, then the signature,
    each made only when the one before succeeded; only a failure of the
    wallet is reworded. *)
Lemma send_cases what tx options s r s' :
  send what tx options s = (r, s') →
  self s' = self s ∧ heap s' = heap s
  ∧ ((is_ok r = false ∧ writes (trace s') = writes (trace s) ++ [Remote (EstimateGas tx (sender options))])
     ∨ ∃ gas nonce,
         writes (trace s')
         = writes (trace s) ++ [Remote (EstimateGas tx (sender options));
                                Remote (SignAndSend tx (sender options) nonce gas)]
         ∧ ((∃ hash, r = Ok hash)
            ∨ ∃ cause, r = Throw (mkError PlainError (what ++ error_string cause)))).
Proof.
  unfold send, remote, bind, catch, throw. simpl.
  destruct (respond (length (trace s)) (EstimateGas tx (sender options))) as [gas|e1]; simpl.
  2:{ intros H. inversion H; subst. simpl. split; [reflexivity|]. split; [reflexivity|].
      left. split; [reflexivity|]. now rewrite writes_app. }
  destruct (respond _ (AddressNonce (sender options))) as [nonce|e2]; simpl.
  2:{ intros H. inversion H; subst. simpl. split; [reflexivity|]. split; [reflexivity|].
      left. split; [reflexivity|]. rewrite !writes_app, <- !app_assoc. reflexivity. }
  destruct (respond _ (SignAndSend tx (sender options) nonce gas)) as [hash|e3]; simpl;
    intros H; inversion H; subst; simpl;
    (split; [reflexivity|]; split; [reflexivity|]; right; exists gas, nonce;
     split; [rewrite !writes_app, <- !app_assoc; reflexivity | eauto]).
Qed.

Definition without_address : Error :=
  mkError PlainError "Cannot get hotel instance without address".

Lemma getContractInstance_dataset s r s1 :
  __getContractInstance s = (r, s1) → dataset s1 = dataset s.
Proof.
  unfold __getContractInstance, remote, bind, gets, modify, ret, throw. simpl.
  destruct (truthy (address (self s))); simpl; [|intros H; now inversion H].
  destruct (truthy (contractInstance (self s))); simpl; [intros H; now inversion H|].
  destruct (respond _ _); simpl; intros H; now inversion H.
Qed.

(** [createOnChainData] computes the address of the hotel before anything is
    sent: once the nonce of the index contract and the future address are
    known, the hotel has that address however the rest of the call ends.
    The call itself never marks the hotel as deployed (the wallet's callback
    does).  When it returns, it returns one hash, and the one transaction
    handed to the wallet was [registerHotel] with the [dataUri] the hotel
    had, from the sender of the options. *)
Theorem createOnChainData_precomputes_address
    (options : TransactionOptions) (s : State) (n future : Val)
    (r : result (list Val)) (s' : State) :
  respond (length (trace s)) (AddressNonce (indexAddress (self s))) = Ok n →
  respond (S (length (trace s))) (FutureAddress (indexAddress (self s)) n) = Ok future →
  createOnChainData options s = (r, s') →
  address (self s') = future
  ∧ lifecycleState (dataset s') = lifecycleState (dataset s)
  ∧ (∀ hashes, r = Ok hashes →
       ∃ uri gas nonce hash,
         hashes = [hash]
         ∧ writes (trace s')
           = writes (trace s)
             ++ [Remote (EstimateGas (RegisterHotel uri) (sender options));
                 Remote (SignAndSend (RegisterHotel uri) (sender options) nonce gas)]
         ∧ (∀ v, cached (dataset s) "_dataUri" = Some (VStr v) → v ≠ "" →
              lifecycleState (dataset s) ≠ Obsolete → uri = VStr v)).
Proof.
  intros Hn Hf. unfold createOnChainData, remote.
  unfold bind at 1. unfold gets at 1.
  unfold bind at 1. rewrite Hn.
  unfold bind at 1. unfold emit at 1. simpl. rewrite length_app. simpl.
  rewrite Nat.add_1_r, Hf.
  unfold bind at 1. unfold modify at 1.
  set (s2 := put_address future _).
  unfold bind at 1.
  destruct (get_dataUri s2) as [[uri|e] s3] eqn:Eu;
    destruct (reads_only_get_dataUri _ _ _ Eu) as (Hh & Hdi & Ha & Hl & added & Htr & Hreads).
  2:{ intros H. inversion H; subst. split; [exact Ha|]. split; [exact Hl|]. discriminate. }
  unfold bind at 1.
  destruct (send "Cannot create hotel: " (RegisterHotel uri) options s3) as [[hash|e] s4] eqn:Es;
    destruct (send_cases _ _ _ _ _ _ Es) as (Hself & _ & Hw);
    unfold ret; intros H; inversion H; subst; clear H.
  - split; [rewrite Hself; exact Ha|]. split; [unfold dataset in *; rewrite Hself; exact Hl|].
    intros hashes Hh'. inversion Hh'; subst.
    destruct Hw as [[Hno _]|(gas & nonce & Hw & _)]; [discriminate|].
    exists uri, gas, nonce, hash. split; [reflexivity|]. split.
    + rewrite Hw, Htr, writes_app, (reads_write_nothing _ Hreads), app_nil_r.
      unfold s2. simpl. rewrite !writes_app. simpl. now rewrite !app_nil_r.
    + intros v Hc Hne Hobs.
      assert (Hg : get_dataUri s2 = (Ok (VStr v), s2)).
      { unfold get_dataUri. rewrite (getter_cached "_dataUri" s2 (VStr v)); auto.
        simpl. now destruct v. }
      rewrite Hg in Eu. now inversion Eu.
  - split; [rewrite Hself; exact Ha|]. split; [unfold dataset in *; rewrite Hself; exact Hl|].
    discriminate.
Qed.

(** [removeOnChainData] on a deployed hotel leaves the hotel as it is: the
    record becomes obsolete in the wallet's callback, not in the call.  When
    it returns, it returns one hash, and the one transaction handed to the
    wallet was [deleteHotel] of the hotel's address.  Once the callback has
    run, a further removal fails at once and asks nothing of the network. *)
Theorem removeOnChainData_once
    (options : TransactionOptions) (s : State) (r : result (list Val)) (s' : State) :
  isDeployed (dataset s) = true →
  removeOnChainData options s = (r, s') →
  self s' = self s
  ∧ (∀ hashes, r = Ok hashes →
       ∃ gas nonce hash,
         hashes = [hash]
         ∧ writes (trace s')
           = writes (trace s)
             ++ [Remote (EstimateGas (DeleteHotel (address (self s))) (sender options));
                 Remote (SignAndSend (DeleteHotel (address (self s))) (sender options)
                           nonce gas)])
  ∧ (∀ e, r = Throw e →
       (∃ cause, e = mkError PlainError ("Cannot remove hotel: " ++ message cause))
       ∨ writes (trace s')
         = writes (trace s)
           ++ [Remote (EstimateGas (DeleteHotel (address (self s))) (sender options))])
  ∧ (∀ options',
       removeOnChainData options' (snd (onRemoved s'))
       = (Throw (mkError PlainError "Cannot remove hotel: not deployed"),
          snd (onRemoved s'))).
Proof.
  intros Hd.
  assert (Hdep : lifecycleState (onChainDataset (self s)) = Deployed).
  { unfold isDeployed, dataset in Hd. now apply bool_decide_eq_true in Hd. }
  unfold removeOnChainData. unfold bind at 1. unfold gets at 1. rewrite Hd.
  simpl. unfold bind at 1. unfold gets at 1. unfold bind at 1.
  destruct (send "Cannot remove hotel: " (DeleteHotel (address (self s))) options s)
    as [[hash|e] s1] eqn:Es;
    destruct (send_cases _ _ _ _ _ _ Es) as (Hself & _ & Hw);
    unfold ret; intros H; inversion H; subst; clear H.
  - split; [exact Hself|]. split; [|split].
    + intros hashes Hh. inversion Hh; subst.
      destruct Hw as [[Hno _]|(gas & nonce & Hw & _)]; [discriminate|].
      exists gas, nonce, hash. auto.
    + discriminate.
    + intros options'. apply removeOnChainData_not_deployed.
      unfold onRemoved, bind, gets, modify, dataset. simpl. rewrite Hself, Hdep. discriminate.
  - split; [exact Hself|]. split; [|split].
    + discriminate.
    + intros e0 He. inversion He; subst.
      destruct Hw as [[_ Hw]|(gas & nonce & _ & [[hash Hh]|[cause Hc]])].
      * now right.
      * discriminate.
      * left. exists (mkError PlainError (error_string cause)). now inversion Hc.
    + intros options'. apply removeOnChainData_not_deployed.
      unfold onRemoved, bind, gets, modify, dataset. simpl. rewrite Hself, Hdep. discriminate.
Qed.

(** [__editInfoOnChain], the setter behind [dataUri].  Without an address
    it throws before anything is asked of the network.  When it returns,
    the one transaction handed to the wallet was [callHotel] on the hotel's
    address with [editInfo] of the [dataUri] the hotel had, and the hotel
    kept its address, its lifecycle state and its [dataIndex]. *)
Theorem editInfoOnChain_sends (options : TransactionOptions) (s : State) :
  (truthy (address (self s)) = false →
     __editInfoOnChain options s = (Throw without_address, s))
  ∧ (∀ hash s', __editInfoOnChain options s = (Ok hash, s') →
       ∃ uri gas nonce,
         writes (trace s')
         = writes (trace s)
           ++ [Remote (EstimateGas (CallHotel (address (self s)) uri) (sender options));
               Remote (SignAndSend (CallHotel (address (self s)) uri) (sender options)
                         nonce gas)]
         ∧ address (self s') = address (self s)
         ∧ lifecycleState (dataset s') = lifecycleState (dataset s)
         ∧ _dataIndex (self s') = _dataIndex (self s)
         ∧ (∀ v, cached (dataset s) "_dataUri" = Some (VStr v) → v ≠ "" →
              lifecycleState (dataset s) ≠ Obsolete → uri = VStr v)).
Proof.
  split.
  - intros Ha. unfold __editInfoOnChain, __getContractInstance, bind, gets. simpl.
    now rewrite Ha.
  - intros hash s'. unfold __editInfoOnChain. unfold bind at 1.
    destruct (__getContractInstance s) as [[c|e] s1] eqn:Ec; [|discriminate].
    pose proof (reads_only_getContractInstance _ _ _ Ec) as R1.
    unfold bind at 1.
    destruct (get_dataUri s1) as [[uri|e] s2] eqn:Eu; [|discriminate].
    pose proof (reads_only_get_dataUri _ _ _ Eu) as R2.
    pose proof (reads_only_trans _ _ _ R1 R2) as R.
    unfold bind at 1. unfold gets at 1.
    intros Es. destruct (send_cases _ _ _ _ _ _ Es) as (Hself & _ & Hw).
    destruct R as (_ & Hdi & Ha & Hl & added & Htr & Hreads).
    destruct R1 as (_ & _ & Ha1 & _). destruct R2 as (_ & _ & Ha2 & _).
    destruct Hw as [[Hno _]|(gas & nonce & Hw & _)]; [discriminate|].
    exists uri, gas, nonce. split; [|split; [|split; [|split]]].
    + rewrite Hw, Htr, writes_app, (reads_write_nothing _ Hreads), app_nil_r.
      now rewrite Ha2, Ha1.
    + now rewrite Hself.
    + unfold dataset in *. now rewrite Hself.
    + now rewrite Hself.
    + intros v Hc Hne Hobs.
      assert (Hds : dataset s1 = dataset s) by (eapply getContractInstance_dataset; eauto).
      assert (Hg : get_dataUri s1 = (Ok (VStr v), s1)).
      { unfold get_dataUri. rewrite (getter_cached "_dataUri" s1 (VStr v)); rewrite ?Hds; auto.
        simpl. now destruct v. }
      rewrite Hg in Eu. now inversion Eu.
Qed.

End Hotel.

(** *** A hotel of the test network *)

Definition sample_respond (clock : nat) (r : Request) : result Val :=
  match r with
  | GetHotelInstance _ => Ok (VObject 1)
  | Call _ method =>
      if String.eqb method "dataUri" then Ok (VStr "json://urlone")
      else if String.eqb method "manager"
      then Ok (VStr "0xd39ca7d186a37bb6bf48ae8abfeb4c687dc8f906")
      else Throw (mkError PlainError "no such method")
  | EstimateGas _ _ => Ok (VNum 21000)
  | AddressNonce _ => Ok (VNum 7)
  | FutureAddress _ _ => Ok (VStr "0xfuture")
  | SignAndSend _ _ _ _ => Ok (VStr "0xhash")
  | _ => Throw (mkError PlainError "unexpected request")
  end.

(** A network that cannot be reached. *)
Definition unreachable (clock : nat) (r : Request) : result Val :=
  Throw (mkError PlainError "connection refused").

Definition sample_settle (p : nat) : result Val :=
  Throw (mkError PlainError "rejected").

Definition sample_download (uri : string) : result StoragePointer.Document :=
  if String.eqb uri "json://urlone" then
    Ok [ ("descriptionUri", StoragePointer.JStr "json://descriptionone") ]
  else if String.eqb uri "json://descriptionone" then
    Ok [ ("name", StoragePointer.JStr "First hotel");
         ("description", StoragePointer.JStr "Best hotel.");
         ("location", StoragePointer.JObj
                        [ ("latitude", StoragePointer.JStr "50.0754789");
                          ("longitude", StoragePointer.JStr "14.4225864") ]) ]
  else Throw (mkError PlainError "not found").

Definition sample_hotel : State :=
  {| self := createInstance (VStr "0xindex")
                            (VStr "0xbf18b616ac81830dd0c5d4b771f22fd8144fe769");
     trace := [];
     heap := [] |}.

(** The same hotel once its [dataIndex] was accessed. *)
Definition sample_indexed : State :=
  snd (get_dataIndex sample_respond sample_settle sample_hotel).

Example sample_indexed_pointer :
  _dataIndex (self sample_indexed) = Some 0
  ∧ StoragePointer.ref <$> heap sample_indexed !! 0 = Some (VStr "json://urlone").
Proof. split; reflexivity. Qed.

(** The runs of test/usage.spec.js on this hotel. *)

Example usage_get_hotel :
  fst (get_dataUri sample_respond sample_settle sample_hotel) = Ok (VStr "json://urlone").
Proof. reflexivity. Qed.

Example usage_initialized_dataIndex :
  StoragePointer.ref <$> heap sample_indexed !! 0
  = Some (VStr "json://urlone")
  ∧ fst (get_dataUri sample_respond sample_settle sample_indexed)
    = Ok (VStr "json://urlone")
  ∧ trace sample_indexed
    = [ Remote (GetHotelInstance (VStr "0xbf18b616ac81830dd0c5d4b771f22fd8144fe769"));
        Remote (Call (VObject 1) "dataUri");
        PointerCreated (VStr "json://urlone") ].
Proof. repeat split. Qed.

Example usage_toPlainObject :
  match fst (toPlainObject sample_respond sample_settle sample_download None sample_hotel) with
  | Ok r =>
      StoragePointer.at_path (plain_dataUri r) ["descriptionUri"; "name"]
      = Some (StoragePointer.PValue (StoragePointer.JStr "First hotel"))
      ∧ plain_manager r = VStr "0xd39ca7d186a37bb6bf48ae8abfeb4c687dc8f906"
      ∧ plain_address r = VStr "0xbf18b616ac81830dd0c5d4b771f22fd8144fe769"
  | Throw _ => False
  end.
Proof. vm_compute. repeat split. Qed.

Example usage_toPlainObject_path :
  match fst (toPlainObject sample_respond sample_settle sample_download
               (Some ["descriptionUri.name"]) sample_hotel) with
  | Ok r =>
      StoragePointer.at_path (plain_dataUri r) ["descriptionUri"; "name"]
      = Some (StoragePointer.PValue (StoragePointer.JStr "First hotel"))
  | Throw _ => False
  end.
Proof. vm_compute. reflexivity. Qed.

Example usage_update_hotel :
  let options := {| sender := VStr "0xd39ca7d186a37bb6bf48ae8abfeb4c687dc8f906";
                    recipient := VStr "0xindex" |} in
  let updated := snd (set_dataUri (VStr "json://another-url") sample_indexed) in
  let committed := updateOnChainData sample_respond sample_settle options updated in
  fst committed = Ok [VStr "0xhash"]
  ∧ List.filter (fun e => match e with SetterInvoked _ => true | _ => false end)
                (trace (snd committed))
    = [SetterInvoked "__editInfoOnChain"].
Proof. vm_compute. split; reflexivity. Qed.

Example usage_no_dataUri :
  fst (set_dataUri VUndefined sample_indexed) = Throw not_provided.
Proof. reflexivity. Qed.

Example usage_no_address :
  let options := {| sender := VStr "0xd39c"; recipient := VStr "0xindex" |} in
  let fresh := {| self := createInstance (VStr "0xindex") VUndefined;
                  trace := []; heap := [] |} in
  let filled := snd (setLocalData sample_settle (VStr "0xd39c")
                                  (VStr "json://some-data-hash") fresh) in
  cached (dataset filled) "_dataUri" = Some (VStr "json://some-data-hash")
  ∧ fst (updateOnChainData sample_respond sample_settle options filled)
    = Throw (mkError PlainError "Cannot get hotel instance without address").
Proof. vm_compute. split; reflexivity. Qed.

(** A hotel that is about to be registered: made without an address, then
    given its manager and its data. *)
Definition sample_options : TransactionOptions :=
  {| sender := VStr "0xd39c"; recipient := VStr "0xindex" |}.

Definition sample_new : State :=
  snd (setLocalData sample_settle (VStr "0xd39c") (VStr "json://some-data-hash")
         {| self := createInstance (VStr "0xindex") VUndefined; trace := []; heap := [] |}).

(** A wallet that refuses to sign. *)
Definition locked_wallet (clock : nat) (r : Request) : result Val :=
  match r with
  | SignAndSend _ _ _ _ => Throw (mkError PlainError "wallet locked")
  | _ => sample_respond clock r
  end.

Example removeOnChainData_wallet_locked :
  fst (removeOnChainData locked_wallet sample_options sample_hotel)
  = Throw (mkError PlainError "Cannot remove hotel: Error: wallet locked").
Proof. reflexivity. Qed.

Lemma createOnChainData_precomputes_address_witness :
  address (self (snd (createOnChainData sample_respond sample_settle sample_options sample_new)))
  = VStr "0xfuture"
  ∧ lifecycleState
      (dataset (snd (createOnChainData sample_respond sample_settle sample_options sample_new)))
    = NotDeployed.
Proof.
  destruct (createOnChainData_precomputes_address sample_respond sample_settle
              sample_options sample_new (VNum 7) (VStr "0xfuture")
              (fst (createOnChainData sample_respond sample_settle sample_options sample_new))
              (snd (createOnChainData sample_respond sample_settle sample_options sample_new))
              eq_refl eq_refl eq_refl) as (Ha & Hl & _).
  split; [exact Ha | exact (eq_trans Hl eq_refl)].
Defined.

Lemma removeOnChainData_once_witness :
  fst (removeOnChainData sample_respond sample_options
         (snd (onRemoved (snd (removeOnChainData sample_respond sample_options sample_hotel)))))
  = Throw (mkError PlainError "Cannot remove hotel: not deployed").
Proof.
  destruct (removeOnChainData_once sample_respond sample_options sample_hotel
              (fst (removeOnChainData sample_respond sample_options sample_hotel))
              (snd (removeOnChainData sample_respond sample_options sample_hotel))
              eq_refl eq_refl) as (_ & _ & _ & H).
  exact (f_equal fst (H sample_options)).
Defined.

Lemma set_dataUri_atomic_witness :
  set_dataUri (VStr "urlone") sample_indexed = (Throw invalid_format, sample_indexed)
  ∧ set_dataUri (VStr "") sample_indexed = (Throw not_provided, sample_indexed).
Proof.
  destruct (set_dataUri_atomic sample_indexed (VStr "urlone")) as (_ & _ & H3 & _).
  destruct (set_dataUri_atomic sample_indexed (VStr "")) as (H1 & _ & _).
  split.
  - destruct (H3 invalid_format sample_indexed eq_refl) as (_ & _ & _).
    reflexivity.
  - exact (H1 eq_refl).
Defined.

(** The hotel of the test network once its [dataIndex] was accessed and its
    removal was confirmed. *)
Definition sample_destroyed : State := snd (onRemoved sample_indexed).

(** On the destroyed hotel the setter throws for a well-formed URI, and the
    [dataIndex] the hotel had is gone. *)
Lemma set_dataUri_drops_dataIndex :
  _dataIndex (self sample_destroyed) = Some 0
  ∧ fst (set_dataUri (VStr "json://another-url") sample_destroyed) = Throw destroyed
  ∧ _dataIndex (self (snd (set_dataUri (VStr "json://another-url") sample_destroyed)))
    = None.
Proof. repeat split. Qed.

Lemma set_dataUri_invalidates_witness :
  _dataIndex (self (snd (set_dataUri (VStr "json://another-url") sample_indexed))) = None
  ∧ cached (dataset (snd (set_dataUri (VStr "json://another-url") sample_indexed)))
           "_dataUri" = Some (VStr "json://another-url")
  ∧ _dataIndex (self (snd (set_dataUri (VStr "json://urlone") sample_indexed))) = Some 0.
Proof.
  destruct (set_dataUri_invalidates sample_respond sample_settle sample_indexed
              (snd (set_dataUri (VStr "json://another-url") sample_indexed))
              (VStr "json://another-url") eq_refl) as (H1 & _ & _ & H4).
  destruct (set_dataUri_invalidates sample_respond sample_settle sample_indexed
              (snd (set_dataUri (VStr "json://urlone") sample_indexed))
              (VStr "json://urlone") eq_refl) as (_ & _ & H3 & _).
  split; [apply H4; vm_compute; discriminate|].
  split; [exact H1|].
  exact (eq_trans (H3 eq_refl) eq_refl).
Defined.


(** A hotel whose contract holds an empty [dataUri]. *)
Definition sample_unset (clock : nat) (r : Request) : result Val :=
  match r with
  | GetHotelInstance _ => Ok (VObject 1)
  | Call _ _ => Ok (VStr "")
  | _ => Throw (mkError PlainError "unexpected request")
  end.


(** The plain object of the hotel for the path [descriptionUri]. *)
Definition sample_plain : PlainHotel :=
  match fst (toPlainObject sample_respond sample_settle sample_download
               (Some ["descriptionUri"]) sample_hotel) with
  | Ok r => r
  | Throw _ => {| plain_manager := VUndefined; plain_address := VUndefined;
                  plain_dataUri := StoragePointer.PValue StoragePointer.JNull |}
  end.


(** Two calls in a row on a deployed hotel while the network cannot be
    reached: both reject, and the contract-instantiation collaborator is
    called twice. *)
Lemma getContractInstance_retried :
  is_ok (fst (__getContractInstance unreachable sample_hotel)) = false
  ∧ trace (repeatedly 2 (__getContractInstance unreachable) sample_hotel)
    = [ Remote (GetHotelInstance (VStr "0xbf18b616ac81830dd0c5d4b771f22fd8144fe769"));
        Remote (GetHotelInstance (VStr "0xbf18b616ac81830dd0c5d4b771f22fd8144fe769")) ]
  ∧ instantiations
      (trace (repeatedly 2 (__getContractInstance unreachable) sample_hotel)) = 2.
Proof. repeat split. Qed.

End OnChainHotel.

(** ** [OnChainAirline] (src/data-model/on-chain-airline.js) *)

Module OnChainAirline.

Import RemotelyBackedDataset.

(** The object's own state.  [onChainDataset] is [undefined] until
    [initialize] assigns it.  [_endpoint], [_manager] and [_token] are the
    object's own data properties for as long as no dataset has bound
    accessors of these names on it. *)
Record Airline : Type :=
  { address : Val;
    indexAddress : Val;   (* indexContract.options.address *)
    contractInstance : Val;
    onChainDataset : option Dataset;
    _initialized : bool;
    _endpoint : Val;
    _manager : Val;
    _token : Val }.

Record State : Type := { self : Airline; trace : list Event }.

Record TransactionOptions : Type := { sender : Val; recipient : Val }.

(** [transactionData] of a [PreparedAirlineTransactionMetadataInterface] *)
Record PreparedTransaction : Type :=
  { tx_nonce : Val; tx_data : Tx; tx_from : Val; tx_to : Val; tx_gas : Val }.

Definition with_self (f : Airline → Airline) (s : State) : State :=
  {| self := f (self s); trace := trace s |}.

Definition put_dataset (ds : option Dataset) : State → State :=
  with_self (fun a => {| address := address a; indexAddress := indexAddress a;
                         contractInstance := contractInstance a;
                         onChainDataset := ds; _initialized := _initialized a;
                         _endpoint := _endpoint a; _manager := _manager a;
                         _token := _token a |}).

Definition put_contractInstance (c : Val) : State → State :=
  with_self (fun a => {| address := address a; indexAddress := indexAddress a;
                         contractInstance := c;
                         onChainDataset := onChainDataset a;
                         _initialized := _initialized a;
                         _endpoint := _endpoint a; _manager := _manager a;
                         _token := _token a |}).

Definition put_initialized (b : bool) : State → State :=
  with_self (fun a => {| address := address a; indexAddress := indexAddress a;
                         contractInstance := contractInstance a;
                         onChainDataset := onChainDataset a; _initialized := b;
                         _endpoint := _endpoint a; _manager := _manager a;
                         _token := _token a |}).

(** An own data property of one of the three names. *)
Definition own (a : Airline) (name : string) : Val :=
  if String.eqb name "_endpoint" then _endpoint a
  else if String.eqb name "_manager" then _manager a
  else if String.eqb name "_token" then _token a
  else VUndefined.

Definition put_own (name : string) (v : Val) : State → State :=
  with_self (fun a => {| address := address a; indexAddress := indexAddress a;
                         contractInstance := contractInstance a;
                         onChainDataset := onChainDataset a;
                         _initialized := _initialized a;
                         _endpoint := if String.eqb name "_endpoint" then v else _endpoint a;
                         _manager := if String.eqb name "_manager" then v else _manager a;
                         _token := if String.eqb name "_token" then v else _token a |}).

Definition emit (e : Event) (s : State) : State :=
  {| self := self s; trace := trace s ++ [e] |}.

(** The dataset whose accessor stands for [this.<name>], if one was bound. *)
Definition accessor (a : Airline) (name : string) : option Dataset :=
  match onChainDataset a with
  | Some ds => match lookup name (fields ds) with Some _ => Some ds | None => None end
  | None => None
  end.

(** The methods and accessors the class body defines. *)
Definition class_members : list string :=
  [ "constructor"; "initialize"; "endpoint"; "manager"; "token"; "setLocalData";
    "_getContractInstance"; "_editEndpointOnChain"; "createOnChainData";
    "updateOnChainData"; "transferOnChainOwnership"; "removeOnChainData" ].

(** [this.<name>] for a name that is no data property of the object: the
    member of the class, or [undefined]. *)
Definition member (name : string) : option string :=
  if bool_decide (name ∈ class_members) then Some name else None.

(** [new OnChainAirline (web3Utils, web3Contracts, indexContract, address)] *)
Definition construct (indexAddr addr : Val) : Airline :=
  {| address := addr; indexAddress := indexAddr; contractInstance := VUndefined;
     onChainDataset := None; _initialized := false;
     _endpoint := VUndefined; _manager := VUndefined; _token := VUndefined |}.

(** [initialize ()].  The argument of [bindProperties] is evaluated before
    the call: its object literal takes [this._editInfoOnChain.bind (this)]. *)
Definition initialize : M State unit :=
  modify (put_dataset (Some RemotelyBackedDataset.createInstance)) ;;;
  match member "_editInfoOnChain" with
  | None => throw (mkError TypeError "Cannot read property 'bind' of undefined")
  | Some setter =>
      modify (fun s => put_dataset
                (option_map (bindProperties [ ("_endpoint", Some setter);
                                              ("_manager", None);
                                              ("_token", Some setter) ])
                            (onChainDataset (self s))) s) ;;;
      modify (put_initialized true) ;;;
      a <~ gets (fun s => address (self s)) ;;
      if truthy a
      then modify (fun s => put_dataset (option_map markDeployed (onChainDataset (self s))) s)
      else ret tt
  end.

(** [OnChainAirline.createInstance (..., address)] *)
Definition createInstance (indexAddr addr : Val) : result Airline :=
  match initialize {| self := construct indexAddr addr; trace := [] |} with
  | (Ok _, s) => Ok (self s)
  | (Throw e, _) => Throw e
  end.

Section Airline.

Variable respond : nat → Request → result Val.
Variable settle : nat → result Val.

Definition remote (r : Request) : M State Val :=
  fun s => (respond (length (trace s)) r, emit (Remote r) s).

Definition await (v : Val) : M State Val :=
  match v with
  | VPromise p => lift (settle p)
  | _ => ret v
  end.

(** A request that is started now and awaited later. *)
Definition start (r : Request) : M State (result Val) :=
  fun s => (Ok (respond (length (trace s)) r), emit (Remote r) s).

Definition _getContractInstance : M State Val :=
  a <~ gets (fun s => address (self s)) ;;
  if negb (truthy a) then
    throw (mkError SmartContractInstantiationError
             "Cannot get airline instance without address")
  else
    c <~ gets (fun s => contractInstance (self s)) ;;
    (if negb (truthy c) then
       fresh <~ remote (GetAirlineInstance a) ;;
       modify (put_contractInstance fresh)
     else ret tt) ;;;
    gets (fun s => contractInstance (self s)).

(** The [remoteGetter] closures of [initialize]. *)
Definition remoteGetter (name : string) : M State Val :=
  if String.eqb name "_endpoint" then
    c <~ _getContractInstance ;; remote (Call c "endpoint")
  else if String.eqb name "_manager" then
    c <~ _getContractInstance ;; remote (Call c "manager")
  else if String.eqb name "_token" then
    c <~ _getContractInstance ;; remote (Call c "token")
  else throw (mkError TypeError "remoteGetter is not a function").

(** [await this.<name>] *)
Definition read_property (name : string) : M State Val :=
  a <~ gets self ;;
  match accessor a name with
  | Some ds =>
      r <~ read State remoteGetter name ds ;;
      modify (put_dataset (Some (snd r))) ;;;
      await (fst r)
  | None => await (own a name)
  end.

(** [this.<name> = v] *)
Definition write_property (name : string) (v : Val) : M State unit :=
  a <~ gets self ;;
  match accessor a name with
  | Some ds => ds' <~ lift (write name v ds) ;; modify (put_dataset (Some ds'))
  | None => modify (put_own name v)
  end.

Definition get_endpoint : M State Val :=
  initialized <~ gets (fun s => _initialized (self s)) ;;
  if negb initialized then ret VUndefined else read_property "_endpoint".

Definition endpoint_not_provided : Error :=
  mkError InputDataError
    "Cannot update airline: Cannot set endpoint when it is not provided".

Definition endpoint_must_be_string : Error :=
  mkError InputDataError
    "Cannot update airline: Cannot set endpoint with invalid type, must be string".

Definition set_endpoint (newEndpoint : Val) : M State unit :=
  if negb (truthy newEndpoint) then throw endpoint_not_provided
  else if typeof_string newEndpoint then throw endpoint_must_be_string
  else write_property "_endpoint" newEndpoint.

Definition get_manager : M State Val :=
  initialized <~ gets (fun s => _initialized (self s)) ;;
  if negb initialized then ret VUndefined else read_property "_manager".

Definition set_manager (newManager : Val) : M State unit :=
  if negb (truthy newManager) then
    throw (mkError InputDataError "Cannot update airline: Cannot set manager to null")
  else
    a <~ gets (fun s => address (self s)) ;;
    if truthy a then
      throw (mkError InputDataError
               "Cannot update airline: Cannot set manager when airline is deployed")
    else write_property "_manager" newManager.

Definition get_token : M State Val :=
  initialized <~ gets (fun s => _initialized (self s)) ;;
  if negb initialized then ret VUndefined else read_property "_token".

(* [set token] has no model: in the source the block of its second [if] is
   never closed, so the text between [set token] and [setLocalData] is no
   method body.  Nothing below refers to it; [setLocalData] stores the
   token through [this.dataUri]. *)

Definition _editEndpointOnChain (options : TransactionOptions)
    : M State PreparedTransaction :=
  c <~ _getContractInstance ;;
  e <~ get_endpoint ;;
  a <~ gets (fun s => address (self s)) ;;
  estimate <~ start (EstimateGas (CallAirline a e) (sender options)) ;;
  nonce <~ remote (AddressNonce (sender options)) ;;
  ia <~ gets (fun s => indexAddress (self s)) ;;
  gas <~ lift estimate ;;
  ret {| tx_nonce := nonce; tx_data := CallAirline a e; tx_from := sender options;
         tx_to := ia; tx_gas := gas |}.

(** The setter the dataset invokes for a setter identity. *)
Definition invoke (setter : string) (payload : Payload) (options : TransactionOptions)
    : M State PreparedTransaction :=
  modify (emit (SetterInvoked setter)) ;;;
  if String.eqb setter "_editEndpointOnChain" then _editEndpointOnChain options
  else throw (mkError TypeError "remoteSetter is not a function").

Definition updateOnChainData (options : TransactionOptions)
    : M State (list PreparedTransaction) :=
  _getContractInstance ;;;
  ds <~ gets (fun s => onChainDataset (self s)) ;;
  match ds with
  | Some ds => updateRemoteData State TransactionOptions PreparedTransaction invoke options ds
  | None => throw (mkError TypeError "Cannot read property 'updateRemoteData' of undefined")
  end.

Definition removeOnChainData (options : TransactionOptions)
    : M State PreparedTransaction :=
  ds <~ gets (fun s => onChainDataset (self s)) ;;
  match ds with
  | None => throw (mkError TypeError "Cannot read property 'isDeployed' of undefined")
  | Some ds =>
      if negb (isDeployed ds) then
        throw (mkError SmartContractInstantiationError "Cannot remove airline: not deployed")
      else
        a <~ gets (fun s => address (self s)) ;;
        estimate <~ start (EstimateGas (DeleteAirline a) (sender options)) ;;
        nonce <~ remote (AddressNonce (sender options)) ;;
        ia <~ gets (fun s => indexAddress (self s)) ;;
        gas <~ lift estimate ;;
        ret {| tx_nonce := nonce; tx_data := DeleteAirline a; tx_from := sender options;
               tx_to := ia; tx_gas := gas |}
  end.

(** [eventCallbacks.onReceipt] of the removal. *)
Definition onRemoved : M State unit :=
  modify (fun s => put_dataset (option_map markObsolete (onChainDataset (self s))) s).

(** The lifecycle state of the airline's dataset, if it has one. *)
Definition lifecycle (s : State) : option LifecycleState :=
  option_map lifecycleState (onChainDataset (self s)).

(** *** [initialize] *)

Definition bind_of_undefined : Error :=
  mkError TypeError "Cannot read property 'bind' of undefined".

Lemma member_editInfoOnChain : member "_editInfoOnChain" = None.
Proof. reflexivity. Qed.

Lemma initialize_throws s :
  initialize s
  = (Throw bind_of_undefined, put_dataset (Some RemotelyBackedDataset.createInstance) s).
Proof. reflexivity. Qed.

(** *** The [endpoint] setter *)

Lemma set_endpoint_string s str :
  set_endpoint (VStr str) s
  = (Throw (if String.eqb str "" then endpoint_not_provided else endpoint_must_be_string), s).
Proof.
  unfold set_endpoint. simpl. destruct (String.eqb str ""); reflexivity.
Qed.

(** What the setter does accept: a truthy value that is no string. *)
Lemma set_endpoint_promise s p :
  accessor (self s) "_endpoint" = None →
  set_endpoint (VPromise p) s = (Ok tt, put_own "_endpoint" (VPromise p) s).
Proof.
  intros H. unfold set_endpoint, write_property, bind, gets. simpl. now rewrite H.
Qed.

(** *** Reads *)

Definition airline_reads_only (s s' : State) : Prop :=
  onChainDataset (self s') = onChainDataset (self s)
  ∧ address (self s') = address (self s)
  ∧ ∃ added, trace s' = trace s ++ added ∧ forallb is_read added = true.

Lemma airline_reads_only_refl s : airline_reads_only s s.
Proof. repeat split. exists []. now rewrite app_nil_r. Qed.

Lemma airline_reads_only_trans s1 s2 s3 :
  airline_reads_only s1 s2 → airline_reads_only s2 s3 → airline_reads_only s1 s3.
Proof.
  intros (H1 & H2 & a1 & Ha1 & Hr1) (K1 & K2 & a2 & Ha2 & Hr2).
  repeat split; try congruence.
  exists (a1 ++ a2). rewrite Ha2, Ha1, <- app_assoc. split; [reflexivity|].
  rewrite forallb_app, Hr1, Hr2. reflexivity.
Qed.

Lemma airline_reads_only_getContractInstance :
  preserves State airline_reads_only _getContractInstance.
Proof.
  unfold _getContractInstance.
  apply preserves_bind;
    [apply airline_reads_only_trans | apply preserves_gets, airline_reads_only_refl |].
  intros a. destruct (negb (truthy a)); [apply preserves_throw, airline_reads_only_refl|].
  apply preserves_bind;
    [apply airline_reads_only_trans | apply preserves_gets, airline_reads_only_refl |].
  intros c. apply preserves_bind; [apply airline_reads_only_trans | | ].
  - destruct (negb (truthy c)); [|apply preserves_ret, airline_reads_only_refl].
    apply preserves_bind; [apply airline_reads_only_trans | |].
    + intros s x s' H. unfold remote in H. inversion H; subst.
      repeat split. exists [Remote (GetAirlineInstance a)]. split; reflexivity.
    + intros fresh. apply preserves_modify. intros s.
      repeat split. exists []. simpl. now rewrite app_nil_r.
  - intros _. apply preserves_gets, airline_reads_only_refl.
Qed.

Lemma airline_reads_only_writes s s' :
  airline_reads_only s s' → writes (trace s') = writes (trace s).
Proof.
  intros (_ & _ & added & Htr & Hreads).
  now rewrite Htr, writes_app, (reads_write_nothing _ Hreads), app_nil_r.
Qed.

(** *** Memoization *)

Lemma airline_getContractInstance_memoized s c s1 :
  _getContractInstance s = (Ok c, s1) → truthy c = true →
  _getContractInstance s1 = (Ok c, s1).
Proof.
  unfold _getContractInstance, remote, bind, gets, modify, ret, throw. simpl.
  destruct (truthy (address (self s))) eqn:Ea; simpl; [|discriminate].
  destruct (truthy (contractInstance (self s))) eqn:Ec; simpl.
  - intros H Hc. inversion H; subst. rewrite Ea. simpl. now rewrite Ec.
  - destruct (respond (length (trace s)) (GetAirlineInstance (address (self s))))
      as [fresh|e]; simpl; [|discriminate].
    intros H Hc. inversion H; subst. simpl. rewrite Ea. simpl. now rewrite Hc.
Qed.

Lemma airline_getContractInstance_failure s e s1 :
  _getContractInstance s = (Throw e, s1) →
  contractInstance (self s1) = contractInstance (self s).
Proof.
  unfold _getContractInstance, remote, bind, gets, modify, ret, throw. simpl.
  destruct (truthy (address (self s))); simpl; [|intros H; now inversion H].
  destruct (truthy (contractInstance (self s))); simpl; [discriminate|].
  destruct (respond _ _); simpl; [discriminate|]. intros H. now inversion H.
Qed.

(** *** Commit and removal before deployment *)

Lemma airline_updateOnChainData_not_deployed options s :
  lifecycle s ≠ Some Deployed →
  ∃ e s', updateOnChainData options s = (Throw e, s')
          ∧ writes (trace s') = writes (trace s)
          ∧ airline_reads_only s s'.
Proof.
  intros Hl. unfold updateOnChainData, bind.
  destruct (_getContractInstance s) as [[c|e] s1] eqn:Ec;
    pose proof (airline_reads_only_getContractInstance _ _ _ Ec) as Hr.
  - unfold gets. simpl.
    destruct Hr as (Hds & Ha & Htr). rewrite Hds.
    unfold lifecycle in Hl.
    destruct (onChainDataset (self s)) as [ds|] eqn:Eds; simpl in *.
    + unfold updateRemoteData. unfold isDeployed.
      rewrite bool_decide_eq_false_2 by congruence.
      unfold throw. eexists _, s1. split; [reflexivity|].
      assert (Hr : airline_reads_only s s1) by (repeat split; auto; congruence).
      split; [now apply airline_reads_only_writes | exact Hr].
    + unfold throw. eexists _, s1. split; [reflexivity|].
      assert (Hr : airline_reads_only s s1) by (repeat split; auto; congruence).
      split; [now apply airline_reads_only_writes | exact Hr].
  - exists e, s1. split; [reflexivity|].
    split; [now apply airline_reads_only_writes | exact Hr].
Qed.

Lemma airline_removeOnChainData_not_deployed options s :
  lifecycle s ≠ Some Deployed →
  ∃ e, removeOnChainData options s = (Throw e, s).
Proof.
  intros Hl. unfold removeOnChainData, bind, gets. simpl.
  unfold lifecycle in Hl.
  destruct (onChainDataset (self s)) as [ds|] eqn:Eds; simpl in *.
  - unfold isDeployed. rewrite bool_decide_eq_false_2 by congruence.
    simpl. unfold throw. eauto.
  - unfold throw. eauto.
Qed.

Lemma airline_getContractInstance_once s r s1 :
  _getContractInstance s = (r, s1) →
  (instantiations (trace s1) ≤ instantiations (trace s) + 1)%nat.
Proof.
  unfold _getContractInstance, remote, bind, gets, modify, ret, throw. simpl.
  destruct (truthy (address (self s))); simpl; [|intros H; inversion H; lia].
  destruct (truthy (contractInstance (self s))); simpl; [intros H; inversion H; lia|].
  destruct (respond _ _); simpl; intros H; inversion H; subst; simpl;
    rewrite instantiations_app; simpl; unfold instantiations at 2; simpl; lia.
Qed.

(** C3. What the code does with [airline.endpoint = v] for a string [v]:
    the setter throws an [InputDataError] and leaves the airline as it was,
    so nothing is stored and nothing is marked dirty.  For a non-empty
    string the error is the one of the type check, whose message says the
    value must be a string. *)
Theorem set_endpoint_rejects_strings (s : State) (str : string) :
  ∃ e, set_endpoint (VStr str) s = (Throw e, s)
       ∧ kind e = InputDataError
       ∧ (str ≠ "" → e = endpoint_must_be_string).
Proof.
  rewrite set_endpoint_string. eexists. split; [reflexivity|].
  destruct (String.eqb_spec str ""); split; try reflexivity; congruence.
Qed.

(** C2. What the code does when an airline is created: [initialize] throws
    a [TypeError] at [this._editInfoOnChain.bind (this)], before any field
    is bound, for every address.  On the object it ran on, a commit after
    assigning both [_endpoint] and [_token] invokes no setter and yields no
    descriptor. *)
Theorem createInstance_throws
    (indexAddr addr : Val) (options : TransactionOptions) (e1 e2 : Val) :
  createInstance indexAddr addr = Throw bind_of_undefined
  ∧ ∃ e s',
      updateOnChainData options
        (put_own "_token" e2
           (put_own "_endpoint" e1
              (snd (initialize {| self := construct indexAddr addr; trace := [] |}))))
      = (Throw e, s')
      ∧ writes (trace s') = [].
Proof.
  split; [reflexivity|].
  destruct (airline_updateOnChainData_not_deployed options
              (put_own "_token" e2
                 (put_own "_endpoint" e1
                    (snd (initialize {| self := construct indexAddr addr; trace := [] |})))))
    as (e & s' & H & Hw & _).
  - discriminate.
  - exists e, s'. split; [exact H|]. rewrite Hw. reflexivity.
Qed.

(** *** The other operations of the class *)

Definition put_address (a : Val) : State → State :=
  with_self (fun x => {| address := a; indexAddress := indexAddress x;
                         contractInstance := contractInstance x;
                         onChainDataset := onChainDataset x;
                         _initialized := _initialized x;
                         _endpoint := _endpoint x; _manager := _manager x;
                         _token := _token x |}).

(** [createOnChainData (transactionOptions)] *)
Definition createOnChainData (options : TransactionOptions)
    : M State PreparedTransaction :=
  endpoint <~ get_endpoint ;;
  estimate <~ start (EstimateGas (RegisterAirline endpoint) (sender options)) ;;
  nonce <~ remote (AddressNonce (sender options)) ;;
  ia <~ gets (fun s => indexAddress (self s)) ;;
  gas <~ lift estimate ;;
  ret {| tx_nonce := nonce; tx_data := RegisterAirline endpoint; tx_from := sender options;
         tx_to := ia; tx_gas := gas |}.

(** [eventCallbacks.onReceipt] of the creation; [created] is
    [decodedLogs[0].attributes[0].value] for a receipt that has logs. *)
Definition onCreated (created : option Val) : M State unit :=
  ds <~ gets (fun s => onChainDataset (self s)) ;;
  match ds with
  | None => throw (mkError TypeError "Cannot read property 'markDeployed' of undefined")
  | Some ds =>
      modify (put_dataset (Some (markDeployed ds))) ;;;
      match created with
      | Some a => modify (put_address a)
      | None => ret tt
      end
  end.

Definition not_deployed : Error :=
  mkError SmartContractInstantiationError "Cannot remove airline: not deployed".

(** [transferOnChainOwnership (newManager, transactionOptions)] *)
Definition transferOnChainOwnership (newManager : Val) (options : TransactionOptions)
    : M State PreparedTransaction :=
  ds <~ gets (fun s => onChainDataset (self s)) ;;
  match ds with
  | None => throw (mkError TypeError "Cannot read property 'isDeployed' of undefined")
  | Some ds =>
      if negb (isDeployed ds) then throw not_deployed
      else
        a <~ gets (fun s => address (self s)) ;;
        estimate <~ start (EstimateGas (TransferAirline a newManager) (sender options)) ;;
        nonce <~ remote (AddressNonce (sender options)) ;;
        ia <~ gets (fun s => indexAddress (self s)) ;;
        gas <~ lift estimate ;;
        ret {| tx_nonce := nonce; tx_data := TransferAirline a newManager;
               tx_from := sender options; tx_to := ia; tx_gas := gas |}
  end.

(** [eventCallbacks.onReceipt] of the transfer: [this._manager = newManager]. *)
Definition onTransferred (newManager : Val) : M State unit :=
  write_property "_manager" newManager.

(** The airline together with the property [dataUri]: the class declares no
    such member, so the assignment in [setLocalData] makes it a data
    property of the object. *)
Record Extended : Type := { airline : State; dataUri : Val }.

Definition on_airline {A} (c : M State A) : M Extended A :=
  zoom airline (fun a x => {| airline := a; dataUri := dataUri x |}) c.

(** [setLocalData ({endpoint, manager, token})] *)
Definition setLocalData (endpoint manager token : Val) : M Extended unit :=
  newEndpoint <~ on_airline (await endpoint) ;;
  (if truthy newEndpoint then on_airline (set_endpoint newEndpoint) else ret tt) ;;;
  newManager <~ on_airline (await manager) ;;
  (if truthy newManager then on_airline (set_manager newManager) else ret tt) ;;;
  newToken <~ on_airline (await token) ;;
  (if truthy newToken
   then modify (fun x => {| airline := airline x; dataUri := newToken |})
   else ret tt).

(** **** Nothing is signed *)

Definition is_signature (e : Event) : bool :=
  match e with
  | Remote (SignAndSend _ _ _ _) | SetterInvoked _ => true
  | _ => false
  end.

(** A step that may read, estimate and fill the cache, but leaves the
    address, the index and the lifecycle state alone and signs nothing. *)
Definition prepares (s s' : State) : Prop :=
  address (self s') = address (self s)
  ∧ indexAddress (self s') = indexAddress (self s)
  ∧ lifecycle s' = lifecycle s
  ∧ ∃ added, trace s' = trace s ++ added
             ∧ forallb (fun e => negb (is_signature e)) added = true.

Lemma prepares_refl s : prepares s s.
Proof. repeat split. exists []. now rewrite app_nil_r. Qed.

Lemma prepares_trans s1 s2 s3 : prepares s1 s2 → prepares s2 s3 → prepares s1 s3.
Proof.
  intros (H1 & H2 & H3 & a1 & Ha1 & Hr1) (K1 & K2 & K3 & a2 & Ha2 & Hr2).
  repeat split; try congruence.
  exists (a1 ++ a2). rewrite Ha2, Ha1, <- app_assoc. split; [reflexivity|].
  rewrite forallb_app, Hr1, Hr2. reflexivity.
Qed.

Lemma prepares_remote r :
  is_signature (Remote r) = false → preserves State prepares (remote r).
Proof.
  intros Hr s x s' H. unfold remote in H. inversion H; subst.
  repeat split. exists [Remote r]. split; [reflexivity|].
  cbn [forallb]. now rewrite Hr.
Qed.

Lemma prepares_start r :
  is_signature (Remote r) = false → preserves State prepares (start r).
Proof.
  intros Hr s x s' H. unfold start in H. inversion H; subst.
  repeat split. exists [Remote r]. split; [reflexivity|].
  cbn [forallb]. now rewrite Hr.
Qed.

Ltac prepares_step :=
  first [ exact prepares_trans
        | apply preserves_ret, prepares_refl
        | apply preserves_throw, prepares_refl
        | apply preserves_lift, prepares_refl
        | apply preserves_gets, prepares_refl
        | apply prepares_remote; reflexivity
        | apply prepares_start; reflexivity ].

Ltac prepares_bind :=
  apply preserves_bind; [exact prepares_trans | try prepares_step | intros ?].

Lemma prepares_await v : preserves State prepares (await v).
Proof. destruct v; simpl; prepares_step. Qed.

Lemma prepares_getContractInstance : preserves State prepares _getContractInstance.
Proof.
  unfold _getContractInstance. prepares_bind.
  destruct (negb (truthy _)); [prepares_step|].
  prepares_bind. prepares_bind; [|prepares_step].
  destruct (negb (truthy _)); [|prepares_step].
  prepares_bind. apply preserves_modify. intros s.
  repeat split. exists []. simpl. now rewrite app_nil_r.
Qed.

Lemma prepares_remoteGetter name : preserves State prepares (remoteGetter name).
Proof.
  unfold remoteGetter.
  destruct (String.eqb name "_endpoint");
    [|destruct (String.eqb name "_manager");
      [|destruct (String.eqb name "_token"); [|prepares_step]]];
    (apply preserves_bind;
     [exact prepares_trans | apply prepares_getContractInstance | intros c; prepares_step]).
Qed.

Lemma prepares_put_dataset ds ds0 s :
  onChainDataset (self s) = Some ds0 →
  lifecycleState ds = lifecycleState ds0 →
  prepares s (put_dataset (Some ds) s).
Proof.
  intros H0 H. unfold prepares, lifecycle. simpl. rewrite H0. simpl. rewrite H.
  repeat split. exists []. now rewrite app_nil_r.
Qed.

Lemma accessor_dataset a name ds : accessor a name = Some ds → onChainDataset a = Some ds.
Proof.
  unfold accessor. destruct (onChainDataset a) as [d|]; [|discriminate].
  destruct (lookup name (fields d)); [|discriminate]. congruence.
Qed.

Lemma prepares_read_property name : preserves State prepares (read_property name).
Proof.
  intros s r s' H. unfold read_property in H. unfold bind at 1 in H. unfold gets at 1 in H.
  destruct (accessor (self s) name) as [ds|] eqn:Eacc.
  2:{ eapply prepares_await; eauto. }
  pose proof (accessor_dataset _ _ _ Eacc) as Hds.
  unfold read, bind in H.
  destruct (lifecycleState ds) eqn:El.
  - destruct (cached ds name) as [v|] eqn:Ec.
    + unfold ret, modify in H. simpl in H.
      eapply prepares_trans; [|eapply prepares_await; eauto].
      now apply (prepares_put_dataset ds ds).
    + unfold throw in H. inversion H; subst. apply prepares_refl.
  - destruct (cached ds name) as [v|] eqn:Ec.
    + unfold ret, modify in H. simpl in H.
      eapply prepares_trans; [|eapply prepares_await; eauto].
      now apply (prepares_put_dataset ds ds).
    + unfold catch in H.
      destruct (remoteGetter name s) as [[v|e] s1] eqn:Eg; simpl in H.
      * pose proof (prepares_remoteGetter name _ _ _ Eg) as Hs1.
        unfold ret, modify in H. simpl in H.
        eapply prepares_trans; [exact Hs1|].
        eapply prepares_trans; [|eapply prepares_await; eauto].
        destruct Hs1 as (_ & _ & Hl & _). unfold lifecycle in Hl. rewrite Hds in Hl.
        destruct (onChainDataset (self s1)) as [ds1|] eqn:E1; [|discriminate].
        simpl in Hl. apply (prepares_put_dataset _ ds1); [exact E1|].
        simpl. congruence.
      * unfold throw in H. inversion H; subst.
        eapply prepares_remoteGetter; eauto.
  - unfold throw in H. inversion H; subst. apply prepares_refl.
Qed.

Lemma prepares_get_endpoint : preserves State prepares get_endpoint.
Proof.
  unfold get_endpoint. prepares_bind.
  destruct (negb _); [prepares_step | apply prepares_read_property].
Qed.

Lemma prepares_createOnChainData options :
  preserves State prepares (createOnChainData options).
Proof.
  unfold createOnChainData.
  apply preserves_bind; [exact prepares_trans | apply prepares_get_endpoint | intros endpoint].
  repeat prepares_bind. prepares_step.
Qed.

Lemma prepares_transferOnChainOwnership newManager options :
  preserves State prepares (transferOnChainOwnership newManager options).
Proof.
  unfold transferOnChainOwnership. prepares_bind.
  match goal with |- context [match ?d with _ => _ end] => destruct d as [ds|] end;
    [|prepares_step].
  destruct (negb (isDeployed ds)); [prepares_step|].
  repeat prepares_bind. prepares_step.
Qed.

Lemma prepares_removeOnChainData options :
  preserves State prepares (removeOnChainData options).
Proof.
  unfold removeOnChainData. prepares_bind.
  match goal with |- context [match ?d with _ => _ end] => destruct d as [ds|] end;
    [|prepares_step].
  destruct (negb (isDeployed ds)); [prepares_step|].
  repeat prepares_bind. prepares_step.
Qed.

Lemma prepares_editEndpointOnChain options :
  preserves State prepares (_editEndpointOnChain options).
Proof.
  unfold _editEndpointOnChain.
  apply preserves_bind; [exact prepares_trans | apply prepares_getContractInstance | intros c].
  apply preserves_bind; [exact prepares_trans | apply prepares_get_endpoint | intros e].
  repeat prepares_bind. prepares_step.
Qed.

(** What a prepared transaction says, given the call it encodes. *)
Definition prepared_for (tx : PreparedTransaction) (options : TransactionOptions)
    (s : State) (call : Tx) : Prop :=
  tx_data tx = call ∧ tx_from tx = sender options ∧ tx_to tx = indexAddress (self s).

(** The airline only prepares transactions.  Creation, transfer of
    ownership, removal and the setter of the endpoint sign nothing and hand
    nothing to a wallet; they leave the address of the airline and the
    lifecycle state of its record as they are (these change in the
    callbacks of the receipt); and the transaction they return goes from
    the sender of the options to the index contract and encodes the call of
    the operation on the airline's address. *)
Theorem airline_prepares_only (options : TransactionOptions) (s : State) :
  (∀ r s', createOnChainData options s = (r, s') →
     prepares s s'
     ∧ ∀ tx, r = Ok tx → ∃ endpoint, prepared_for tx options s (RegisterAirline endpoint))
  ∧ (∀ newManager r s', transferOnChainOwnership newManager options s = (r, s') →
       prepares s s'
       ∧ ∀ tx, r = Ok tx →
           prepared_for tx options s (TransferAirline (address (self s)) newManager))
  ∧ (∀ r s', removeOnChainData options s = (r, s') →
       prepares s s'
       ∧ ∀ tx, r = Ok tx → prepared_for tx options s (DeleteAirline (address (self s))))
  ∧ (∀ r s', _editEndpointOnChain options s = (r, s') →
       prepares s s'
       ∧ ∀ tx, r = Ok tx →
           ∃ endpoint, prepared_for tx options s (CallAirline (address (self s)) endpoint)).
Proof.
  split; [|split; [|split]].
  - intros r s' H. split; [eapply prepares_createOnChainData; eauto|].
    intros tx ->. revert H. unfold createOnChainData. unfold bind at 1.
    destruct (get_endpoint s) as [[endpoint|e] s1] eqn:Ee; [|discriminate].
    destruct (prepares_get_endpoint _ _ _ Ee) as (_ & Hia & _).
    unfold start, remote, bind, gets, lift, ret. simpl.
    destruct (respond _ (AddressNonce _)) as [nonce|e]; [|discriminate].
    destruct (respond _ (EstimateGas _ _)) as [gas|e]; [|discriminate].
    intros H. inversion H; subst. exists endpoint. repeat split. simpl. exact Hia.
  - intros newManager r s' H.
    split; [eapply prepares_transferOnChainOwnership; eauto|].
    intros tx ->. revert H. unfold transferOnChainOwnership, bind at 1, gets at 1.
    destruct (onChainDataset (self s)) as [ds|]; [|unfold throw; discriminate].
    destruct (negb (isDeployed ds)); [unfold throw; discriminate|].
    unfold start, remote, bind, gets, lift, ret. simpl.
    destruct (respond _ (AddressNonce _)) as [nonce|e]; [|discriminate].
    destruct (respond _ (EstimateGas _ _)) as [gas|e]; [|discriminate].
    intros H. inversion H; subst. repeat split.
  - intros r s' H. split; [eapply prepares_removeOnChainData; eauto|].
    intros tx ->. revert H. unfold removeOnChainData, bind at 1, gets at 1.
    destruct (onChainDataset (self s)) as [ds|]; [|unfold throw; discriminate].
    destruct (negb (isDeployed ds)); [unfold throw; discriminate|].
    unfold start, remote, bind, gets, lift, ret. simpl.
    destruct (respond _ (AddressNonce _)) as [nonce|e]; [|discriminate].
    destruct (respond _ (EstimateGas _ _)) as [gas|e]; [|discriminate].
    intros H. inversion H; subst. repeat split.
  - intros r s' H. split; [eapply prepares_editEndpointOnChain; eauto|].
    intros tx ->. revert H. unfold _editEndpointOnChain. unfold bind at 1.
    destruct (_getContractInstance s) as [[c|e] s1] eqn:Ec; [|discriminate].
    destruct (prepares_getContractInstance _ _ _ Ec) as (Ha1 & Hia1 & _).
    unfold bind at 1.
    destruct (get_endpoint s1) as [[endpoint|e] s2] eqn:Ee; [|discriminate].
    destruct (prepares_get_endpoint _ _ _ Ee) as (Ha2 & Hia2 & _).
    unfold start, remote, bind, gets, lift, ret. simpl.
    destruct (respond _ (AddressNonce _)) as [nonce|e]; [|discriminate].
    destruct (respond _ (EstimateGas _ _)) as [gas|e]; [|discriminate].
    intros H. inversion H; subst. exists endpoint. unfold prepared_for. simpl.
    rewrite Ha2, Ha1, Hia2, Hia1. repeat split.
Qed.

(** **** The manager *)

Definition manager_null : Error :=
  mkError InputDataError "Cannot update airline: Cannot set manager to null".

Definition manager_deployed : Error :=
  mkError InputDataError "Cannot update airline: Cannot set manager when airline is deployed".

(** The manager of an airline.  The setter refuses an empty or missing
    value and refuses any value once the airline has an address, leaving
    the airline as it was.  A transfer of ownership is refused, before
    anything is asked of the network, unless the record of the airline is
    deployed; the error it throws then is the one of a removal. *)
Theorem airline_manager_changes (s : State) :
  (∀ v, truthy v = false → set_manager v s = (Throw manager_null, s))
  ∧ (∀ v, truthy v = true → truthy (address (self s)) = true →
       set_manager v s = (Throw manager_deployed, s))
  ∧ (∀ newManager options, lifecycle s ≠ Some Deployed →
       ∃ e, transferOnChainOwnership newManager options s = (Throw e, s)
            ∧ (onChainDataset (self s) ≠ None → e = not_deployed)
            ∧ fst (removeOnChainData options s) = Throw e).
Proof.
  split; [|split].
  - intros v Hv. unfold set_manager. now rewrite Hv.
  - intros v Hv Ha. unfold set_manager, bind, gets. rewrite Hv. simpl. now rewrite Ha.
  - intros newManager options Hl.
    unfold transferOnChainOwnership, removeOnChainData, bind, gets. simpl.
    unfold lifecycle in Hl.
    destruct (onChainDataset (self s)) as [ds|]; simpl in *.
    + unfold isDeployed. rewrite bool_decide_eq_false_2 by congruence. simpl.
      unfold throw. eexists. split; [reflexivity|]. split; reflexivity.
    + unfold throw. eexists. split; [reflexivity|]. split; [congruence | reflexivity].
Qed.

(** **** The callbacks of the receipts *)

(** The lifecycle of an airline is driven by the receipts.  The receipt of
    the creation marks the record deployed whether or not it carries logs,
    and gives the airline its address only when it does; the receipt of the
    removal makes the record obsolete and keeps the address.  Neither asks
    anything of the network, and once the removal is confirmed a further
    removal or a transfer of ownership is refused with the airline left as
    it is. *)
Theorem airline_receipts_drive_lifecycle
    (s : State) (ds : Dataset) (created : option Val) :
  onChainDataset (self s) = Some ds →
  lifecycleState ds = NotDeployed →
  ∃ s1, onCreated created s = (Ok tt, s1)
        ∧ lifecycle s1 = Some Deployed
        ∧ address (self s1) = match created with Some a => a | None => address (self s) end
        ∧ trace s1 = trace s
        ∧ ∃ s2, onRemoved s1 = (Ok tt, s2)
                ∧ lifecycle s2 = Some Obsolete
                ∧ address (self s2) = address (self s1)
                ∧ trace s2 = trace s
                ∧ ∀ options newManager,
                    removeOnChainData options s2 = (Throw not_deployed, s2)
                    ∧ transferOnChainOwnership newManager options s2
                      = (Throw not_deployed, s2).
Proof.
  intros Hds Hl. unfold onCreated, onRemoved, bind, gets, modify, ret. simpl. rewrite Hds.
  destruct created as [a|]; (eexists; split; [reflexivity|]);
    simpl; unfold lifecycle; simpl; rewrite Hl; simpl;
    (split; [reflexivity|]; split; [reflexivity|]; split; [reflexivity|];
     eexists; split; [reflexivity|]; simpl; rewrite ?Hl; simpl;
     split; [reflexivity|]; split; [reflexivity|]; split; [reflexivity|];
     intros options newManager;
     unfold removeOnChainData, transferOnChainOwnership, bind, gets; simpl;
     unfold isDeployed, markObsolete, markDeployed; simpl; rewrite ?Hl; simpl;
     split; reflexivity).
Qed.

(** **** [setLocalData] *)

(** A step that leaves the token of the airline alone: the data property
    [_token] and, when a dataset is bound, what it holds for [_token]. *)
Definition keeps_token (s s' : State) : Prop :=
  _token (self s') = _token (self s)
  ∧ match onChainDataset (self s), onChainDataset (self s') with
    | Some ds, Some ds' => cached ds' "_token" = cached ds "_token"
    | None, None => True
    | _, _ => False
    end.

Lemma keeps_token_refl s : keeps_token s s.
Proof. split; [reflexivity|]. now destruct (onChainDataset (self s)). Qed.

Lemma keeps_token_write name v s r s' :
  name ≠ "_token" → write_property name v s = (r, s') → keeps_token s s'.
Proof.
  intros Hne. unfold write_property. unfold bind at 1. unfold gets at 1.
  destruct (accessor (self s) name) as [ds|] eqn:Eacc.
  - pose proof (accessor_dataset _ _ _ Eacc) as Hds.
    unfold write, bind, lift, modify.
    destruct (lifecycleState ds); intros H; inversion H; subst;
      try apply keeps_token_refl;
      (split; [reflexivity|]; simpl; rewrite Hds;
       apply cached_set_cache_ne; congruence).
  - unfold modify. intros H. inversion H; subst. split.
    + simpl. destruct (String.eqb_spec name "_token"); [contradiction | reflexivity].
    + simpl. now destruct (onChainDataset (self s)).
Qed.

Lemma keeps_token_set_endpoint v s r s' :
  set_endpoint v s = (r, s') → keeps_token s s'.
Proof.
  unfold set_endpoint. destruct (negb (truthy v)).
  { unfold throw. intros H. inversion H; subst. apply keeps_token_refl. }
  destruct (typeof_string v).
  { unfold throw. intros H. inversion H; subst. apply keeps_token_refl. }
  apply keeps_token_write. discriminate.
Qed.

Lemma keeps_token_set_manager v s r s' :
  set_manager v s = (r, s') → keeps_token s s'.
Proof.
  unfold set_manager. destruct (negb (truthy v)).
  { unfold throw. intros H. inversion H; subst. apply keeps_token_refl. }
  unfold bind at 1. unfold gets at 1. destruct (truthy (address (self s))).
  { unfold throw. intros H. inversion H; subst. apply keeps_token_refl. }
  apply keeps_token_write. discriminate.
Qed.

Lemma keeps_token_trans s1 s2 s3 : keeps_token s1 s2 → keeps_token s2 s3 → keeps_token s1 s3.
Proof.
  intros [H1 K1] [H2 K2]. split; [congruence|].
  destruct (onChainDataset (self s1)), (onChainDataset (self s2)),
    (onChainDataset (self s3)); try contradiction; auto; congruence.
Qed.

Lemma airline_await_anywhere v s r s' :
  await v s = (r, s') → s' = s ∧ ∀ t, await v t = (r, t).
Proof.
  destruct v; simpl; unfold ret, lift; intros H; inversion H; subst; auto.
Qed.

Lemma bind_ok {S A B} (c : M S A) (k : A → M S B) s b s' :
  bind c k s = (Ok b, s') → ∃ a s1, c s = (Ok a, s1) ∧ k a s1 = (Ok b, s').
Proof.
  unfold bind. destruct (c s) as [[a|e] s1]; [eauto | discriminate].
Qed.

Definition keeps_token_of (x x' : Extended) : Prop := keeps_token (airline x) (airline x').

Lemma keeps_token_on_airline {A} (c : M State A) :
  (∀ s r s', c s = (r, s') → keeps_token s s') →
  preserves Extended keeps_token_of (on_airline c).
Proof.
  intros Hc x r x'. unfold on_airline, zoom.
  destruct (c (airline x)) as [r0 t] eqn:E. intros H. inversion H; subst.
  unfold keeps_token_of. simpl. eapply Hc; eauto.
Qed.

Lemma on_airline_dataUri {A} (c : M State A) x r x' :
  on_airline c x = (r, x') → dataUri x' = dataUri x ∧ c (airline x) = (r, airline x').
Proof.
  unfold on_airline, zoom. destruct (c (airline x)) as [r0 t].
  intros H. inversion H; subst. auto.
Qed.

Lemma keeps_token_await v s r s' : await v s = (r, s') → keeps_token s s'.
Proof.
  intros H. destruct (airline_await_anywhere _ _ _ _ H) as [-> _]. apply keeps_token_refl.
Qed.

(** [setLocalData] never stores a token: whatever the new data are and
    however the call ends, [_token] is what it was, and a token that was
    given and reached is kept under [dataUri].  The endpoint comes first: new
    data whose endpoint is a string other than the empty one make the call
    fail in the endpoint setter, and neither manager nor token is looked
    at. *)
Theorem airline_setLocalData_token (endpoint manager token : Val) (x : Extended) :
  (∀ r x', setLocalData endpoint manager token x = (r, x') →
     keeps_token (airline x) (airline x')
     ∧ (r = Ok tt → ∀ t, await token (airline x') = (Ok t, airline x') →
          dataUri x' = if truthy t then t else dataUri x))
  ∧ (∀ str, await endpoint (airline x) = (Ok (VStr str), airline x) → str ≠ "" →
       setLocalData endpoint manager token x = (Throw endpoint_must_be_string, x)).
Proof.
  assert (Hrefl : ∀ y, keeps_token_of y y) by (intros y; apply keeps_token_refl).
  assert (Htrans : ∀ y1 y2 y3, keeps_token_of y1 y2 → keeps_token_of y2 y3 →
                               keeps_token_of y1 y3).
  { intros y1 y2 y3. apply keeps_token_trans. }
  split.
  - intros r x' H. split.
    + revert H. change (keeps_token (airline x) (airline x')) with (keeps_token_of x x').
      revert x r x'. change (preserves Extended keeps_token_of
                               (setLocalData endpoint manager token)).
      unfold setLocalData.
      apply preserves_bind; [exact Htrans | apply keeps_token_on_airline, keeps_token_await|].
      intros e. apply preserves_bind; [exact Htrans | |].
      { destruct (truthy e); [|now apply preserves_ret].
        apply keeps_token_on_airline. apply keeps_token_set_endpoint. }
      intros _. apply preserves_bind;
        [exact Htrans | apply keeps_token_on_airline, keeps_token_await|].
      intros m. apply preserves_bind; [exact Htrans | |].
      { destruct (truthy m); [|now apply preserves_ret].
        apply keeps_token_on_airline. apply keeps_token_set_manager. }
      intros _. apply preserves_bind;
        [exact Htrans | apply keeps_token_on_airline, keeps_token_await|].
      intros t. destruct (truthy t); [|now apply preserves_ret].
      apply preserves_modify. intros y. apply keeps_token_refl.
    + intros -> t Ht. unfold setLocalData in H.
      apply bind_ok in H as (e & x1 & H1 & H).
      apply on_airline_dataUri in H1 as [D1 _].
      apply bind_ok in H as ([] & x2 & H2 & H).
      assert (D2 : dataUri x2 = dataUri x1).
      { destruct (truthy e).
        - now apply on_airline_dataUri in H2 as [D2 _].
        - unfold ret in H2. now inversion H2. }
      apply bind_ok in H as (m & x3 & H3 & H).
      apply on_airline_dataUri in H3 as [D3 _].
      apply bind_ok in H as ([] & x4 & H4 & H).
      assert (D4 : dataUri x4 = dataUri x3).
      { destruct (truthy m).
        - now apply on_airline_dataUri in H4 as [D4 _].
        - unfold ret in H4. now inversion H4. }
      apply bind_ok in H as (t' & x5 & H5 & H).
      apply on_airline_dataUri in H5 as [D5 A5].
      destruct (airline_await_anywhere _ _ _ _ A5) as [_ Hany].
      assert (t' = t).
      { specialize (Hany (airline x')). rewrite Ht in Hany. now inversion Hany. }
      subst t'. destruct (truthy t); unfold modify, ret in H; inversion H; subst; simpl;
        [reflexivity | congruence].
  - intros str He Hne. destruct x as [a d]. unfold setLocalData, on_airline, zoom. simpl in *.
    unfold bind at 1. simpl. rewrite He. simpl.
    destruct (String.eqb_spec str ""); [contradiction|]. simpl.
    unfold bind at 1. simpl. rewrite set_endpoint_string.
    destruct (String.eqb_spec str ""); [contradiction|]. reflexivity.
Qed.

End Airline.

(** An airline made by [new] without an address, and the same object after
    [initialize] ran on it. *)
Definition sample_airline : State :=
  {| self := construct (VStr "0xindex") VUndefined; trace := [] |}.

Definition sample_initialized : State := snd (initialize sample_airline).

(** An airline with an address, and a network that answers. *)
Definition sample_addressed : State :=
  {| self := construct (VStr "0xindex")
                       (VStr "0xbf18b616ac81830dd0c5d4b771f22fd8144fe769");
     trace := [] |}.

Definition sample_respond (clock : nat) (r : Request) : result Val :=
  match r with
  | GetAirlineInstance _ => Ok (VObject 2)
  | _ => Throw (mkError PlainError "unexpected request")
  end.

Lemma airline_receipts_drive_lifecycle_witness :
  lifecycle (snd (onCreated (Some (VStr "0xbf18")) sample_initialized)) = Some Deployed
  ∧ address (self (snd (onCreated (Some (VStr "0xbf18")) sample_initialized)))
    = VStr "0xbf18".
Proof.
  destruct (airline_receipts_drive_lifecycle sample_respond sample_initialized
              RemotelyBackedDataset.createInstance (Some (VStr "0xbf18"))
              eq_refl eq_refl) as (s1 & H & Hl & Ha & _).
  rewrite H. simpl. split; [exact Hl | exact Ha].
Defined.

End OnChainAirline.

(** ** The entities together *)

Import RemotelyBackedDataset.

(** C1. A commit or a removal on an entity whose dataset is not [Deployed]
    fails with an error, for the dataset itself, for a hotel and for an
    airline: no descriptor is returned, no setter is invoked and nothing is
    handed to the wallet (a commit may at most have instantiated the
    contract wrapper; a removal leaves the entity as it was).  An entity
    constructed without an address is not [Deployed]. *)
Theorem not_deployed_fails_fast
    (respond : nat → Request → result Val) (settle : nat → result Val) :
  (∀ (S WriteOptions Descriptor : Type)
     (invoke : string → Payload → WriteOptions → M S Descriptor)
     (options : WriteOptions) (ds : Dataset) (s : S),
     lifecycleState ds ≠ Deployed →
     updateRemoteData S WriteOptions Descriptor invoke options ds s
     = (Throw (mkError NotDeployedError "record is not deployed"), s))
  ∧ (∀ (s : OnChainHotel.State) (options : OnChainHotel.TransactionOptions),
       lifecycleState (OnChainHotel.dataset s) ≠ Deployed →
       (∃ e s', OnChainHotel.updateOnChainData respond settle options s = (Throw e, s')
                ∧ writes (OnChainHotel.trace s') = writes (OnChainHotel.trace s))
       ∧ ∃ e, OnChainHotel.removeOnChainData respond options s = (Throw e, s))
  ∧ (∀ (s : OnChainAirline.State) (options : OnChainAirline.TransactionOptions),
       OnChainAirline.lifecycle s ≠ Some Deployed →
       (∃ e s', OnChainAirline.updateOnChainData respond settle options s = (Throw e, s')
                ∧ writes (OnChainAirline.trace s') = writes (OnChainAirline.trace s))
       ∧ ∃ e, OnChainAirline.removeOnChainData respond options s = (Throw e, s))
  ∧ (∀ indexAddr addr tr hp, truthy addr = false →
       lifecycleState (OnChainHotel.dataset
                         {| OnChainHotel.self := OnChainHotel.createInstance indexAddr addr;
                            OnChainHotel.trace := tr; OnChainHotel.heap := hp |})
       = NotDeployed
       ∧ OnChainAirline.lifecycle
           {| OnChainAirline.self := OnChainAirline.construct indexAddr addr;
              OnChainAirline.trace := tr |} = None
       ∧ OnChainAirline.lifecycle
           (snd (OnChainAirline.initialize
                   {| OnChainAirline.self := OnChainAirline.construct indexAddr addr;
                      OnChainAirline.trace := tr |})) = Some NotDeployed).
Proof.
  split.
  { intros S WO D invoke options ds s Hl. unfold updateRemoteData.
    now rewrite OnChainHotel.isDeployed_false. }
  split.
  { intros s options Hl. split.
    - destruct (OnChainHotel.updateOnChainData_not_deployed respond settle options s Hl)
        as (e & s' & H & Hw & _). eauto.
    - eexists. now apply OnChainHotel.removeOnChainData_not_deployed. }
  split.
  { intros s options Hl. split.
    - destruct (OnChainAirline.airline_updateOnChainData_not_deployed
                  respond settle options s Hl) as (e & s' & H & Hw & _). eauto.
    - now apply OnChainAirline.airline_removeOnChainData_not_deployed. }
  intros indexAddr addr tr hp Ha.
  unfold OnChainHotel.dataset, OnChainHotel.createInstance. simpl. rewrite Ha.
  repeat split.
Qed.

Lemma not_deployed_fails_fast_witness :
  is_ok (fst (OnChainAirline.updateOnChainData
                OnChainAirline.sample_respond OnChainHotel.sample_settle
                {| OnChainAirline.sender := VStr "0xd39c"; OnChainAirline.recipient := VStr "0xindex" |}
                OnChainAirline.sample_initialized)) = false
  ∧ is_ok (fst (OnChainAirline.removeOnChainData
                  OnChainAirline.sample_respond
                  {| OnChainAirline.sender := VStr "0xd39c"; OnChainAirline.recipient := VStr "0xindex" |}
                  OnChainAirline.sample_initialized)) = false.
Proof.
  destruct (not_deployed_fails_fast OnChainAirline.sample_respond OnChainHotel.sample_settle)
    as (_ & _ & H & _).
  destruct (H OnChainAirline.sample_initialized
              {| OnChainAirline.sender := VStr "0xd39c"; OnChainAirline.recipient := VStr "0xindex" |})
    as ((e & s' & Hu & _) & (e' & Hr)).
  - discriminate.
  - rewrite Hu, Hr. split; reflexivity.
Defined.

(** C5 (amended). Once a call of [__getContractInstance] (hotel) or
    [_getContractInstance] (airline) has returned a contract instance, every
    later call returns that instance without calling the
    contract-instantiation collaborator: the state, and with it the trace of
    requests, stays as it is; a single call asks the collaborator at most
    once, and a call that fails caches nothing.  Repeated accesses to
    [dataIndex] construct at most one Storage Pointer, and none when the
    hotel has one.  A field that was read successfully is read again with
    the same value and without a remote fetch. *)
Theorem reads_memoized_after_success
    (respond : nat → Request → result Val) (settle : nat → result Val) :
  (∀ s c s1,
     OnChainHotel.__getContractInstance respond s = (Ok c, s1) → truthy c = true →
     (instantiations (OnChainHotel.trace s1)
      ≤ instantiations (OnChainHotel.trace s) + 1)%nat
     ∧ ∀ n, repeatedly n (OnChainHotel.__getContractInstance respond) s1 = s1
            ∧ OnChainHotel.__getContractInstance respond s1 = (Ok c, s1))
  ∧ (∀ s e s1,
       OnChainHotel.__getContractInstance respond s = (Throw e, s1) →
       OnChainHotel.contractInstance (OnChainHotel.self s1)
       = OnChainHotel.contractInstance (OnChainHotel.self s))
  ∧ (∀ s e s1,
       OnChainAirline._getContractInstance respond s = (Throw e, s1) →
       OnChainAirline.contractInstance (OnChainAirline.self s1)
       = OnChainAirline.contractInstance (OnChainAirline.self s))
  ∧ (∀ s c s1,
       OnChainAirline._getContractInstance respond s = (Ok c, s1) → truthy c = true →
       (instantiations (OnChainAirline.trace s1)
        ≤ instantiations (OnChainAirline.trace s) + 1)%nat
       ∧ ∀ n, repeatedly n (OnChainAirline._getContractInstance respond) s1 = s1
              ∧ OnChainAirline._getContractInstance respond s1 = (Ok c, s1))
  ∧ (∀ s n,
       (pointers_created
          (OnChainHotel.trace
             (repeatedly n (OnChainHotel.get_dataIndex respond settle) s))
        ≤ pointers_created (OnChainHotel.trace s)
          + match OnChainHotel._dataIndex (OnChainHotel.self s) with
            | Some _ => 0
            | None => 1
            end)%nat)
  ∧ (∀ name s u s1,
       OnChainHotel.read_field respond settle name s = (Ok u, s1) →
       ∀ n, repeatedly n (OnChainHotel.read_field respond settle name) s1 = s1
            ∧ OnChainHotel.read_field respond settle name s1 = (Ok u, s1)).
Proof.
  split.
  { intros s c s1 H Hc.
    split; [eapply OnChainHotel.getContractInstance_once; eauto|].
    pose proof (OnChainHotel.getContractInstance_memoized respond _ _ _ H Hc) as Hm.
    intros n. split; [|exact Hm]. apply repeatedly_fixed. now rewrite Hm. }
  split; [apply OnChainHotel.getContractInstance_failure|].
  split; [apply OnChainAirline.airline_getContractInstance_failure|].
  split.
  { intros s c s1 H Hc.
    split; [eapply OnChainAirline.airline_getContractInstance_once; eauto|].
    pose proof (OnChainAirline.airline_getContractInstance_memoized respond _ _ _ H Hc) as Hm.
    intros n. split; [|exact Hm]. apply repeatedly_fixed. now rewrite Hm. }
  split.
  { intros s n. apply OnChainHotel.dataIndex_constructed_once. }
  intros name s u s1 H n.
  pose proof (OnChainHotel.read_field_memoized respond settle _ _ _ _ H) as Hm.
  split; [|exact Hm]. apply repeatedly_fixed. now rewrite Hm.
Qed.

Lemma reads_memoized_after_success_witness :
  instantiations
    (OnChainHotel.trace
       (repeatedly 3 (OnChainHotel.__getContractInstance OnChainHotel.sample_respond)
                   OnChainHotel.sample_hotel)) = 1
  ∧ instantiations
      (OnChainAirline.trace
         (repeatedly 3 (OnChainAirline._getContractInstance OnChainAirline.sample_respond)
                     OnChainAirline.sample_addressed)) = 1.
Proof.
  destruct (reads_memoized_after_success OnChainHotel.sample_respond OnChainHotel.sample_settle)
    as (Hh & _).
  destruct (reads_memoized_after_success OnChainAirline.sample_respond OnChainHotel.sample_settle)
    as (_ & _ & _ & Ha & _).
  split.
  - destruct (Hh OnChainHotel.sample_hotel (VObject 1)
                (snd (OnChainHotel.__getContractInstance OnChainHotel.sample_respond
                        OnChainHotel.sample_hotel)) eq_refl eq_refl) as (_ & Hn).
    change (repeatedly 3 ?c ?s) with (repeatedly 2 c (snd (c s))).
    rewrite (proj1 (Hn 2)). reflexivity.
  - destruct (Ha OnChainAirline.sample_addressed (VObject 2)
                (snd (OnChainAirline._getContractInstance OnChainAirline.sample_respond
                        OnChainAirline.sample_addressed)) eq_refl eq_refl) as (_ & Hn).
    change (repeatedly 3 ?c ?s) with (repeatedly 2 c (snd (c s))).
    rewrite (proj1 (Hn 2)). reflexivity.
Defined.

(** ** Slots as numerals

    The index contract answers [hotelsIndex] with a number, which reaches
    [getHotel] as its decimal numeral. *)

Lemma leading_digits_numeral d : ∀ acc,
  leading_digits (DecimalString.NilEmpty.string_of_uint d) (Z.of_nat acc)
  = Z.of_nat (Nat.of_uint_acc d acc).
Proof.
  induction d; intros acc; simpl; try reflexivity;
    rewrite <- IHd; f_equal; rewrite Nat.tail_mul_spec; lia.
Qed.

(** Nothing is skipped in front of a digit. *)
Lemma skip_spaces_digit c rest :
  is_digit c = true → skip_spaces (String c rest) = String c rest.
Proof.
  destruct c as [[] [] [] [] [] [] [] []]; try discriminate; intros _;
    destruct rest as [|c2 [|c3 rest]]; reflexivity.
Qed.

Lemma parseInt10_decimal n : parseInt10 (JsonWTIndex.decimal n) = Some (Z.of_nat n).
Proof.
  unfold JsonWTIndex.decimal, DecimalString.NilZero.string_of_uint.
  pose proof (DecimalNat.Unsigned.of_to n) as Hn. unfold Nat.of_uint in Hn.
  destruct (Nat.to_uint n) as [|d|d|d|d|d|d|d|d|d|d] eqn:E;
    [now apply JsonWTIndex.to_uint_not_nil in E|..];
    cbn [DecimalString.NilEmpty.string_of_uint];
    unfold parseInt10; rewrite skip_spaces_digit by reflexivity; simpl;
    rewrite <- Hn; f_equal; simpl;
    match goal with |- leading_digits _ ?z = _ =>
      change z with (Z.of_nat (Z.to_nat z)) end;
    rewrite leading_digits_numeral; f_equal.
Qed.

(** A hotel is looked for by its slot: with the index contract at hand and
    the slot of the address given as a decimal numeral, [getHotel] rejects
    with 'Not found in hotel list' for the slot zero and is the hotel
    factory's outcome for every other slot. *)
Theorem getHotel_by_slot
    (HotelT : Type) (getIndexInstance : string → result nat)
    (call_hotelsIndex : nat → string → result string)
    (getHotelInstance : nat → string → result (option HotelT))
    (s : WTIndex.State) (index : nat) (addr : string) (slot : nat) :
  WTIndex.with_index s index →
  call_hotelsIndex index addr = Ok (JsonWTIndex.decimal slot) →
  fst (WTIndex.getHotel HotelT getIndexInstance call_hotelsIndex getHotelInstance addr s)
  = match slot with
    | 0 => Throw (WTIndex.cannot_find addr WTIndex.not_found)
    | S _ => getHotelInstance index addr
    end.
Proof.
  intros Hidx Hslot. destruct s as [[a d] tr].
  unfold WTIndex.with_index in Hidx. simpl in Hidx. subst d.
  unfold WTIndex.getHotel, WTIndex.__createHotelInstance, WTIndex.__getDeployedIndex,
    catch, bind, gets, WTIndex.emit, modify, lift, throw, ret. simpl.
  rewrite Hslot, parseInt10_decimal. destruct slot as [|k]; [reflexivity|].
  unfold number_falsy. destruct (Z.eqb_spec (Z.of_nat (S k)) 0) as [E|_]; [lia|].
  simpl. now destruct (getHotelInstance index addr).
Qed.

Lemma getHotel_by_slot_witness :
  fst (WTIndex.getHotel string WTIndex.sample_getIndexInstance
         (fun _ _ => Ok (JsonWTIndex.decimal 3)) WTIndex.sample_getHotelInstance
         "0xa" WTIndex.sample_with_index)
  = Ok (Some "hotel@0xa").
Proof.
  exact (getHotel_by_slot string WTIndex.sample_getIndexInstance
           (fun _ _ => Ok (JsonWTIndex.decimal 3)) WTIndex.sample_getHotelInstance
           WTIndex.sample_with_index 7 "0xa" 3 eq_refl eq_refl).
Defined.
